(** * Clusrun head node: sweep parser, node registry, validator and job dispatcher

    A shallow embedding of [clusnode/headnode.go] and the properties of its
    specification.  Go's [int] is the 64-bit two's-complement integer, carried
    here as a [Z] with the wrap-around of every addition written out; Go
    strings are byte strings, carried as [string]; the two [sync.Map]s of the
    registry and the per-job map are [gmap]s keyed by display name. *)

From Stdlib Require Import ZArith String Ascii List Lia Bool DecimalString.
From stdpp Require Import gmap strings list fin_maps.

Import ListNotations.
Open Scope Z_scope.

(** ** Go primitives used by the head node *)

Module Go.

(** [int] on a 64-bit platform. *)
Definition MaxInt64 : Z := 9223372036854775807.
Definition MinInt64 : Z := -9223372036854775808.

Definition in_int (z : Z) : bool := (MinInt64 <=? z) && (z <=? MaxInt64).

(** Two's-complement wrap-around of an [int] result. *)
Definition wrap (z : Z) : Z := (z + 2 ^ 63) mod 2 ^ 64 - 2 ^ 63.

(** [len(s)] *)
Definition len (s : string) : nat := String.length s.

(** [s[i:j]] for [i <= j <= len(s)]. *)
Definition slice (s : string) (i j : nat) : string := substring i (j - i) s.

(** [strings.Split(s, sep)] for a one-byte separator: the pieces of [s]
    between the occurrences of [sep]; never empty. *)
Fixpoint Split (s : string) (sep : ascii) : list string :=
  match s with
  | EmptyString => [EmptyString]
  | String c s' =>
      if Ascii.eqb c sep then EmptyString :: Split s' sep
      else match Split s' sep with
           | [] => [String c EmptyString]
           | p :: ps => String c p :: ps
           end
  end.

(** [strings.LastIndex(s, sep)] for a one-byte separator; [None] is Go's -1. *)
Fixpoint LastIndex (s : string) (sep : ascii) : option nat :=
  match s with
  | EmptyString => None
  | String c s' =>
      match LastIndex s' sep with
      | Some i => Some (S i)
      | None => if Ascii.eqb c sep then Some O else None
      end
  end.

(** [strings.HasPrefix(s, prefix)] *)
Fixpoint HasPrefix (s prefix : string) : bool :=
  match prefix, s with
  | EmptyString, _ => true
  | String _ _, EmptyString => false
  | String p prefix', String c s' => Ascii.eqb p c && HasPrefix s' prefix'
  end.

(** [strings.Contains(s, substr)]: [substr] occurs at some offset of [s]. *)
Fixpoint Contains (s substr : string) : bool :=
  HasPrefix s substr ||
  match s with
  | EmptyString => false
  | String _ s' => Contains s' substr
  end.

(** [strconv.Atoi]: an optional sign, then one or more decimal digits, the
    value within the range of [int]; [None] stands for a non-nil error. *)
Definition digit (c : ascii) : option Z :=
  let n := nat_of_ascii c in
  if ((48 <=? n) && (n <=? 57))%nat then Some (Z.of_nat n - 48) else None.

Fixpoint digits (s : string) (acc : Z) : option Z :=
  match s with
  | EmptyString => Some acc
  | String c s' =>
      match digit c with
      | Some d => digits s' (acc * 10 + d)
      | None => None
      end
  end.

Definition Atoi (s : string) : option Z :=
  match s with
  | EmptyString => None
  | String c rest =>
      let neg := Ascii.eqb c "-" in
      let body := if neg || Ascii.eqb c "+" then rest else s in
      match body with
      | EmptyString => None
      | String _ _ =>
          match digits body 0 with
          | Some n =>
              let v := if neg then - n else n in
              if in_int v then Some v else None
          | None => None
          end
      end
  end.

(** [strconv.Itoa] *)
Definition Itoa (z : Z) : string := NilZero.string_of_int (Z.to_int z).

End Go.

Example Split_commas : Go.Split "1-3,2" "," = ["1-3"; "2"]%string.
Proof. reflexivity. Qed.

Example Split_dashes : Go.Split "-5--1" "-" = [""; "5"; ""; "1"]%string.
Proof. reflexivity. Qed.

Example Split_none : Go.Split "" "," = [""]%string.
Proof. reflexivity. Qed.

Example LastIndex_brace : Go.LastIndex "a{b{c}" "{" = Some 3%nat.
Proof. reflexivity. Qed.

Example Atoi_samples :
  Go.Atoi "-12" = Some (-12) /\ Go.Atoi "+7" = Some 7 /\ Go.Atoi "007" = Some 7 /\
  Go.Atoi "" = None /\ Go.Atoi "-" = None /\ Go.Atoi "1a" = None /\ Go.Atoi "--1" = None /\
  Go.Atoi "9223372036854775807" = Some Go.MaxInt64 /\
  Go.Atoi "9223372036854775808" = None /\
  Go.Atoi "-9223372036854775808" = Some Go.MinInt64.
Proof. repeat split; reflexivity. Qed.

Example Itoa_samples : Go.Itoa (-40) = "-40"%string /\ Go.Itoa 0 = "0"%string.
Proof. split; reflexivity. Qed.

(** ** The head node *)

Section Headnode.

(** Constants of package [main] declared outside [headnode.go]: the largest
    and the smallest [int], used as the open end of a sweep. *)
Variables Max_Int Min_Int : Z.

(** *** [parseSweep]

    Valid format: [placeholder[{[-]begin[-[-]end][,[-]step]}]].  Every bare
    [return] of the Go function leaves the named results at their initial
    values; the parsing part below answers [None] there. *)

(** The [len(parts) == 2] block on the comma-separated fields: the explicit
    step and the open end it selects, as [(end, step)]. *)
Definition parseStep (parts : list string) : option (Z * Z) :=
  match parts with
  | [_; p1] =>
      s ← Go.Atoi p1;
      if s =? 0 then None
      else Some (if s <? 0 then Min_Int else Max_Int, s)
  | _ => Some (Max_Int, 0)
  end.

(** The case analysis on the dash-separated pieces of the first field, as
    [(begin, end)]; [end_] is the end selected so far. *)
Definition parseRange (parts : list string) (end_ : Z) : option (Z * Z) :=
  match parts with
  | [p0] =>
      b ← Go.Atoi p0; Some (b, end_)
  | [p0; p1] =>
      if (Go.len p0 =? 0)%nat then
        b ← Go.Atoi ("-" +:+ p1); Some (b, end_)
      else
        b ← Go.Atoi p0; e ← Go.Atoi p1; Some (b, e)
  | [p0; p1; p2] =>
      if (Go.len p0 =? 0)%nat then
        b ← Go.Atoi ("-" +:+ p1); e ← Go.Atoi p2; Some (b, e)
      else if (Go.len p1 =? 0)%nat then
        b ← Go.Atoi p0; e ← Go.Atoi ("-" +:+ p2); Some (b, e)
      else None
  | [p0; p1; p2; p3] =>
      if (Go.len p0 =? 0)%nat || (Go.len p2 =? 0)%nat then
        b ← Go.Atoi ("-" +:+ p1); e ← Go.Atoi ("-" +:+ p3); Some (b, e)
      else None
  | _ => None
  end.

(** Lines 453-556: [(placeholder, begin, end, step)] when the sweep parses. *)
Definition parseSweepFields (sweep : string) : option (string * Z * Z * Z) :=
  let length := Go.len sweep in
  if (length =? 0)%nat then None
  else if negb (String.eqb (Go.slice sweep (length - 1) length) "}") then None
  else
    match Go.LastIndex sweep "{" with
    | None => None
    | Some index =>
        if (Go.len (Go.slice sweep 0 index) =? 0)%nat then None
        else
          let parts := Go.Split (Go.slice sweep (index + 1) (length - 1)) "," in
          if (2 <? List.length parts)%nat then None
          else
            '(end_, step) ← parseStep parts;
            '(begin, end_) ← parseRange (Go.Split (nth 0 parts ""%string) "-") end_;
            Some (Go.slice sweep 0 index, begin, end_, step)
    end.

(** Lines 557-564: the step implied by the direction of the range. *)
Definition defaultStep (begin end_ step : Z) : Z :=
  if step =? 0 then
    let step := if begin <? end_ then 1 else step in
    if begin >? end_ then -1 else step
  else step.

(** One turn of the loop of lines 566-572 after the store: [n += step], and
    back to [begin] once [n] has passed [end]. *)
Definition nextTerm (begin end_ step n : Z) : Z :=
  let n := Go.wrap (n + step) in
  if (step >? 0) && (n >? end_) || (step <? 0) && (n <? end_) then begin else n.

(** [sequence[i] = i] for every index (lines 449-452). *)
Definition indices (count : nat) : list Z := Z.of_nat <$> seq 0 count.

(** The loop [for i := range sequence] of lines 565-572, threading the
    slice and [n]. *)
Definition sweepLoop (begin end_ step : Z) (sequence : list Z) : list Z :=
  fst (fold_left
         (fun '(sequence, n) i => (<[i := n]> sequence, nextTerm begin end_ step n))
         (seq 0 (List.length sequence))
         (sequence, begin)).

Definition parseSweep (sweep : string) (count : nat) : string * list Z :=
  let placeholder := sweep in
  let sequence := indices count in
  match parseSweepFields sweep with
  | None => (placeholder, sequence)
  | Some (placeholder, begin, end_, step) =>
      let step := defaultStep begin end_ step in
      (placeholder, sweepLoop begin end_ step sequence)
  end.

(** *** Protocol types ([pb]) *)

Inductive NodeState := NodeState_Unknown | NodeState_Ready | NodeState_Error | NodeState_Lost.

Inductive JobState :=
  JobState_Created | JobState_Dispatching | JobState_Running
| JobState_Finished | JobState_Failed | JobState_Canceled.

#[export] Instance NodeState_eq_dec : EqDecision NodeState.
Proof. solve_decision. Defined.

#[export] Instance JobState_eq_dec : EqDecision JobState.
Proof. solve_decision. Defined.

Record GetNodesReply_Node := { Name : string; State : NodeState }.

Record StartClusJobReply := {
  JobId : Z; Nodes : list string;
  Node : string; Stdout : string; Stderr : string; ExitCode : Z }.

(** One message of a worker's [StartJob] stream. *)
Record StartJobReply := { out_stdout : string; out_stderr : string; out_exit_code : Z }.

Record jobOnNode := { state : JobState; exitCode : Z }.

(** *** The registry: [reportedTime] and [validateNumber]

    Instants and durations are nanosecond counts. *)

Record Registry := {
  reportedTime : gmap string Z;
  validateNumber : gmap string Z }.

(** Collaborators outside [headnode.go]: the configured timeout, the default
    port, the address parser of the package, and the library functions whose
    result depends on Unicode tables or on the regular-expression engine. *)
Variable HeartbeatTimeoutSecond : Z.
Variable DefaultPort : string.
Variable ParseHostAddress : string -> option (string * string * string).
Variable ToUpper : string -> string.
Variable ReplaceAll : string -> string -> string -> string.
Variable Regexp : Type.
Variable Compile : string -> Regexp + string.
Variable Match : Regexp -> string -> bool.

(** [sync.Map.Range] visits every entry once, in an order it does not
    specify.  [Range] is the traversal of one call; what two calls return is
    compared in section [Traversals], with a traversal for each. *)
Variable Range : gmap string Z -> list (string * Z).
Hypothesis Range_spec : forall m, Range m ≡ₚ map_to_list m.

(** [regexp.MatchString]: a pattern that does not compile gives [false] and
    the error. *)
Definition MatchString (pattern s : string) : bool * option string :=
  match Compile pattern with
  | inr err => (false, Some err)
  | inl re => (Match re s, None)
  end.

Definition Second : Z := 1000000000.

(** [time.Since]: the elapsed duration, kept within the range of
    [time.Duration]. *)
Definition Since (now t : Z) : Z := Z.max Go.MinInt64 (Z.min Go.MaxInt64 (now - t)).

(** [time.Duration(n) * time.Second] *)
Definition HeartbeatTimeoutDuration : Z := Go.wrap (HeartbeatTimeoutSecond * Second).

Definition HeartbeatTimeout (now last_report : Z) : bool :=
  Since now last_report >? HeartbeatTimeoutDuration.

(** [strings.ContainsAny(s, "()")] *)
Definition ContainsParen (s : string) : bool := Go.Contains s "(" || Go.Contains s ")".

Inductive HeartbeatError := InvalidNodename (nodename : string) | InvalidHost (host : string).

(** [Heartbeat]: the registry after the call, the error returned, and the
    arguments of the [Validate] it starts. *)
Definition Heartbeat (now : Z) (r : Registry) (nodename host : string)
  : Registry * option HeartbeatError * option (string * string * string) :=
  if ContainsParen nodename then (r, Some (InvalidNodename nodename), None)
  else
    match ParseHostAddress host with
    | None => (r, Some (InvalidHost host), None)
    | Some (hostname, port, host) =>
        let nodename := ToUpper nodename in
        let display_name :=
          if String.eqb hostname nodename && String.eqb port DefaultPort then nodename
          else nodename +:+ "(" +:+ host +:+ ")" in
        let validateNumber :=
          match reportedTime r !! display_name with
          | None => validateNumber r
          | Some last_report =>
              if HeartbeatTimeout now last_report
              then delete display_name (validateNumber r)
              else validateNumber r
          end in
        ({| reportedTime := <[display_name := now]> (reportedTime r);
            validateNumber := validateNumber |},
         None, Some (display_name, nodename, host))
    end.

(** *** [Validate] *)

(** What the dial and the worker's [Validate] call come to. *)
Inductive ValidateOutcome :=
| DialFailed
| CallFailed
| Replied (nodename : string).

(** The seconds slept before a retry: [math.Pow(2, number)], at most 60. *)
Definition validateDelay (number : Z) : Z :=
  let delay := 2 ^ number in
  if delay >? 60 then 60 else delay.

(** Lines 217-226: [LoadOrStore], the guard, and the mark that a validation
    is ongoing.  [Some (number, delay)] when the run goes on to validate. *)
Definition ValidateBegin (display_name : string) (vn : gmap string Z)
  : gmap string Z * option (Z * option Z) :=
  let '(number, ok, vn) :=
    match vn !! display_name with
    | Some number => (number, true, vn)
    | None => (0, false, <[display_name := 0]> vn)
    end in
  if negb ok || (number >? 0) then
    if ok then (<[display_name := 0]> vn, Some (number, Some (validateDelay number)))
    else (vn, Some (number, None))
  else (vn, None).

(** Lines 227-252: the store that ends a validation. *)
Definition ValidateEnd (display_name nodename : string) (number : Z)
    (outcome : ValidateOutcome) (vn : gmap string Z) : gmap string Z :=
  match outcome with
  | DialFailed => <[display_name := Go.wrap (number + 1)]> vn
  | CallFailed => <[display_name := Go.wrap (number + 1)]> vn
  | Replied reply =>
      let name := ToUpper reply in
      if negb (String.eqb name nodename) then <[display_name := 10]> vn
      else <[display_name := -1]> vn
  end.

(** A run of [Validate] that no other run interleaves with. *)
Definition Validate (display_name nodename host : string)
    (outcome : ValidateOutcome) (vn : gmap string Z) : gmap string Z :=
  match ValidateBegin display_name vn with
  | (vn, Some (number, _)) => ValidateEnd display_name nodename number outcome vn
  | (vn, None) => vn
  end.

(** *** [GetNodes] *)

Definition nodeState (now : Z) (r : Registry) (nodename : string) (last_report : Z) : NodeState :=
  if HeartbeatTimeout now last_report then NodeState_Lost
  else
    match validateNumber r !! nodename with
    | Some number => if number <? 0 then NodeState_Ready else NodeState_Error
    | None => NodeState_Error
    end.

Definition GetNodes (now : Z) (r : Registry) (pattern : string) (state : NodeState)
  : list GetNodesReply_Node * option string :=
  let nodes :=
    fold_left
      (fun nodes '(nodename, last_report) =>
         if negb (fst (MatchString pattern nodename)) then nodes
         else
           let node_state := nodeState now r nodename last_report in
           if bool_decide (state = NodeState_Unknown) || bool_decide (state = node_state)
           then nodes ++ [{| Name := nodename; State := node_state |}]
           else nodes)
      (Range (reportedTime r)) [] in
  (nodes, None).

(** *** [GetValidNodes] and [ParseHost] *)

(** [None] is the run-time panic of slicing the empty string at [:-1]. *)
Definition ParseHost (display_name : string) : option string :=
  let segs := Go.Split display_name "(" in
  if (List.length segs <=? 1)%nat then Some (display_name +:+ ":" +:+ DefaultPort)
  else
    let seg := nth 1 segs ""%string in
    if (Go.len seg =? 0)%nat then None
    else Some (Go.slice seg 0 (Go.len seg - 1)).

(** The body of the [Range] callback of lines 259-271. *)
Definition readyStep (now : Z) (r : Registry) (pattern : string)
    (acc : gmap string string * list string) (entry : string * Z)
  : option (gmap string string * list string) :=
  let '(ready_nodes, valid_nodes) := acc in
  let '(node, last_report) := entry in
  match validateNumber r !! node with
  | Some number =>
      if (number <? 0) && negb (HeartbeatTimeout now last_report) then
        if negb (fst (MatchString pattern node)) then Some acc
        else
          host ← ParseHost node;
          Some (<[host := node]> (<[node := node]> ready_nodes), valid_nodes ++ [node])
      else Some acc
  | None => Some acc
  end.

Definition readyNodes (now : Z) (r : Registry) (pattern : string)
  : option (gmap string string * list string) :=
  fold_left (fun acc entry => acc ≫= fun acc => readyStep now r pattern acc entry)
            (Range (reportedTime r)) (Some (∅, [])).

(** The body of the loop over the requested names, lines 276-285. *)
Definition pickStep (ready_nodes : gmap string string)
    (acc : list string * gmap string bool * list string) (node : string)
  : list string * gmap string bool * list string :=
  let '(valid_nodes, added, invalid_nodes) := acc in
  match ready_nodes !! ToUpper node with
  | Some valid_node =>
      match added !! valid_node with
      | None => (valid_nodes ++ [valid_node], <[valid_node := true]> added, invalid_nodes)
      | Some _ => acc
      end
  | None => (valid_nodes, added, invalid_nodes ++ [node])
  end.

(** [None] when [ParseHost] panics. *)
Definition GetValidNodes (now : Z) (r : Registry) (nodes : list string) (pattern : string)
  : option (list string * list string) :=
  '(ready_nodes, valid_nodes) ← readyNodes now r pattern;
  if (0 <? List.length nodes)%nat then
    let '(valid_nodes, _, invalid_nodes) :=
      fold_left (pickStep ready_nodes) nodes ([], ∅, []) in
    Some (valid_nodes, invalid_nodes)
  else Some (valid_nodes, []).

(** *** [StartJobOnNode] and [StartClusJob] *)

(** [sort.Strings]: increasing byte order. *)
Fixpoint insertString (x : string) (l : list string) : list string :=
  match l with
  | [] => [x]
  | y :: l' => if String.leb x y then x :: l else y :: insertString x l'
  end.

Definition SortStrings (l : list string) : list string := foldr insertString [] l.

(** [int32(id)] *)
Definition int32 (z : Z) : Z := (z + 2 ^ 31) mod 2 ^ 32 - 2 ^ 31.

(** The calls a job makes on the job store, on the client's reply stream and
    on the workers, in the order they are made. *)
Inductive Effect :=
| CreateNewJob (command sweep : string) (nodes : list string)
| Send (reply : StartClusJobReply)
| UpdateJobState (id : Z) (from to : JobState)
| StartJob (node : string) (id : Z) (command : string)
| UpdateFailedJob (id : Z) (failedNodes : gmap string Z)
| UpdateFinishedJob (id : Z).

(** What one worker does during a job: whether the output files could be
    created, whether the dial succeeded, whether [StartJob] returned a
    stream, the messages received, and whether the stream then ended with an
    error other than [io.EOF]. *)
Record NodeRun := {
  files_created : bool;
  connected : bool;
  started : bool;
  outputs : list StartJobReply;
  recv_failed : bool }.

(** What the job store and the reply stream answer during one request. *)
Record JobEnv := {
  created : Z + string;
  header_sent : option string;
  store_output : bool;
  runs : string -> NodeRun }.

Definition reply0 : StartClusJobReply :=
  {| JobId := 0; Nodes := []; Node := ""; Stdout := ""; Stderr := ""; ExitCode := 0 |}.

(** One received message, lines 358-389: the replies forwarded and the exit
    code kept. *)
Definition redirect (node : string) (output : StartJobReply) : list Effect :=
  (if negb (String.eqb (out_stdout output) "")
   then [Send {| JobId := 0; Nodes := []; Node := node;
                 Stdout := out_stdout output; Stderr := ""; ExitCode := 0 |}]
   else []) ++
  (if negb (String.eqb (out_stderr output) "")
   then [Send {| JobId := 0; Nodes := []; Node := node;
                 Stdout := ""; Stderr := out_stderr output; ExitCode := 0 |}]
   else []).

(** The receive loop up to the end of the messages: [exit_code] and the
    replies forwarded so far. *)
Definition receive (node : string) (outputs : list StartJobReply) : Z * list Effect :=
  fold_left
    (fun '(exit_code, sent) output => (out_exit_code output, sent ++ redirect node output))
    outputs (-1, []).

Definition StartJobOnNode (id : Z) (command node : string)
    (job_on_nodes : gmap string jobOnNode) (save_output : bool) (run : NodeRun)
  : gmap string jobOnNode * list Effect :=
  if save_output && negb (files_created run) then (job_on_nodes, [])
  else
    let job_on_nodes :=
      <[node := {| state := JobState_Dispatching; exitCode := 0 |}]> job_on_nodes in
    if negb (connected run) then (job_on_nodes, [])
    else
      let call := StartJob node (int32 id) command in
      if negb (started run) then
        (<[node := {| state := JobState_Failed; exitCode := 0 |}]> job_on_nodes, [call])
      else
        let job_on_nodes :=
          <[node := {| state := JobState_Running; exitCode := 0 |}]> job_on_nodes in
        let '(exit_code, sent) := receive node (outputs run) in
        if recv_failed run then (job_on_nodes, call :: sent)
        else
          let sent :=
            sent ++ [Send {| JobId := 0; Nodes := []; Node := node;
                             Stdout := ""; Stderr := ""; ExitCode := exit_code |}] in
          if exit_code =? 0 then
            (<[node := {| state := JobState_Finished; exitCode := 0 |}]> job_on_nodes,
             call :: sent)
          else
            (<[node := {| state := JobState_Failed; exitCode := exit_code |}]> job_on_nodes,
             call :: sent).

Inductive StartError :=
| InvalidNodes (invalid_nodes : list string)
| NoValidNodes
| PlaceholderNotInCommand (placeholder command : string)
| CreateFailed (err : string)
| SendFailed (err : string).

(** How the RPC ends: with the error returned ([None] is [nil]), or in a
    panic. *)
Inductive RpcResult :=
| Returned (err : option StartError)
| Panicked.

(** The command of the [i]-th node, lines 161-164. *)
Definition nodeCommand (command sweep placeholder : string) (sweepSequence : list Z)
    (i : nat) : string :=
  if (0 <? Go.len sweep)%nat
  then ReplaceAll command placeholder (Go.Itoa (nth i sweepSequence 0))
  else command.

(** Lines 157-168: one handler per node.  Each handler stores only under its
    own node, so the map after [wg.Wait()] is the same for every schedule;
    the handlers are run here one after the other, in the order of [nodes]. *)
Definition dispatch (env : JobEnv) (id : Z) (command sweep placeholder : string)
    (sweepSequence : list Z) (nodes : list string)
  : gmap string jobOnNode * list Effect :=
  fold_left
    (fun '(job_on_nodes, sent) '(i, node) =>
       let c := nodeCommand command sweep placeholder sweepSequence i in
       let '(job_on_nodes, effects) :=
         StartJobOnNode id c node job_on_nodes (store_output env) (runs env node) in
       (job_on_nodes, sent ++ effects))
    (zip (seq 0 (List.length nodes)) nodes) (∅, []).

(** Lines 171-179: the nodes recorded as failed, with their exit codes. *)
Definition failedNodesOf (job_on_nodes : gmap string jobOnNode) : gmap string Z :=
  omap (fun j => if bool_decide (state j = JobState_Failed) then Some (exitCode j) else None)
       job_on_nodes.

(** Lines 180-184. *)
Definition updateJob (id : Z) (failedNodes : gmap string Z) : Effect :=
  if (0 <? size failedNodes)%nat then UpdateFailedJob id failedNodes
  else UpdateFinishedJob id.

Definition StartClusJob (now : Z) (r : Registry) (env : JobEnv)
    (command : string) (nodes : list string) (pattern sweep : string)
  : RpcResult * list Effect :=
  match GetValidNodes now r nodes pattern with
  | None => (Panicked, [])
  | Some (nodes, invalid_nodes) =>
      let nodes := SortStrings nodes in
      let invalid_nodes := SortStrings invalid_nodes in
      if (0 <? List.length invalid_nodes)%nat then
        (Returned (Some (InvalidNodes invalid_nodes)), [])
      else if (List.length nodes =? 0)%nat then
        (Returned (Some NoValidNodes), [])
      else
        let '(placeholder, sweepSequence) := parseSweep sweep (List.length nodes) in
        if negb (Go.Contains command placeholder) then
          (Returned (Some (PlaceholderNotInCommand placeholder command)), [])
        else
          match created env with
          | inr err => (Returned (Some (CreateFailed err)), [CreateNewJob command sweep nodes])
          | inl id =>
              let header :=
                {| JobId := int32 id; Nodes := nodes; Node := "";
                   Stdout := ""; Stderr := ""; ExitCode := 0 |} in
              match header_sent env with
              | Some err =>
                  (Returned (Some (SendFailed err)),
                   [CreateNewJob command sweep nodes; Send header])
              | None =>
                  let '(job_on_nodes, effects) :=
                    dispatch env id command sweep placeholder sweepSequence nodes in
                  (Returned None,
                   [CreateNewJob command sweep nodes; Send header;
                    UpdateJobState id JobState_Created JobState_Dispatching;
                    UpdateJobState id JobState_Dispatching JobState_Running]
                   ++ effects ++ [updateJob id (failedNodesOf job_on_nodes)])
              end
          end
  end.

(** ** Properties of [parseSweep] *)

(** The terms the loop stores, from the running value [n]. *)
Fixpoint sweepTerms (begin end_ step n : Z) (count : nat) : list Z :=
  match count with
  | O => []
  | S count => n :: sweepTerms begin end_ step (nextTerm begin end_ step n) count
  end.

Lemma sweepTerms_length b e s n count : List.length (sweepTerms b e s n count) = count.
Proof. revert n. induction count as [|count IH]; intros n; simpl; [done | by rewrite IH]. Qed.

Lemma indices_length count : List.length (indices count) = count.
Proof. unfold indices. by rewrite length_fmap, length_seq. Qed.

Lemma sweepLoop_fold b e s k :
  forall start (sequence : list Z) n,
    (start + k <= List.length sequence)%nat ->
    fst (fold_left
           (fun '(sequence, n) i => (<[i := n]> sequence, nextTerm b e s n))
           (seq start k) (sequence, n))
    = take start sequence ++ sweepTerms b e s n k ++ drop (start + k) sequence.
Proof.
  induction k as [|k IH]; intros start sequence n Hlen; simpl.
  - rewrite Nat.add_0_r. by rewrite take_drop.
  - rewrite IH by (rewrite length_insert; lia).
    destruct (lookup_lt_is_Some_2 sequence start) as [x Hx]; [lia |].
    rewrite drop_insert_lt by lia.
    replace (S start + k)%nat with (start + S k)%nat by lia.
    rewrite (take_S_r _ _ n) by (apply list_lookup_insert_eq; lia).
    rewrite take_insert_ge by lia.
    by rewrite <- app_assoc.
Qed.

Lemma sweepLoop_terms b e s (sequence : list Z) :
  sweepLoop b e s sequence = sweepTerms b e s b (List.length sequence).
Proof.
  unfold sweepLoop. rewrite sweepLoop_fold by lia. simpl.
  rewrite drop_all. by rewrite app_nil_r.
Qed.

Lemma sweepTerms_lookup_0 b e s n count :
  (0 < count)%nat -> sweepTerms b e s n count !! 0%nat = Some n.
Proof. destruct count; [lia | done]. Qed.

Lemma sweepTerms_lookup_S b e s count :
  forall n i x,
    sweepTerms b e s n count !! i = Some x -> (S i < count)%nat ->
    sweepTerms b e s n count !! S i = Some (nextTerm b e s x).
Proof.
  induction count as [|count IH]; intros n i x Hx Hi; [lia |].
  destruct i as [|i]; simpl in *.
  - injection Hx as <-. destruct count; [lia | done].
  - apply IH; [done | lia].
Qed.

Lemma wrap_in_int z : Go.in_int z = true -> Go.wrap z = z.
Proof.
  unfold Go.in_int, Go.wrap, Go.MinInt64, Go.MaxInt64. intros H.
  apply andb_true_iff in H as [H1 H2]. apply Z.leb_le in H1, H2.
  rewrite Z.mod_small; lia.
Qed.

Lemma nextTerm_in_int b e s n :
  Go.in_int (n + s) = true ->
  nextTerm b e s n =
  if (s >? 0) && (n + s >? e) || (s <? 0) && (n + s <? e) then b else n + s.
Proof. intros H. unfold nextTerm. by rewrite (wrap_in_int _ H). Qed.

(** A sweep whose terms come back to [begin] after [p] steps. *)
Lemma sweepTerms_cycle b e s p :
  0 < p ->
  (forall j, 0 <= j < p -> nextTerm b e s (b + s * j) = b + s * ((j + 1) mod p)) ->
  forall count j, 0 <= j < p ->
    sweepTerms b e s (b + s * j) count
    = (fun i => b + s * ((j + Z.of_nat i) mod p)) <$> seq 0 count.
Proof.
  intros Hp Hnext. induction count as [|count IH]; intros j Hj; [done |].
  simpl. f_equal.
  - rewrite Z.add_0_r, Z.mod_small; [done | lia].
  - rewrite Hnext by done.
    rewrite IH by (apply Z.mod_pos_bound; lia).
    rewrite <- fmap_S_seq, <- list_fmap_compose.
    apply list_fmap_ext. intros _ i _. simpl.
    rewrite Zplus_mod_idemp_l. do 3 f_equal. lia.
Qed.

Lemma parseSweep_up count :
  snd (parseSweep "x{1-3}" count) = (fun i => 1 + Z.of_nat i mod 3) <$> seq 0 count.
Proof.
  unfold parseSweep.
  replace (parseSweepFields "x{1-3}") with (Some ("x"%string, 1, 3, 0)) by (vm_compute; reflexivity).
  change (defaultStep 1 3 0) with 1. simpl snd.
  rewrite sweepLoop_terms, indices_length.
  change (sweepTerms 1 3 1 1 count) with (sweepTerms 1 3 1 (1 + 1 * 0) count).
  rewrite (sweepTerms_cycle 1 3 1 3 ltac:(lia)
             ltac:(intros j Hj; assert (j = 0 \/ j = 1 \/ j = 2) as [-> | [-> | ->]] by lia;
                   vm_compute; reflexivity) count 0 ltac:(lia)).
  apply list_fmap_ext. intros _ i _. cbv beta. rewrite Z.add_0_l. lia.
Qed.

Lemma parseSweep_down count :
  snd (parseSweep "x{5--1}" count) = (fun i => 5 - Z.of_nat i mod 7) <$> seq 0 count.
Proof.
  unfold parseSweep.
  replace (parseSweepFields "x{5--1}") with (Some ("x"%string, 5, -1, 0)) by (vm_compute; reflexivity).
  change (defaultStep 5 (-1) 0) with (-1). simpl snd.
  rewrite sweepLoop_terms, indices_length.
  change (sweepTerms 5 (-1) (-1) 5 count) with (sweepTerms 5 (-1) (-1) (5 + -1 * 0) count).
  rewrite (sweepTerms_cycle 5 (-1) (-1) 7 ltac:(lia)
             ltac:(intros j Hj;
                   assert (j = 0 \/ j = 1 \/ j = 2 \/ j = 3 \/ j = 4 \/ j = 5 \/ j = 6)
                     as [-> | [-> | [-> | [-> | [-> | [-> | ->]]]]]] by lia;
                   vm_compute; reflexivity) count 0 ltac:(lia)).
  apply list_fmap_ext. intros _ i _. cbv beta. rewrite Z.add_0_l. lia.
Qed.

(** C2. For every sweep string and every node count, [parseSweep] returns a
    sequence of exactly [count] integers: the index sequence when the sweep
    does not parse, the overwritten one when it does. *)
Theorem parseSweep_length sweep count :
  List.length (snd (parseSweep sweep count)) = count.
Proof.
  unfold parseSweep.
  destruct (parseSweepFields sweep) as [[[[placeholder b] e] s]|]; simpl.
  - by rewrite sweepLoop_terms, sweepTerms_length, indices_length.
  - apply indices_length.
Qed.

(** C3, as amended.  For a sweep that parses to [begin], [end] and a nonzero
    resolved step, the sequence has [count] terms, starts at [begin], and the
    term after [n] is [n + step], or [begin] when [n + step] is strictly
    beyond [end] in the direction of the step, as long as [n + step] is
    within the range of Go's [int].  The sweep [x{1-3}] gives 1,2,3,1,2,3,...
    and [x{5--1}] gives 5,4,3,2,1,0,-1,5,..., cut to [count] terms. *)
Theorem parseSweep_sequence sweep count placeholder begin end_ step0 :
  parseSweepFields sweep = Some (placeholder, begin, end_, step0) ->
  let step := defaultStep begin end_ step0 in
  step <> 0 ->
  let sequence := snd (parseSweep sweep count) in
  fst (parseSweep sweep count) = placeholder /\
  List.length sequence = count /\
  ((0 < count)%nat -> sequence !! 0%nat = Some begin) /\
  (forall i n,
      sequence !! i = Some n -> (S i < count)%nat -> Go.in_int (n + step) = true ->
      sequence !! S i =
      Some (if (step >? 0) && (n + step >? end_) || (step <? 0) && (n + step <? end_)
            then begin else n + step)) /\
  (forall N, snd (parseSweep "x{1-3}" N) = (fun i => 1 + Z.of_nat i mod 3) <$> seq 0 N) /\
  (forall N, snd (parseSweep "x{5--1}" N) = (fun i => 5 - Z.of_nat i mod 7) <$> seq 0 N).
Proof.
  intros Hparse step _ sequence.
  assert (Hseq : sequence = sweepTerms begin end_ step begin count).
  { subst sequence. unfold parseSweep. rewrite Hparse. simpl.
    by rewrite sweepLoop_terms, indices_length. }
  split; [unfold parseSweep; by rewrite Hparse |].
  split; [apply parseSweep_length |].
  split; [intros Hc; rewrite Hseq; by apply sweepTerms_lookup_0 |].
  split; [| split; [apply parseSweep_up | apply parseSweep_down]].
  intros i n Hi Hlt Hrange. rewrite Hseq in Hi |- *.
  rewrite (sweepTerms_lookup_S _ _ _ _ _ _ _ Hi Hlt).
  by rewrite nextTerm_in_int.
Qed.

(** *** The sweeps that do not parse *)

(** The text between the braces, for the opening brace at [index]. *)
Definition sweepBody (sweep : string) (index : nat) : string :=
  Go.slice sweep (index + 1) (Go.len sweep - 1).

(** The texts read as [begin] and [end] in each supported shape of the
    dash-separated pieces: [B], [-B], [B-E], [-B-E], [B--E], and four pieces
    of which the first or the third is empty. *)
Definition rangeFields (pieces : list string) : option (list string) :=
  let empty s := (Go.len s =? 0)%nat in
  match pieces with
  | [p0] => Some [p0]
  | [p0; p1] => if empty p0 then Some ["-" +:+ p1] else Some [p0; p1]
  | [p0; p1; p2] =>
      if empty p0 then Some ["-" +:+ p1; p2]
      else if empty p1 then Some [p0; "-" +:+ p2]
      else None
  | [p0; p1; p2; p3] =>
      if empty p0 || empty p2 then Some ["-" +:+ p1; "-" +:+ p3] else None
  | _ => None
  end.

(** The ways a sweep fails to parse. *)
Inductive sweepFailure (sweep : string) : Prop :=
| no_closing_brace :
    (forall p, sweep <> p +:+ "}") -> sweepFailure sweep
| no_opening_brace :
    Go.LastIndex sweep "{" = None -> sweepFailure sweep
| empty_placeholder :
    Go.LastIndex sweep "{" = Some 0%nat -> sweepFailure sweep
| too_many_fields index :
    Go.LastIndex sweep "{" = Some index ->
    (2 < List.length (Go.Split (sweepBody sweep index) ","))%nat ->
    sweepFailure sweep
| step_not_integer index range_ step_ :
    Go.LastIndex sweep "{" = Some index ->
    Go.Split (sweepBody sweep index) "," = [range_; step_] ->
    Go.Atoi step_ = None ->
    sweepFailure sweep
| step_zero index range_ step_ :
    Go.LastIndex sweep "{" = Some index ->
    Go.Split (sweepBody sweep index) "," = [range_; step_] ->
    Go.Atoi step_ = Some 0 ->
    sweepFailure sweep
| unsupported_shape index range_ rest :
    Go.LastIndex sweep "{" = Some index ->
    Go.Split (sweepBody sweep index) "," = range_ :: rest ->
    rangeFields (Go.Split range_ "-") = None ->
    sweepFailure sweep
| field_not_integer index range_ rest fields field :
    Go.LastIndex sweep "{" = Some index ->
    Go.Split (sweepBody sweep index) "," = range_ :: rest ->
    rangeFields (Go.Split range_ "-") = Some fields ->
    field ∈ fields ->
    Go.Atoi field = None ->
    sweepFailure sweep.

Lemma len_0 s : (Go.len s =? 0)%nat = true <-> s = ""%string.
Proof. destruct s; simpl; split; intros H; done. Qed.

Lemma parseRange_unsupported pieces e :
  rangeFields pieces = None -> parseRange pieces e = None.
Proof.
  unfold rangeFields, parseRange.
  destruct pieces as [|p0 [|p1 [|p2 [|p3 [|p4 ps]]]]]; try done.
  - by destruct (Go.len p0 =? 0)%nat.
  - by destruct (Go.len p0 =? 0)%nat, (Go.len p1 =? 0)%nat.
  - by destruct (Go.len p0 =? 0)%nat, (Go.len p2 =? 0)%nat.
Qed.

Lemma Atoi_bind_None {A} field (k : Z -> option A) :
  Go.Atoi field = None -> Go.Atoi field ≫= k = None.
Proof. by intros ->. Qed.

Lemma Atoi_bind2_None {A} t field (k : Z -> Z -> option A) :
  Go.Atoi field = None -> (Go.Atoi t ≫= fun b => Go.Atoi field ≫= k b) = None.
Proof. intros ->. by destruct (Go.Atoi t). Qed.

Lemma parseRange_field pieces e fields field :
  rangeFields pieces = Some fields -> field ∈ fields -> Go.Atoi field = None ->
  parseRange pieces e = None.
Proof.
  unfold rangeFields, parseRange. intros Hf Hin Hnone.
  destruct pieces as [|p0 [|p1 [|p2 [|p3 [|p4 ps]]]]]; try done.
  - injection Hf as <-. apply list_elem_of_singleton in Hin as ->.
    by apply Atoi_bind_None.
  - destruct (Go.len p0 =? 0)%nat; injection Hf as <-.
    + apply list_elem_of_singleton in Hin as ->. by apply Atoi_bind_None.
    + apply elem_of_cons in Hin as [-> | Hin]; [by apply Atoi_bind_None |].
      apply list_elem_of_singleton in Hin as ->. by apply Atoi_bind2_None.
  - destruct (Go.len p0 =? 0)%nat; [| destruct (Go.len p1 =? 0)%nat; [| done]];
      injection Hf as <-;
      (apply elem_of_cons in Hin as [-> | Hin]; [by apply Atoi_bind_None |]);
      apply list_elem_of_singleton in Hin as ->; by apply Atoi_bind2_None.
  - destruct ((Go.len p0 =? 0)%nat || (Go.len p2 =? 0)%nat); [| done].
    injection Hf as <-.
    apply elem_of_cons in Hin as [-> | Hin]; [by apply Atoi_bind_None |].
    apply list_elem_of_singleton in Hin as ->. by apply Atoi_bind2_None.
Qed.

Lemma Atoi_bind2_inv t u :
  (Go.Atoi t ≫= fun b => Go.Atoi u ≫= fun e => Some (b, e)) = None ->
  exists field, field ∈ [t; u] /\ Go.Atoi field = None.
Proof.
  destruct (Go.Atoi t) eqn:Ht; simpl.
  - destruct (Go.Atoi u) eqn:Hu; [done |]. exists u. split; [set_solver | done].
  - exists t. split; [set_solver | done].
Qed.

Lemma Atoi_bind_inv t (e : Z) :
  (Go.Atoi t ≫= fun b => Some (b, e)) = None ->
  exists field, field ∈ [t] /\ Go.Atoi field = None.
Proof.
  destruct (Go.Atoi t) eqn:Ht; [done |]. exists t. split; [set_solver | done].
Qed.

Lemma parseRange_None pieces e :
  parseRange pieces e = None ->
  rangeFields pieces = None \/
  exists fields field,
    rangeFields pieces = Some fields /\ field ∈ fields /\ Go.Atoi field = None.
Proof.
  unfold rangeFields, parseRange. intros H.
  destruct pieces as [|p0 [|p1 [|p2 [|p3 [|p4 ps]]]]]; try by left.
  - right. apply Atoi_bind_inv in H as (f & ? & ?). by exists [p0], f.
  - right. destruct (Go.len p0 =? 0)%nat.
    + apply Atoi_bind_inv in H as (f & ? & ?). by eexists _, f.
    + apply Atoi_bind2_inv in H as (f & ? & ?). by eexists _, f.
  - destruct (Go.len p0 =? 0)%nat; [| destruct (Go.len p1 =? 0)%nat; [| by left]];
      right; apply Atoi_bind2_inv in H as (f & ? & ?); by eexists _, f.
  - destruct ((Go.len p0 =? 0)%nat || (Go.len p2 =? 0)%nat); [| by left].
    right. apply Atoi_bind2_inv in H as (f & ? & ?). by eexists _, f.
Qed.

(** Byte strings: slices, the last byte, the pieces of a split. *)

Lemma substring_0_0 s : substring 0 0 s = ""%string.
Proof. by destruct s. Qed.

Lemma append_nil_l s : "" +:+ s = s.
Proof. reflexivity. Qed.

Lemma append_cons c s t : String c s +:+ t = String c (s +:+ t).
Proof. reflexivity. Qed.

Lemma substring_split s :
  forall n, (n <= String.length s)%nat ->
    substring 0 n s +:+ substring n (String.length s - n) s = s.
Proof.
  induction s as [|c s IH]; intros [|n] Hn; simpl in *; try done; try lia.
  - rewrite append_nil_l. f_equal. specialize (IH 0%nat ltac:(lia)).
    rewrite substring_0_0, append_nil_l, Nat.sub_0_r in IH. exact IH.
  - rewrite append_cons. f_equal. apply IH. lia.
Qed.

Lemma substring_0_length s :
  forall n, (n <= String.length s)%nat -> String.length (substring 0 n s) = n.
Proof.
  induction s as [|c s IH]; intros [|n] Hn; simpl in *; try done; try lia.
  f_equal. apply IH. lia.
Qed.

Lemma append_length (s t : string) :
  String.length (s +:+ t) = (String.length s + String.length t)%nat.
Proof.
  induction s as [|c s IH]; [done |]. rewrite append_cons. simpl. by rewrite IH.
Qed.

Lemma last_byte_append p (c : ascii) :
  Go.slice (p +:+ String c "") (Go.len (p +:+ String c "") - 1) (Go.len (p +:+ String c ""))
  = String c "".
Proof.
  unfold Go.slice, Go.len. rewrite append_length. simpl.
  replace (String.length p + 1 - 1)%nat with (String.length p) by lia.
  replace (String.length p + 1 - String.length p)%nat with 1%nat by lia.
  induction p as [|a p IH]; [done |]. rewrite append_cons. simpl. exact IH.
Qed.

Lemma closing_brace sweep :
  String.eqb (Go.slice sweep (Go.len sweep - 1) (Go.len sweep)) "}" = true <->
  exists p, sweep = p +:+ "}".
Proof.
  split.
  - intros H. apply String.eqb_eq in H.
    destruct sweep as [|c s]; [done |].
    exists (substring 0 (Go.len (String c s) - 1) (String c s)).
    pose proof (substring_split (String c s) (Go.len (String c s) - 1)
                  ltac:(unfold Go.len; lia)) as Hs.
    unfold Go.slice, Go.len in *. rewrite H in Hs. symmetry. exact Hs.
  - intros [p ->]. rewrite last_byte_append. apply String.eqb_refl.
Qed.

Lemma Split_nonempty s sep : Go.Split s sep <> [].
Proof. destruct s as [|c s]; simpl; [done |]. destruct (Ascii.eqb c sep), (Go.Split s sep); done. Qed.

Lemma LastIndex_lt s sep index :
  Go.LastIndex s sep = Some index -> (index < String.length s)%nat.
Proof.
  revert index. induction s as [|c s IH]; intros index; simpl; [done |].
  destruct (Go.LastIndex s sep) as [i|].
  - intros [= <-]. specialize (IH i eq_refl). lia.
  - destruct (Ascii.eqb c sep); [| done]. intros [= <-]. lia.
Qed.

(** The sweeps described by [sweepFailure] are those on which the parsing
    part gives up. *)
Lemma sweepFailure_parse sweep : sweepFailure sweep -> parseSweepFields sweep = None.
Proof.
  intros Hfail. unfold parseSweepFields.
  destruct (Go.len sweep =? 0)%nat eqn:Hlen; [done |].
  destruct (String.eqb (Go.slice sweep (Go.len sweep - 1) (Go.len sweep)) "}") eqn:Hclose;
    [| done].
  simpl negb. cbv iota.
  destruct Hfail as [Hno | Hidx | Hidx | index Hidx Hmany | index r st Hidx Hparts Hst
                    | index r st Hidx Hparts Hst | index r rest Hidx Hparts Hshape
                    | index r rest fields field Hidx Hparts Hfields Hin Hfield].
  - apply closing_brace in Hclose as [p ->]. by destruct (Hno p).
  - by rewrite Hidx.
  - rewrite Hidx. unfold Go.slice. by rewrite substring_0_0.
  - rewrite Hidx. destruct (Go.len (Go.slice sweep 0 index) =? 0)%nat; [done |].
    fold (sweepBody sweep index).
    apply Nat.ltb_lt in Hmany. by rewrite Hmany.
  - rewrite Hidx. destruct (Go.len (Go.slice sweep 0 index) =? 0)%nat; [done |].
    fold (sweepBody sweep index). rewrite Hparts. simpl. by rewrite Hst.
  - rewrite Hidx. destruct (Go.len (Go.slice sweep 0 index) =? 0)%nat; [done |].
    fold (sweepBody sweep index). rewrite Hparts. simpl. by rewrite Hst.
  - rewrite Hidx. destruct (Go.len (Go.slice sweep 0 index) =? 0)%nat; [done |].
    fold (sweepBody sweep index). rewrite Hparts.
    destruct (2 <? List.length (r :: rest))%nat; [done |].
    destruct (parseStep (r :: rest)) as [[e s]|]; [| done]. simpl.
    by rewrite parseRange_unsupported.
  - rewrite Hidx. destruct (Go.len (Go.slice sweep 0 index) =? 0)%nat; [done |].
    fold (sweepBody sweep index). rewrite Hparts.
    destruct (2 <? List.length (r :: rest))%nat; [done |].
    destruct (parseStep (r :: rest)) as [[e s]|]; [| done]. simpl.
    by rewrite (parseRange_field _ _ _ _ Hfields Hin Hfield).
Qed.

(** Conversely, a sweep on which the parsing part gives up fails in one of
    the listed ways. *)
Lemma parse_sweepFailure sweep : parseSweepFields sweep = None -> sweepFailure sweep.
Proof.
  unfold parseSweepFields.
  destruct (Go.len sweep =? 0)%nat eqn:Hlen.
  { intros _. apply len_0 in Hlen as ->. apply no_closing_brace.
    intros p H. apply (f_equal String.length) in H.
    rewrite append_length in H. simpl in H. lia. }
  destruct (String.eqb (Go.slice sweep (Go.len sweep - 1) (Go.len sweep)) "}") eqn:Hclose.
  2:{ intros _. apply no_closing_brace. intros p ->.
      rewrite (last_byte_append p "}") in Hclose. done. }
  simpl negb. cbv iota.
  destruct (Go.LastIndex sweep "{") as [index|] eqn:Hidx; [| intros _; by apply no_opening_brace].
  destruct (Go.len (Go.slice sweep 0 index) =? 0)%nat eqn:Hph.
  { intros _. apply Nat.eqb_eq in Hph. unfold Go.len, Go.slice in Hph.
    apply LastIndex_lt in Hidx as Hlt.
    rewrite Nat.sub_0_r, substring_0_length in Hph by lia. subst index.
    by apply empty_placeholder. }
  fold (sweepBody sweep index).
  destruct (2 <? List.length (Go.Split (sweepBody sweep index) ","))%nat eqn:Hmany.
  { intros _. apply Nat.ltb_lt in Hmany. by eapply too_many_fields. }
  apply Nat.ltb_ge in Hmany.
  destruct (Go.Split (sweepBody sweep index) ",") as [|r [|st [|x rest]]] eqn:Hparts;
    [by destruct (Split_nonempty (sweepBody sweep index) ",") | | | simpl in Hmany; lia].
  - simpl. intros H.
    destruct (parseRange (Go.Split r "-") Max_Int) as [[b e]|] eqn:Hrange; [done |].
    apply parseRange_None in Hrange as [Hshape | (fields & field & Hf & Hin & Hnone)].
    + by eapply unsupported_shape.
    + by eapply field_not_integer.
  - simpl. destruct (Go.Atoi st) as [s|] eqn:Hst; [| intros _; by eapply step_not_integer].
    simpl. destruct (s =? 0) eqn:Hs.
    { intros _. apply Z.eqb_eq in Hs as ->. by eapply step_zero. }
    simpl. intros H.
    destruct (parseRange (Go.Split r "-") (if s <? 0 then Min_Int else Max_Int))
      as [[b e]|] eqn:Hrange; [done |].
    apply parseRange_None in Hrange as [Hshape | (fields & field & Hf & Hin & Hnone)].
    + by eapply unsupported_shape.
    + by eapply field_not_integer.
Qed.

(** C4. For every sweep string that fails to parse (no closing brace, no
    opening brace or nothing before it, a step or a range field that is not
    an integer, an explicit step of 0, more than two comma-separated fields,
    an unsupported shape of the dash-separated pieces) and every node count,
    [parseSweep] returns the whole sweep string as the placeholder and the
    index sequence 0, 1, ..., count-1. *)
Theorem parseSweep_failure sweep count :
  sweepFailure sweep ->
  parseSweep sweep count = (sweep, Z.of_nat <$> seq 0 count).
Proof.
  intros Hfail. unfold parseSweep. by rewrite (sweepFailure_parse _ Hfail).
Qed.

(** ** Properties of the registry and of the validator *)

Lemma Range_lookup (m : gmap string Z) k v : (k, v) ∈ Range m <-> m !! k = Some v.
Proof using Range_spec. rewrite (Range_spec m). apply elem_of_map_to_list. Qed.

Lemma Range_NoDup (m : gmap string Z) : NoDup (Range m).*1.
Proof using Range_spec. rewrite (Range_spec m). apply NoDup_fst_map_to_list. Qed.

Lemma Since_exact now t : Go.in_int (now - t) = true -> Since now t = now - t.
Proof.
  unfold Go.in_int, Since. intros H.
  apply andb_true_iff in H as [H1 H2]. apply Z.leb_le in H1, H2. lia.
Qed.

Lemma HeartbeatTimeoutDuration_exact :
  Go.in_int (HeartbeatTimeoutSecond * Second) = true ->
  HeartbeatTimeoutDuration = HeartbeatTimeoutSecond * Second.
Proof. apply wrap_in_int. Qed.

Lemma HeartbeatTimeout_true now t :
  HeartbeatTimeout now t = true <-> Since now t > HeartbeatTimeoutDuration.
Proof. unfold HeartbeatTimeout. rewrite Z.gtb_gt. lia. Qed.

Lemma HeartbeatTimeout_false now t :
  HeartbeatTimeout now t = false <-> Since now t <= HeartbeatTimeoutDuration.
Proof.
  unfold HeartbeatTimeout. destruct (Z.gtb_spec (Since now t) HeartbeatTimeoutDuration);
    split; intros; try done; lia.
Qed.

(** The entry [GetNodes] appends for one registry entry, if any. *)
Definition reported (now : Z) (r : Registry) (pattern : string) (state : NodeState)
    (entry : string * Z) : option GetNodesReply_Node :=
  if fst (MatchString pattern entry.1) then
    let node_state := nodeState now r entry.1 entry.2 in
    if bool_decide (state = NodeState_Unknown) || bool_decide (state = node_state)
    then Some {| Name := entry.1; State := node_state |}
    else None
  else None.

Lemma GetNodes_fold now r pattern state (l : list (string * Z)) :
  forall nodes,
    fold_left
      (fun nodes '(nodename, last_report) =>
         if negb (fst (MatchString pattern nodename)) then nodes
         else
           let node_state := nodeState now r nodename last_report in
           if bool_decide (state = NodeState_Unknown) || bool_decide (state = node_state)
           then nodes ++ [{| Name := nodename; State := node_state |}]
           else nodes)
      l nodes
    = nodes ++ omap (reported now r pattern state) l.
Proof.
  induction l as [|[nodename last_report] l IH]; intros nodes; simpl.
  - by rewrite app_nil_r.
  - rewrite IH. unfold reported at 2. simpl.
    destruct (fst (MatchString pattern nodename)); simpl; [| done].
    destruct (bool_decide (state = NodeState_Unknown)
              || bool_decide (state = nodeState now r nodename last_report)); [| done].
    by rewrite <- app_assoc.
Qed.

Lemma GetNodes_reported now r pattern state :
  fst (GetNodes now r pattern state)
  = omap (reported now r pattern state) (Range (reportedTime r)).
Proof. unfold GetNodes. simpl. by rewrite GetNodes_fold. Qed.

(** With a timeout whose nanoseconds fit an [int64], [HeartbeatTimeout]
    compares the time elapsed with the timeout in seconds: the saturation of
    [time.Since] cannot change the answer, as the timeout in nanoseconds is a
    multiple of 10^9 and the largest duration is not. *)
Lemma HeartbeatTimeout_elapsed now t :
  Go.MinInt64 <= HeartbeatTimeoutSecond * 1000000000 <= Go.MaxInt64 ->
  HeartbeatTimeout now t = true <-> now - t > HeartbeatTimeoutSecond * 1000000000.
Proof.
  intros Hrange. rewrite HeartbeatTimeout_true.
  rewrite HeartbeatTimeoutDuration_exact.
  - unfold Since, Second, Go.MinInt64, Go.MaxInt64 in *. lia.
  - unfold Go.in_int, Second. apply andb_true_iff. split; apply Z.leb_le; lia.
Qed.

Lemma nodeState_cases now r nodename last_report :
  Go.MinInt64 <= HeartbeatTimeoutSecond * 1000000000 <= Go.MaxInt64 ->
  let st := nodeState now r nodename last_report in
  (st = NodeState_Lost <-> now - last_report > HeartbeatTimeoutSecond * 1000000000) /\
  (st = NodeState_Ready <->
   now - last_report <= HeartbeatTimeoutSecond * 1000000000 /\
   exists v, validateNumber r !! nodename = Some v /\ v < 0) /\
  (st = NodeState_Error <->
   now - last_report <= HeartbeatTimeoutSecond * 1000000000 /\
   forall v, validateNumber r !! nodename = Some v -> 0 <= v).
Proof.
  intros Hrange. pose proof (HeartbeatTimeout_elapsed now last_report Hrange) as Hlost.
  unfold nodeState.
  destruct (HeartbeatTimeout now last_report).
  - assert (now - last_report > HeartbeatTimeoutSecond * 1000000000) by by apply Hlost.
    repeat split; try done; intros [? ?]; lia.
  - assert (now - last_report <= HeartbeatTimeoutSecond * 1000000000).
    { destruct (Z_le_gt_dec (now - last_report) (HeartbeatTimeoutSecond * 1000000000))
        as [? | Hgt]; [done |]. by apply Hlost in Hgt. }
    destruct (validateNumber r !! nodename) as [number|].
    + destruct (Z.ltb_spec number 0).
      * repeat split; try done; try lia.
        -- by exists number.
        -- intros [_ Hv]. specialize (Hv number eq_refl). lia.
      * repeat split; try done; try lia.
        -- intros [_ (v & [= <-] & ?)]. lia.
        -- intros v [= <-]. lia.
    + repeat split; try done; try lia. by intros [_ (v & ? & _)].
Qed.

(** C8, as amended.  For every registered node, [GetNodes] reports the state
    [Lost] iff [now - last_report] exceeds the heartbeat timeout of
    [HeartbeatTimeoutSecond] seconds, provided the timeout in nanoseconds is
    within the range of a 64-bit integer; when the node is alive it reports
    [Ready] iff the node has a validation state and that state is negative,
    as the code tests, and [Error] otherwise, also when the node has no
    validation entry.  A registered node whose name matches the pattern is
    reported under the wildcard filter. *)
Theorem GetNodes_state now r pattern state :
  Go.MinInt64 <= HeartbeatTimeoutSecond * 1000000000 <= Go.MaxInt64 ->
  (forall node, node ∈ fst (GetNodes now r pattern state) ->
     exists last_report,
       reportedTime r !! Name node = Some last_report /\
       (State node = NodeState_Lost <->
        now - last_report > HeartbeatTimeoutSecond * 1000000000) /\
       (State node = NodeState_Ready <->
        now - last_report <= HeartbeatTimeoutSecond * 1000000000 /\
        exists v, validateNumber r !! Name node = Some v /\ v < 0) /\
       (State node = NodeState_Error <->
        now - last_report <= HeartbeatTimeoutSecond * 1000000000 /\
        forall v, validateNumber r !! Name node = Some v -> 0 <= v)) /\
  (forall nodename last_report,
     reportedTime r !! nodename = Some last_report ->
     fst (MatchString pattern nodename) = true ->
     exists st, {| Name := nodename; State := st |}
                ∈ fst (GetNodes now r pattern NodeState_Unknown)) /\
  snd (GetNodes now r pattern state) = None.
Proof using Range_spec.
  intros Hrange. rewrite !GetNodes_reported.
  split; [| split; [| done]].
  - intros node Hin. apply list_elem_of_omap in Hin as ([n t] & Hentry & Hrep).
    apply Range_lookup in Hentry. unfold reported in Hrep. simpl in Hrep.
    destruct (fst (MatchString pattern n)); [| done].
    destruct (bool_decide (state = NodeState_Unknown)
              || bool_decide (state = nodeState now r n t)); [| done].
    injection Hrep as <-. simpl. exists t. split; [done |].
    by apply nodeState_cases.
  - intros nodename last_report Hreg Hmatch.
    exists (nodeState now r nodename last_report).
    apply list_elem_of_omap. exists (nodename, last_report).
    split; [by apply Range_lookup |].
    unfold reported. simpl. by rewrite Hmatch.
Qed.

(** [Validate] touches only the entry of its own node. *)
Lemma Validate_other display_name nodename host outcome (vn : gmap string Z) other :
  other <> display_name ->
  Validate display_name nodename host outcome vn !! other = vn !! other.
Proof.
  intros Hne. unfold Validate, ValidateBegin, ValidateEnd.
  destruct (vn !! display_name) as [number|]; simpl.
  - destruct (number >? 0); [| done].
    destruct outcome as [| |reply]; [| | destruct (negb _)];
      by rewrite !lookup_insert_ne.
  - destruct outcome as [| |reply]; [| | destruct (negb _)];
      by rewrite !lookup_insert_ne.
Qed.

(** Validation states stay at -1 or above, short of 2^63 failures in a row. *)
Lemma Validate_legal display_name nodename host outcome (vn : gmap string Z) :
  (forall n v, vn !! n = Some v -> -1 <= v < Go.MaxInt64) ->
  forall n v, Validate display_name nodename host outcome vn !! n = Some v -> -1 <= v.
Proof.
  intros Hlegal n v.
  destruct (decide (n = display_name)) as [-> | Hne].
  2:{ rewrite Validate_other by done. intros H. apply Hlegal in H. lia. }
  unfold Validate, ValidateBegin, ValidateEnd.
  destruct (vn !! display_name) as [number|] eqn:Hn; simpl.
  - pose proof (Hlegal _ _ Hn) as Hrange.
    assert (Hwrap : Go.wrap (number + 1) = number + 1).
    { apply wrap_in_int. unfold Go.in_int, Go.MinInt64, Go.MaxInt64 in *.
      apply andb_true_iff. split; apply Z.leb_le; lia. }
    destruct (Z.gtb_spec number 0); simpl.
    + destruct outcome as [| |reply]; [| | destruct (negb _)];
        rewrite lookup_insert_eq; intros [= <-]; lia.
    + intros Hv. rewrite Hn in Hv. injection Hv as <-. lia.
  - destruct outcome as [| |reply]; [| | destruct (negb _)];
      rewrite lookup_insert_eq; intros [= <-]; done.
Qed.

(** A heartbeat from a node that had timed out drops its validation entry,
    so that the run of [Validate] it starts validates at once. *)
Lemma Heartbeat_reconnect now r nodename host r' display_name nodename' host' last_report :
  Heartbeat now r nodename host = (r', None, Some (display_name, nodename', host')) ->
  reportedTime r !! display_name = Some last_report ->
  HeartbeatTimeout now last_report = true ->
  validateNumber r' !! display_name = None /\
  reportedTime r' !! display_name = Some now /\
  ValidateBegin display_name (validateNumber r')
  = (<[display_name := 0]> (validateNumber r'), Some (0, None)).
Proof.
  unfold Heartbeat. intros H Hlast Hto.
  destruct (ContainsParen nodename); [done |].
  destruct (ParseHostAddress host) as [[[hostname port] h]|]; [| done].
  simplify_eq/=.
  rewrite Hlast, Hto, lookup_delete_eq, lookup_insert_eq.
  split; [done |]. split; [done |].
  unfold ValidateBegin. by rewrite lookup_delete_eq.
Qed.


(** ** Properties of node selection *)

Lemma insertString_perm x l : insertString x l ≡ₚ x :: l.
Proof.
  induction l as [|y l IH]; simpl; [done |].
  destruct (String.leb x y); [done |].
  rewrite IH. apply Permutation_swap.
Qed.

Lemma SortStrings_perm l : SortStrings l ≡ₚ l.
Proof.
  induction l as [|x l IH]; simpl; [done |].
  unfold SortStrings in *. simpl. by rewrite insertString_perm, IH.
Qed.

Lemma SortStrings_length l : List.length (SortStrings l) = List.length l.
Proof. by rewrite SortStrings_perm. Qed.

Lemma SortStrings_nil l : SortStrings l = [] <-> l = [].
Proof.
  split; [| by intros ->].
  intros H. apply length_zero_iff_nil. rewrite <- SortStrings_length, H. done.
Qed.

Lemma readyNodes_panic now r pattern (l : list (string * Z)) :
  fold_left (fun acc entry => acc ≫= fun acc => readyStep now r pattern acc entry) l None
  = None.
Proof. induction l as [|e l IH]; simpl; done. Qed.

(** The ready nodes are visited entries, in the order of the visit. *)
Lemma readyNodes_sublist now r pattern (l : list (string * Z)) :
  forall acc res,
    fold_left (fun acc entry => acc ≫= fun acc => readyStep now r pattern acc entry)
              l (Some acc) = Some res ->
    exists vs, res.2 = acc.2 ++ vs /\ vs `sublist_of` l.*1.
Proof.
  induction l as [|[node last_report] l IH]; intros [ready valid] res; simpl.
  - intros [= <-]. exists []. by rewrite app_nil_r.
  - assert (Hskip :
      fold_left (fun acc entry => acc ≫= fun acc => readyStep now r pattern acc entry)
                l (Some (ready, valid)) = Some res ->
      exists vs, res.2 = valid ++ vs /\ vs `sublist_of` node :: l.*1).
    { intros H. apply IH in H as (vs & ? & ?). exists vs. split; [done |].
      by apply sublist_cons. }
    destruct (validateNumber r !! node) as [number|]; [| done].
    destruct ((number <? 0) && negb (HeartbeatTimeout now last_report)); [| done].
    destruct (negb (fst (MatchString pattern node))); [done |].
    destruct (ParseHost node) as [host|]; simpl.
    + intros H. apply IH in H as (vs & Hres & Hsub). simpl in Hres.
      exists (node :: vs). rewrite Hres, <- app_assoc. split; [done |].
      by apply sublist_skip.
    + by rewrite readyNodes_panic.
Qed.

Lemma pickStep_NoDup ready_nodes nodes :
  forall valid added invalid,
    NoDup valid -> (forall v, v ∈ valid <-> is_Some (added !! v)) ->
    NoDup (fold_left (pickStep ready_nodes) nodes (valid, added, invalid)).1.1.
Proof.
  induction nodes as [|node nodes IH]; intros valid added invalid Hnd Hadded; simpl; [done |].
  destruct (ready_nodes !! ToUpper node) as [valid_node|]; [| by apply IH].
  destruct (added !! valid_node) as [b|] eqn:Hv; [by apply IH |].
  apply IH.
  - apply NoDup_app. split; [done |]. split; [| apply NoDup_singleton].
    intros x Hx ->%list_elem_of_singleton.
    apply Hadded in Hx as [? Hx]. congruence.
  - intros v. rewrite elem_of_app, list_elem_of_singleton, Hadded.
    destruct (decide (v = valid_node)) as [-> | Hne].
    + rewrite lookup_insert_eq. split; [by eexists | by right].
    + rewrite lookup_insert_ne by done. split; [by intros [? | ?] | by left].
Qed.

(** The nodes of a job are pairwise distinct. *)
Lemma GetValidNodes_NoDup now r nodes pattern valid invalid :
  GetValidNodes now r nodes pattern = Some (valid, invalid) -> NoDup valid.
Proof using Range_spec.
  unfold GetValidNodes.
  destruct (readyNodes now r pattern) as [[ready_nodes valid_nodes]|] eqn:Hready; [| done].
  simpl. destruct (0 <? List.length nodes)%nat.
  - pose proof (pickStep_NoDup ready_nodes nodes [] ∅ []) as Hpick.
    destruct (fold_left (pickStep ready_nodes) nodes ([], ∅, [])) as [[v a] inv].
    intros [= <- <-]. apply Hpick; [apply NoDup_nil_2 |].
    intros v'. rewrite lookup_empty. split; [by intros ?%elem_of_nil | by intros [? ?]].
  - intros [= <- <-].
    apply readyNodes_sublist in Hready as (vs & Hvs & Hsub). simpl in Hvs. subst.
    eapply sublist_NoDup; [apply Range_NoDup | exact Hsub].
Qed.

(** With a pattern that does not compile no entry is ready, and every
    requested name is invalid. *)
Lemma readyNodes_invalid_pattern now r pattern err :
  Compile pattern = inr err -> readyNodes now r pattern = Some (∅, []).
Proof.
  intros Hc. unfold readyNodes.
  generalize (Range (reportedTime r)) as l.
  generalize (∅ : gmap string string, @nil string) as acc.
  intros acc l. revert acc.
  induction l as [|[node last_report] l IH]; intros acc; simpl; [done |].
  replace (readyStep now r pattern acc (node, last_report)) with (Some acc); [apply IH |].
  unfold readyStep, MatchString. rewrite Hc. destruct acc as [ready valid]. simpl.
  destruct (validateNumber r !! node) as [number|]; [| done].
  by destruct ((number <? 0) && negb (HeartbeatTimeout now last_report)).
Qed.

Lemma pickStep_empty nodes :
  forall valid added invalid,
    fold_left (pickStep ∅) nodes (valid, added, invalid) = (valid, added, invalid ++ nodes).
Proof.
  induction nodes as [|node nodes IH]; intros valid added invalid; simpl.
  - by rewrite app_nil_r.
  - rewrite lookup_empty, IH, <- app_assoc. done.
Qed.

Lemma GetValidNodes_invalid_pattern now r nodes pattern err :
  Compile pattern = inr err -> GetValidNodes now r nodes pattern = Some ([], nodes).
Proof.
  intros Hc. unfold GetValidNodes. rewrite (readyNodes_invalid_pattern _ _ _ _ Hc). simpl.
  destruct nodes as [|node nodes]; [done |].
  change (0 <? List.length (node :: nodes))%nat with true. cbv iota.
  by rewrite pickStep_empty.
Qed.

Lemma GetNodes_invalid_pattern now r pattern state err :
  Compile pattern = inr err -> GetNodes now r pattern state = ([], None).
Proof.
  intros Hc. rewrite (surjective_pairing (GetNodes now r pattern state)).
  rewrite GetNodes_reported. f_equal.
  assert (Hnone : forall entry, reported now r pattern state entry = None).
  { intros entry. unfold reported, MatchString. by rewrite Hc. }
  induction (Range (reportedTime r)) as [|entry l IH]; [done |].
  simpl. by rewrite Hnone.
Qed.

(** ** Properties of the dispatcher *)

(** The exit code a handler holds at the end of the messages: the one of the
    last message, or the initial -1. *)
Definition lastExitCode (outputs : list StartJobReply) : Z :=
  default (-1) (last (out_exit_code <$> outputs)).

(** The worker's stream was opened and read up to [io.EOF]. *)
Definition reachedEOF (save_output : bool) (run : NodeRun) : bool :=
  (negb save_output || files_created run) && connected run && started run
  && negb (recv_failed run).

(** The worker's stream was opened and broke with another error. *)
Definition brokeOff (save_output : bool) (run : NodeRun) : bool :=
  (negb save_output || files_created run) && connected run && started run
  && recv_failed run.

Lemma receive_exit_code node outputs : (receive node outputs).1 = lastExitCode outputs.
Proof.
  unfold receive, lastExitCode.
  induction outputs as [|output outputs _] using rev_ind; [done |].
  rewrite fold_left_app, fmap_app.
  change (out_exit_code <$> [output]) with [out_exit_code output].
  rewrite last_snoc. simpl.
  by destruct (fold_left _ outputs _).
Qed.

Lemma StartJobOnNode_other id command node job_on_nodes save_output run other :
  other <> node ->
  (StartJobOnNode id command node job_on_nodes save_output run).1 !! other
  = job_on_nodes !! other.
Proof.
  intros Hne. unfold StartJobOnNode.
  destruct (save_output && negb (files_created run)); [done |].
  destruct (negb (connected run)); simpl; [by rewrite lookup_insert_ne |].
  destruct (negb (started run)); simpl; [by rewrite !lookup_insert_ne |].
  destruct (receive node (outputs run)) as [exit_code sent].
  destruct (recv_failed run); simpl; [by rewrite !lookup_insert_ne |].
  destruct (exit_code =? 0); simpl; by rewrite !lookup_insert_ne.
Qed.

Lemma StartJobOnNode_eof id command node job_on_nodes save_output run :
  reachedEOF save_output run = true ->
  (StartJobOnNode id command node job_on_nodes save_output run).1 !! node
  = Some (if lastExitCode (outputs run) =? 0
          then {| state := JobState_Finished; exitCode := 0 |}
          else {| state := JobState_Failed; exitCode := lastExitCode (outputs run) |}).
Proof.
  unfold reachedEOF, StartJobOnNode. rewrite <- (receive_exit_code node).
  destruct save_output, (files_created run), (connected run), (started run),
    (recv_failed run); try done; simpl;
    destruct (receive node (outputs run)) as [exit_code sent]; simpl;
    destruct (exit_code =? 0); simpl; by rewrite lookup_insert_eq.
Qed.

Lemma StartJobOnNode_broke_off id command node job_on_nodes save_output run :
  brokeOff save_output run = true ->
  (StartJobOnNode id command node job_on_nodes save_output run).1 !! node
  = Some {| state := JobState_Running; exitCode := 0 |}.
Proof.
  unfold brokeOff, StartJobOnNode.
  destruct save_output, (files_created run), (connected run), (started run),
    (recv_failed run); try done; simpl;
    destruct (receive node (outputs run)) as [exit_code sent]; simpl;
    by rewrite lookup_insert_eq.
Qed.

(** One step of the loop over the nodes. *)
Definition dispatchStep (env : JobEnv) (id : Z) (command sweep placeholder : string)
    (sweepSequence : list Z) (acc : gmap string jobOnNode * list Effect)
    (item : nat * string) : gmap string jobOnNode * list Effect :=
  let c := nodeCommand command sweep placeholder sweepSequence item.1 in
  let result := StartJobOnNode id c item.2 acc.1 (store_output env) (runs env item.2) in
  (result.1, acc.2 ++ result.2).

Lemma dispatch_steps env id command sweep placeholder sweepSequence nodes :
  dispatch env id command sweep placeholder sweepSequence nodes
  = fold_left (dispatchStep env id command sweep placeholder sweepSequence)
              (zip (seq 0 (List.length nodes)) nodes) (∅, []).
Proof.
  unfold dispatch. generalize (zip (seq 0 (List.length nodes)) nodes) as l.
  generalize (∅ : gmap string jobOnNode, @nil Effect) as acc.
  intros acc l. revert acc.
  induction l as [|[i node] l IH]; intros [m sent]; simpl; [done |].
  unfold dispatchStep at 2. simpl.
  destruct (StartJobOnNode _ _ _ _ _ _) as [m' effects]. apply IH.
Qed.

Lemma dispatchSteps_other env id command sweep placeholder sweepSequence
    (l : list (nat * string)) node :
  forall acc,
    node ∉ l.*2 ->
    (fold_left (dispatchStep env id command sweep placeholder sweepSequence) l acc).1 !! node
    = acc.1 !! node.
Proof.
  induction l as [|[i other] l IH]; intros acc Hnotin; simpl; [done |].
  simpl in Hnotin. apply not_elem_of_cons in Hnotin as [Hne Hnotin].
  rewrite IH by done. unfold dispatchStep. simpl.
  by apply StartJobOnNode_other.
Qed.

Lemma dispatchSteps_record env id command sweep placeholder sweepSequence
    (l : list (nat * string)) node j :
  (forall c m,
      (StartJobOnNode id c node m (store_output env) (runs env node)).1 !! node = Some j) ->
  forall acc,
    NoDup l.*2 -> node ∈ l.*2 ->
    (fold_left (dispatchStep env id command sweep placeholder sweepSequence) l acc).1 !! node
    = Some j.
Proof.
  intros Hrec. induction l as [|[i other] l IH]; intros acc Hnd Hin; simpl in *.
  - by apply elem_of_nil in Hin.
  - apply NoDup_cons in Hnd as [Hnotin Hnd].
    apply elem_of_cons in Hin as [-> | Hin].
    + rewrite dispatchSteps_other by done. unfold dispatchStep. simpl. apply Hrec.
    + by apply IH.
Qed.

Lemma dispatch_record env id command sweep placeholder sweepSequence nodes node j :
  (forall c m,
      (StartJobOnNode id c node m (store_output env) (runs env node)).1 !! node = Some j) ->
  NoDup nodes -> node ∈ nodes ->
  (dispatch env id command sweep placeholder sweepSequence nodes).1 !! node = Some j.
Proof.
  intros Hrec Hnd Hin. rewrite dispatch_steps.
  apply dispatchSteps_record; try done; rewrite snd_zip; try done;
    rewrite length_seq; lia.
Qed.

Lemma failedNodesOf_lookup (job_on_nodes : gmap string jobOnNode) node code :
  failedNodesOf job_on_nodes !! node = Some code <->
  exists j, job_on_nodes !! node = Some j /\ state j = JobState_Failed /\ exitCode j = code.
Proof.
  unfold failedNodesOf. rewrite lookup_omap.
  destruct (job_on_nodes !! node) as [j|]; simpl.
  - case_bool_decide as Hst.
    + split; [intros [= <-]; by exists j | intros (j' & [= <-] & _ & <-); done].
    + split; [done | intros (j' & [= <-] & ? & _); done].
  - split; [done | by intros (j' & ? & _)].
Qed.

Lemma updateJob_cases id (failedNodes : gmap string Z) :
  updateJob id failedNodes
  = if decide (failedNodes = ∅) then UpdateFinishedJob id
    else UpdateFailedJob id failedNodes.
Proof.
  unfold updateJob. case_decide as He.
  - subst. by rewrite map_size_empty.
  - apply map_size_non_empty_iff in He.
    destruct (size failedNodes); [done | done].
Qed.

(** The reply that opens the stream of an accepted job. *)
Definition headerReply (id : Z) (nodes : list string) : StartClusJobReply :=
  {| JobId := int32 id; Nodes := nodes; Node := ""; Stdout := ""; Stderr := "";
     ExitCode := 0 |}.

(** The map of [jobOnNode] records when all the handlers of a job are done. *)
Definition jobOnNodes (env : JobEnv) (id : Z) (command sweep : string)
    (nodes : list string) : gmap string jobOnNode :=
  (dispatch env id command sweep (parseSweep sweep (List.length nodes)).1
            (parseSweep sweep (List.length nodes)).2 (SortStrings nodes)).1.

(** A request that passes the checks, with a job store and a reply stream
    that work. *)
Lemma StartClusJob_accepted now r env command nodes pattern sweep valid id :
  GetValidNodes now r nodes pattern = Some (valid, []) ->
  valid <> [] ->
  Go.Contains command (parseSweep sweep (List.length valid)).1 = true ->
  created env = inl id ->
  header_sent env = None ->
  exists effects,
    StartClusJob now r env command nodes pattern sweep
    = (Returned None,
       [CreateNewJob command sweep (SortStrings valid);
        Send (headerReply id (SortStrings valid));
        UpdateJobState id JobState_Created JobState_Dispatching;
        UpdateJobState id JobState_Dispatching JobState_Running]
       ++ effects
       ++ [updateJob id (failedNodesOf (jobOnNodes env id command sweep valid))]).
Proof.
  intros Hvalid Hne Hcontains Hcreated Hsent.
  unfold StartClusJob, jobOnNodes. rewrite Hvalid. simpl.
  destruct (SortStrings valid) as [|n sorted] eqn:Hsorted;
    [destruct Hne; by apply SortStrings_nil |].
  rewrite <- Hsorted, SortStrings_length.
  replace (List.length valid =? 0)%nat with false
    by (destruct valid; [by destruct Hne | done]).
  destruct (parseSweep sweep (List.length valid)) as [placeholder sweepSequence].
  simpl in Hcontains |- *. rewrite Hcontains, Hcreated, Hsent. simpl.
  destruct (dispatch env id command sweep placeholder sweepSequence (SortStrings valid))
    as [job_on_nodes effects].
  by exists effects.
Qed.

(** C6. When node resolution yields invalid names, or no valid node, or the
    placeholder of the sweep does not occur in the command, the RPC returns
    an error and has made no call at all: no reply is sent on the stream and
    [CreateNewJob] is not called. *)
Theorem StartClusJob_rejected now r env command nodes pattern sweep valid invalid :
  GetValidNodes now r nodes pattern = Some (valid, invalid) ->
  invalid <> [] \/ valid = [] \/
  Go.Contains command (parseSweep sweep (List.length valid)).1 = false ->
  exists err,
    StartClusJob now r env command nodes pattern sweep = (Returned (Some err), []).
Proof.
  intros Hvalid Hcases. unfold StartClusJob. rewrite Hvalid.
  destruct (SortStrings invalid) as [|i sorted_invalid] eqn:Hinv; simpl.
  2:{ by eexists. }
  apply SortStrings_nil in Hinv as ->.
  rewrite SortStrings_length.
  destruct valid as [|v valid]; simpl; [by eexists |].
  destruct Hcases as [? | [? | Hcontains]]; try done.
  simpl in Hcontains.
  destruct (parseSweep sweep (S (List.length valid))) as [placeholder sweepSequence].
  simpl in Hcontains. rewrite Hcontains. simpl. by eexists.
Qed.

(** C7. When the handlers of a job are done, a node whose worker stream
    reached EOF is recorded [Finished] iff its last exit code is 0 and
    [Failed] with that exit code otherwise; the failed nodes collected are
    exactly the nodes recorded [Failed], with their exit codes; and the last
    call of the RPC is [UpdateFailedJob] with them iff there is one,
    [UpdateFinishedJob] otherwise. *)
Theorem StartClusJob_aggregate now r env command nodes pattern sweep valid id :
  GetValidNodes now r nodes pattern = Some (valid, []) ->
  valid <> [] ->
  Go.Contains command (parseSweep sweep (List.length valid)).1 = true ->
  created env = inl id ->
  header_sent env = None ->
  let job_on_nodes := jobOnNodes env id command sweep valid in
  let failedNodes := failedNodesOf job_on_nodes in
  (forall node,
      node ∈ valid -> reachedEOF (store_output env) (runs env node) = true ->
      let exit_code := lastExitCode (outputs (runs env node)) in
      job_on_nodes !! node
      = Some (if exit_code =? 0
              then {| state := JobState_Finished; exitCode := 0 |}
              else {| state := JobState_Failed; exitCode := exit_code |})) /\
  (forall node code,
      failedNodes !! node = Some code <->
      exists j, job_on_nodes !! node = Some j /\
                state j = JobState_Failed /\ exitCode j = code) /\
  exists effects,
    StartClusJob now r env command nodes pattern sweep
    = (Returned None,
       effects ++ [if decide (failedNodes = ∅) then UpdateFinishedJob id
                   else UpdateFailedJob id failedNodes]).
Proof using Range_spec.
  intros Hvalid Hne Hcontains Hcreated Hsent job_on_nodes failedNodes.
  split; [| split].
  - intros node Hin Heof exit_code. subst job_on_nodes. unfold jobOnNodes.
    apply dispatch_record.
    + intros c m. by apply StartJobOnNode_eof.
    + rewrite SortStrings_perm. by eapply GetValidNodes_NoDup.
    + by rewrite SortStrings_perm.
  - intros node code. apply failedNodesOf_lookup.
  - destruct (StartClusJob_accepted _ _ _ _ _ _ _ _ _ Hvalid Hne Hcontains Hcreated Hsent)
      as [effects ->].
    rewrite updateJob_cases. eexists (_ ++ effects). by rewrite <- app_assoc.
Qed.

(** C9. A node whose worker stream, once started, ends with an error other
    than EOF stays recorded [Running]; it is not among the failed nodes, and
    when no other node is recorded [Failed] the job is recorded with
    [UpdateFinishedJob]. *)
Theorem StartClusJob_broken_stream now r env command nodes pattern sweep valid id node :
  GetValidNodes now r nodes pattern = Some (valid, []) ->
  Go.Contains command (parseSweep sweep (List.length valid)).1 = true ->
  created env = inl id ->
  header_sent env = None ->
  node ∈ valid ->
  brokeOff (store_output env) (runs env node) = true ->
  let job_on_nodes := jobOnNodes env id command sweep valid in
  job_on_nodes !! node = Some {| state := JobState_Running; exitCode := 0 |} /\
  failedNodesOf job_on_nodes !! node = None /\
  ((forall other j,
       other <> node -> job_on_nodes !! other = Some j -> state j <> JobState_Failed) ->
   exists effects,
     StartClusJob now r env command nodes pattern sweep
     = (Returned None, effects ++ [UpdateFinishedJob id])).
Proof using Range_spec.
  intros Hvalid Hcontains Hcreated Hsent Hin Hbroke job_on_nodes.
  assert (Hrec : job_on_nodes !! node
                 = Some {| state := JobState_Running; exitCode := 0 |}).
  { subst job_on_nodes. unfold jobOnNodes. apply dispatch_record.
    - intros c m. by apply StartJobOnNode_broke_off.
    - rewrite SortStrings_perm. by eapply GetValidNodes_NoDup.
    - by rewrite SortStrings_perm. }
  assert (Hnot : failedNodesOf job_on_nodes !! node = None).
  { apply eq_None_not_Some. intros [code Hcode].
    apply failedNodesOf_lookup in Hcode as (j & Hj & Hst & _).
    rewrite Hrec in Hj. by injection Hj as <-. }
  split; [done |]. split; [done |].
  intros Hothers.
  assert (Hne : valid <> []) by (intros ->; by apply elem_of_nil in Hin).
  destruct (StartClusJob_accepted _ _ _ _ _ _ _ _ _ Hvalid Hne Hcontains Hcreated Hsent)
    as [effects ->].
  rewrite updateJob_cases. fold job_on_nodes.
  rewrite decide_True.
  - eexists (_ ++ effects). by rewrite <- app_assoc.
  - apply map_eq. intros other. rewrite lookup_empty.
    apply eq_None_not_Some. intros [code Hcode].
    destruct (decide (other = node)) as [-> | Hother]; [by rewrite Hnot in Hcode |].
    apply failedNodesOf_lookup in Hcode as (j & Hj & Hst & _).
    by apply (Hothers other j).
Qed.

(** *** The empty sweep *)

Lemma Contains_empty command : Go.Contains command "" = true.
Proof. by destruct command. Qed.

Lemma parseSweep_empty count : parseSweep "" count = (""%string, Z.of_nat <$> seq 0 count).
Proof. reflexivity. Qed.

Definition isSend (e : Effect) : Prop :=
  match e with Send _ => True | _ => False end.

Lemma receive_sends node outputs : Forall isSend (receive node outputs).2.
Proof.
  unfold receive.
  induction outputs as [|output outputs IH] using rev_ind; [by apply Forall_nil |].
  rewrite fold_left_app. simpl.
  destruct (fold_left _ outputs _) as [exit_code sent]. simpl in *.
  apply Forall_app. split; [done |]. unfold redirect.
  apply Forall_app. split.
  - destruct (negb _); [| by apply Forall_nil]. by apply Forall_singleton.
  - destruct (negb _); [| by apply Forall_nil]. by apply Forall_singleton.
Qed.

(** The only worker call of a handler carries the command it was given. *)
Lemma StartJobOnNode_call id command node job_on_nodes save_output run n i c :
  StartJob n i c ∈ (StartJobOnNode id command node job_on_nodes save_output run).2 ->
  c = command.
Proof.
  unfold StartJobOnNode.
  assert (Hsent : forall sent, Forall isSend sent -> StartJob n i c ∉ sent).
  { intros sent Hall Hin. rewrite Forall_forall in Hall. by apply Hall in Hin. }
  destruct (save_output && negb (files_created run)); simpl; [by intros ?%elem_of_nil |].
  destruct (negb (connected run)); simpl; [by intros ?%elem_of_nil |].
  destruct (negb (started run)); simpl.
  { intros [[=] | ?%elem_of_nil]%elem_of_cons; done. }
  pose proof (receive_sends node (outputs run)) as Hall.
  destruct (receive node (outputs run)) as [exit_code sent]. simpl in Hall.
  destruct (recv_failed run); simpl.
  { intros [[=] | Hin]%elem_of_cons; [done |]. by apply Hsent in Hin. }
  assert (Hall' : Forall isSend
            (sent ++ [Send {| JobId := 0; Nodes := []; Node := node; Stdout := "";
                              Stderr := ""; ExitCode := exit_code |}])).
  { apply Forall_app. split; [done |]. by apply Forall_singleton. }
  destruct (exit_code =? 0); simpl;
    (intros [[=] | Hin]%elem_of_cons; [done |]); by apply Hsent in Hin.
Qed.

Lemma dispatchSteps_calls env id command sweep placeholder sweepSequence
    (l : list (nat * string)) n i c :
  (forall k, nodeCommand command sweep placeholder sweepSequence k = command) ->
  forall acc,
    (StartJob n i c ∈ acc.2 -> c = command) ->
    StartJob n i c
      ∈ (fold_left (dispatchStep env id command sweep placeholder sweepSequence) l acc).2 ->
    c = command.
Proof.
  intros Hcmd. induction l as [|[k node] l IH]; intros acc Hacc; simpl; [done |].
  apply IH. unfold dispatchStep. simpl. rewrite Hcmd.
  intros [Hin | Hin]%elem_of_app; [by apply Hacc |].
  by apply StartJobOnNode_call in Hin.
Qed.

(** C5, as amended.  For the empty sweep [parseSweep] returns the empty
    placeholder and the index sequence; the empty placeholder occurs in
    every command, so the check of the placeholder passes and never rejects
    the job: with nodes to run on, the job is created, and every worker is
    sent the command unmodified. *)
Theorem empty_sweep :
  (forall count, parseSweep "" count = (""%string, Z.of_nat <$> seq 0 count)) /\
  (forall command, Go.Contains command "" = true) /\
  (forall now r env command nodes pattern placeholder command',
      (StartClusJob now r env command nodes pattern "").1
      <> Returned (Some (PlaceholderNotInCommand placeholder command'))) /\
  (forall now r env command nodes pattern valid,
      GetValidNodes now r nodes pattern = Some (valid, []) -> valid <> [] ->
      exists effects,
        (StartClusJob now r env command nodes pattern "").2
        = CreateNewJob command "" (SortStrings valid) :: effects) /\
  (forall now r env command nodes pattern node id c,
      StartJob node id c ∈ (StartClusJob now r env command nodes pattern "").2 ->
      c = command).
Proof.
  split; [apply parseSweep_empty |]. split; [apply Contains_empty |].
  split; [| split].
  - intros now r env command nodes pattern placeholder command'.
    unfold StartClusJob.
    destruct (GetValidNodes now r nodes pattern) as [[valid invalid]|]; [| done].
    destruct (0 <? List.length (SortStrings invalid))%nat; [done |].
    destruct (List.length (SortStrings valid) =? 0)%nat; [done |].
    rewrite ?parseSweep_empty, Contains_empty. simpl.
    destruct (created env) as [id|err]; [| done].
    destruct (header_sent env); [done |].
    by destruct (dispatch _ _ _ _ _ _ _).
  - intros now r env command nodes pattern valid Hvalid Hne.
    unfold StartClusJob. rewrite Hvalid. simpl.
    rewrite SortStrings_length.
    replace (List.length valid =? 0)%nat with false
      by (destruct valid; [by destruct Hne | done]).
    rewrite ?parseSweep_empty, Contains_empty. simpl.
    destruct (created env) as [id|err]; [| by eexists].
    destruct (header_sent env); [by eexists |].
    destruct (dispatch _ _ _ _ _ _ _). by eexists.
  - intros now r env command nodes pattern node id c.
    unfold StartClusJob.
    destruct (GetValidNodes now r nodes pattern) as [[valid invalid]|];
      [| by intros ?%elem_of_nil].
    destruct (0 <? List.length (SortStrings invalid))%nat; [by intros ?%elem_of_nil |].
    destruct (List.length (SortStrings valid) =? 0)%nat; [by intros ?%elem_of_nil |].
    rewrite ?parseSweep_empty, Contains_empty. simpl.
    destruct (created env) as [id'|err]; simpl.
    2:{ intros [[=] | ?%elem_of_nil]%elem_of_cons; done. }
    destruct (header_sent env); simpl.
    { intros [[=] | [[=] | ?%elem_of_nil]%elem_of_cons]%elem_of_cons; done. }
    destruct (dispatch env id' command "" "" _ (SortStrings valid))
      as [job_on_nodes effects] eqn:Hd.
    simpl. rewrite !elem_of_cons, elem_of_app, list_elem_of_singleton.
    intros [[=] | [[=] | [[=] | [[=] | [Hin | Hin]]]]].
    + rewrite dispatch_steps in Hd.
      eapply (dispatchSteps_calls env id' command "" "" _ _ node id c); [done | |].
      2:{ rewrite Hd. exact Hin. }
      by intros ?%elem_of_nil.
    + rewrite updateJob_cases in Hin. by case_decide.
Qed.

(** C10. A pattern that is not a valid regular expression matches no node:
    [GetNodes] returns the empty list and no error, node resolution finds no
    ready node and no valid node, and [StartClusJob] rejects the job without
    creating it, for want of valid nodes when the request names none and
    otherwise for the names it gives. *)
Theorem invalid_pattern now r env command nodes pattern sweep state err :
  Compile pattern = inr err ->
  GetNodes now r pattern state = ([], None) /\
  readyNodes now r pattern = Some (∅, []) /\
  GetValidNodes now r nodes pattern = Some ([], nodes) /\
  StartClusJob now r env command nodes pattern sweep
  = (Returned (Some match nodes with
                    | [] => NoValidNodes
                    | _ :: _ => InvalidNodes (SortStrings nodes)
                    end), []).
Proof.
  intros Hc.
  split; [by eapply GetNodes_invalid_pattern |].
  split; [by eapply readyNodes_invalid_pattern |].
  split; [by eapply GetValidNodes_invalid_pattern |].
  unfold StartClusJob. rewrite (GetValidNodes_invalid_pattern _ _ _ _ _ Hc).
  destruct nodes as [|node nodes]; [done |].
  rewrite SortStrings_length. done.
Qed.

(** ** Further properties of [parseSweep] *)

Lemma append_assoc (a b c : string) : (a +:+ b) +:+ c = a +:+ (b +:+ c).
Proof.
  induction a as [|x a IH]; [done |]. rewrite !append_cons. by rewrite IH.
Qed.

Lemma substring_0_app (a s : string) : substring 0 (String.length a) (a +:+ s) = a.
Proof.
  induction a as [|x a IH].
  - rewrite append_nil_l. apply substring_0_0.
  - rewrite append_cons. simpl. by rewrite IH.
Qed.

Lemma LastIndex_app_other p (c sep : ascii) :
  Ascii.eqb c sep = false ->
  Go.LastIndex (p +:+ String c "") sep = Go.LastIndex p sep.
Proof.
  intros Hc. induction p as [|x p IH].
  - rewrite append_nil_l. simpl. by rewrite Hc.
  - rewrite append_cons. simpl. by rewrite IH.
Qed.

Lemma LastIndex_split s sep :
  forall index,
    Go.LastIndex s sep = Some index ->
    exists pre rest,
      s = pre +:+ String sep rest /\ String.length pre = index /\
      Go.LastIndex rest sep = None.
Proof.
  induction s as [|x s IH]; intros index; simpl; [done |].
  destruct (Go.LastIndex s sep) as [i|] eqn:Hs.
  - intros [= <-]. destruct (IH i eq_refl) as (pre & rest & -> & <- & Hrest).
    exists (String x pre), rest. by rewrite append_cons.
  - destruct (Ascii.eqb_spec x sep) as [-> | Hne]; [| done].
    intros [= <-]. exists ""%string, s. by rewrite append_nil_l.
Qed.

(** A sweep that parses is a non-empty placeholder followed by a body in
    braces, where the body holds no other opening brace. *)
Lemma parseSweepFields_shape sweep placeholder b e s :
  parseSweepFields sweep = Some (placeholder, b, e, s) ->
  placeholder <> ""%string /\
  exists body,
    sweep = placeholder +:+ "{" +:+ body +:+ "}" /\ Go.LastIndex body "{" = None.
Proof.
  unfold parseSweepFields.
  destruct (Go.len sweep =? 0)%nat; [done |].
  destruct (String.eqb (Go.slice sweep (Go.len sweep - 1) (Go.len sweep)) "}") eqn:Hclose;
    [| done].
  apply closing_brace in Hclose as [p ->]. simpl negb. cbv iota.
  rewrite LastIndex_app_other by done.
  destruct (Go.LastIndex p "{") as [index|] eqn:Hidx; [| done].
  apply LastIndex_split in Hidx as (pre & rest & -> & <- & Hrest).
  assert (Hph : Go.slice ((pre +:+ String "{" rest) +:+ "}") 0 (String.length pre) = pre).
  { unfold Go.slice. rewrite Nat.sub_0_r, append_assoc. apply substring_0_app. }
  rewrite Hph.
  destruct (Go.len pre =? 0)%nat eqn:Hpre; [done |].
  destruct (2 <? _)%nat; [done |].
  destruct (parseStep _) as [[e0 s0]|]; [| done]. simpl.
  destruct (parseRange _ _) as [[b1 e1]|]; [| done]. simpl.
  intros [= <- <- <- <-]. split.
  - intros ->. done.
  - exists rest. split; [| done].
    by rewrite append_assoc, append_cons.
Qed.

(** X1. When a sweep parses, the placeholder returned is not empty and the
    sweep is that placeholder followed by a body in braces; the body holds no
    further opening brace. *)
Theorem parseSweep_shape sweep count begin end_ step placeholder :
  parseSweepFields sweep = Some (placeholder, begin, end_, step) ->
  (parseSweep sweep count).1 = placeholder /\
  placeholder <> ""%string /\
  exists body,
    sweep = placeholder +:+ "{" +:+ body +:+ "}" /\ Go.LastIndex body "{" = None.
Proof.
  intros Hparse. split; [unfold parseSweep; by rewrite Hparse |].
  by eapply parseSweepFields_shape.
Qed.

(** X2. The placeholder [parseSweep] returns is empty only for the empty
    sweep, so a substitution for a non-empty sweep never replaces the empty
    text. *)
Theorem parseSweep_placeholder_empty sweep count :
  (parseSweep sweep count).1 = ""%string <-> sweep = ""%string.
Proof.
  split; [| by intros ->].
  unfold parseSweep.
  destruct (parseSweepFields sweep) as [[[[ph b] e] s]|] eqn:Hparse; simpl; [| done].
  intros ->. by apply parseSweepFields_shape in Hparse as [? _].
Qed.

Lemma in_int_bounds z : Go.in_int z = true <-> Go.MinInt64 <= z <= Go.MaxInt64.
Proof.
  unfold Go.in_int. rewrite andb_true_iff, !Z.leb_le. done.
Qed.

Lemma gtb_true a b : b < a -> (a >? b) = true.
Proof. intros. by apply Z.gtb_lt. Qed.

Lemma gtb_false a b : a <= b -> (a >? b) = false.
Proof. intros. rewrite Z.gtb_ltb. by apply Z.ltb_ge. Qed.

Lemma ltb_true a b : a < b -> (a <? b) = true.
Proof. intros. by apply Z.ltb_lt. Qed.

Lemma ltb_false a b : b <= a -> (a <? b) = false.
Proof. intros. by apply Z.ltb_ge. Qed.

Lemma nextTerm_up b e s j :
  0 < s -> b <= e -> Go.MinInt64 <= b -> e + s <= Go.MaxInt64 ->
  0 <= j < (e - b) / s + 1 ->
  nextTerm b e s (b + s * j) = b + s * ((j + 1) mod ((e - b) / s + 1)).
Proof.
  intros Hs Hbe Hb He Hj.
  pose proof (Z.mul_div_le (e - b) s Hs) as Hle.
  pose proof (Z.mul_succ_div_gt (e - b) s Hs) as Hgt.
  assert (Hq : 0 <= (e - b) / s) by (apply Z.div_pos; lia).
  set (q := (e - b) / s) in *.
  unfold nextTerm. rewrite wrap_in_int by (apply in_int_bounds; nia).
  rewrite (gtb_true s 0), (ltb_false s 0) by lia. simpl. rewrite orb_false_r.
  destruct (decide (j = q)) as [-> | Hne].
  - rewrite Z_mod_same_full, Z.mul_0_r, Z.add_0_r.
    by rewrite gtb_true by lia.
  - rewrite Z.mod_small by lia.
    rewrite gtb_false by nia. lia.
Qed.

Lemma nextTerm_down b e s j :
  s < 0 -> e <= b -> b <= Go.MaxInt64 -> Go.MinInt64 <= e + s ->
  0 <= j < (b - e) / (- s) + 1 ->
  nextTerm b e s (b + s * j) = b + s * ((j + 1) mod ((b - e) / (- s) + 1)).
Proof.
  intros Hs Hbe Hb He Hj.
  pose proof (Z.mul_div_le (b - e) (- s) ltac:(lia)) as Hle.
  pose proof (Z.mul_succ_div_gt (b - e) (- s) ltac:(lia)) as Hgt.
  assert (Hq : 0 <= (b - e) / (- s)) by (apply Z.div_pos; lia).
  set (q := (b - e) / (- s)) in *.
  unfold nextTerm. rewrite wrap_in_int by (apply in_int_bounds; nia).
  rewrite (gtb_false s 0), (ltb_true s 0) by lia. simpl.
  destruct (decide (j = q)) as [-> | Hne].
  - rewrite Z_mod_same_full, Z.mul_0_r, Z.add_0_r.
    by rewrite ltb_true by lia.
  - rewrite Z.mod_small by lia.
    rewrite ltb_false by nia. lia.
Qed.

Lemma sweepTerms_up b e s count :
  0 < s -> b <= e -> Go.MinInt64 <= b -> e + s <= Go.MaxInt64 ->
  sweepTerms b e s b count
  = (fun i => b + s * (Z.of_nat i mod ((e - b) / s + 1))) <$> seq 0 count.
Proof.
  intros Hs Hbe Hb He.
  assert (Hq : 0 <= (e - b) / s) by (apply Z.div_pos; lia).
  replace (sweepTerms b e s b count) with (sweepTerms b e s (b + s * 0) count)
    by (f_equal; lia).
  rewrite (sweepTerms_cycle b e s ((e - b) / s + 1)); try lia.
  - apply list_fmap_ext. intros _ i _. cbv beta. by rewrite Z.add_0_l.
  - intros j Hj. by apply nextTerm_up.
Qed.

Lemma sweepTerms_down b e s count :
  s < 0 -> e <= b -> b <= Go.MaxInt64 -> Go.MinInt64 <= e + s ->
  sweepTerms b e s b count
  = (fun i => b + s * (Z.of_nat i mod ((b - e) / (- s) + 1))) <$> seq 0 count.
Proof.
  intros Hs Hbe Hb He.
  assert (Hq : 0 <= (b - e) / (- s)) by (apply Z.div_pos; lia).
  replace (sweepTerms b e s b count) with (sweepTerms b e s (b + s * 0) count)
    by (f_equal; lia).
  rewrite (sweepTerms_cycle b e s ((b - e) / (- s) + 1)); try lia.
  - apply list_fmap_ext. intros _ i _. cbv beta. by rewrite Z.add_0_l.
  - intros j Hj. by apply nextTerm_down.
Qed.

Lemma parseSweep_terms sweep count placeholder b e s0 :
  parseSweepFields sweep = Some (placeholder, b, e, s0) ->
  (parseSweep sweep count).2 = sweepTerms b e (defaultStep b e s0) b count.
Proof.
  intros Hparse. unfold parseSweep. rewrite Hparse. simpl.
  by rewrite sweepLoop_terms, indices_length.
Qed.

(** X3. For a sweep that parses to an ascending range ([begin <= end],
    resolved step > 0) with [end + step] within the range of [int], term [i]
    of the sequence is [begin + step * (i mod p)] where
    [p = (end - begin) / step + 1]; for a descending range ([end <= begin],
    step < 0, [end + step] within [int]) it is the same with
    [p = (begin - end) / (- step) + 1]. *)
Theorem parseSweep_cycle sweep count placeholder begin end_ step0 :
  parseSweepFields sweep = Some (placeholder, begin, end_, step0) ->
  let step := defaultStep begin end_ step0 in
  (0 < step -> begin <= end_ -> Go.MinInt64 <= begin -> end_ + step <= Go.MaxInt64 ->
   (parseSweep sweep count).2
   = (fun i => begin + step * (Z.of_nat i mod ((end_ - begin) / step + 1)))
       <$> seq 0 count) /\
  (step < 0 -> end_ <= begin -> begin <= Go.MaxInt64 -> Go.MinInt64 <= end_ + step ->
   (parseSweep sweep count).2
   = (fun i => begin + step * (Z.of_nat i mod ((begin - end_) / (- step) + 1)))
       <$> seq 0 count).
Proof.
  intros Hparse step. rewrite (parseSweep_terms _ _ _ _ _ _ Hparse). fold step.
  split; intros; [by apply sweepTerms_up | by apply sweepTerms_down].
Qed.

(** X4. Under the same conditions every term of the sequence lies between
    [begin] and [end]: the sweep never produces a value outside its range. *)
Theorem parseSweep_within_range sweep count placeholder begin end_ step0 n :
  parseSweepFields sweep = Some (placeholder, begin, end_, step0) ->
  n ∈ (parseSweep sweep count).2 ->
  let step := defaultStep begin end_ step0 in
  (0 < step -> begin <= end_ -> Go.MinInt64 <= begin -> end_ + step <= Go.MaxInt64 ->
   begin <= n <= end_) /\
  (step < 0 -> end_ <= begin -> begin <= Go.MaxInt64 -> Go.MinInt64 <= end_ + step ->
   end_ <= n <= begin).
Proof.
  intros Hparse Hin step. rewrite (parseSweep_terms _ _ _ _ _ _ Hparse) in Hin.
  fold step in Hin. split.
  - intros Hs Hbe Hb He. rewrite sweepTerms_up in Hin by done.
    apply list_elem_of_fmap in Hin as (i & -> & _).
    pose proof (Z.mul_div_le (end_ - begin) step Hs).
    assert (0 <= (end_ - begin) / step) by (apply Z.div_pos; lia).
    pose proof (Z.mod_pos_bound (Z.of_nat i) ((end_ - begin) / step + 1) ltac:(lia)).
    nia.
  - intros Hs Hbe Hb He. rewrite sweepTerms_down in Hin by done.
    apply list_elem_of_fmap in Hin as (i & -> & _).
    pose proof (Z.mul_div_le (begin - end_) (- step) ltac:(lia)).
    assert (0 <= (begin - end_) / (- step)) by (apply Z.div_pos; lia).
    pose proof (Z.mod_pos_bound (Z.of_nat i) ((begin - end_) / (- step) + 1) ltac:(lia)).
    nia.
Qed.

Lemma Atoi_in_int s v : Go.Atoi s = Some v -> Go.in_int v = true.
Proof.
  unfold Go.Atoi. destruct s as [|c rest]; [done |].
  destruct (if Ascii.eqb c "-" || Ascii.eqb c "+" then rest else String c rest); [done |].
  destruct (Go.digits _ 0) as [n|]; [| done].
  destruct (Go.in_int _) eqn:Hin; [| done]. by intros [= <-].
Qed.

Lemma Atoi_bind_in_int t (e : Z) b e' :
  (Go.Atoi t ≫= fun b => Some (b, e)) = Some (b, e') -> Go.in_int b = true.
Proof.
  destruct (Go.Atoi t) as [v|] eqn:Ht; [| done]. simpl. intros [= <- <-].
  by eapply Atoi_in_int.
Qed.

Lemma Atoi_bind2_in_int t u b e' :
  (Go.Atoi t ≫= fun b => Go.Atoi u ≫= fun e => Some (b, e)) = Some (b, e') ->
  Go.in_int b = true /\ Go.in_int e' = true.
Proof.
  destruct (Go.Atoi t) as [v|] eqn:Ht; [| done]. simpl.
  destruct (Go.Atoi u) as [w|] eqn:Hu; [| done]. simpl. intros [= <- <-].
  split; by eapply Atoi_in_int.
Qed.

(** [begin] is always a value read by [strconv.Atoi]. *)
Lemma parseRange_in_int pieces e b e' :
  parseRange pieces e = Some (b, e') -> Go.in_int b = true.
Proof.
  unfold parseRange.
  destruct pieces as [|p0 [|p1 [|p2 [|p3 [|p4 ps]]]]]; try done.
  - apply Atoi_bind_in_int.
  - destruct (Go.len p0 =? 0)%nat; [apply Atoi_bind_in_int |].
    intros H. by apply Atoi_bind2_in_int in H as [? _].
  - destruct (Go.len p0 =? 0)%nat; [| destruct (Go.len p1 =? 0)%nat; [| done]];
      intros H; by apply Atoi_bind2_in_int in H as [? _].
  - destruct ((Go.len p0 =? 0)%nat || (Go.len p2 =? 0)%nat); [| done].
    intros H. by apply Atoi_bind2_in_int in H as [? _].
Qed.

Lemma parseSweepFields_in_int sweep placeholder b e s :
  parseSweepFields sweep = Some (placeholder, b, e, s) -> Go.in_int b = true.
Proof.
  unfold parseSweepFields.
  destruct (Go.len sweep =? 0)%nat; [done |].
  destruct (negb _); [done |].
  destruct (Go.LastIndex sweep "{") as [index|]; [| done].
  destruct (Go.len _ =? 0)%nat; [done |].
  destruct (2 <? _)%nat; [done |].
  destruct (parseStep _) as [[e0 s0]|]; [| done]. simpl.
  destruct (parseRange _ _) as [[b1 e1]|] eqn:Hrange; [| done]. simpl.
  intros [= <- <- <- <-]. by eapply parseRange_in_int.
Qed.

Lemma sweepTerms_constant b e count :
  Go.in_int b = true -> sweepTerms b e 0 b count = replicate count b.
Proof.
  intros Hb. induction count as [|count IH]; [done |]. simpl. f_equal.
  unfold nextTerm. rewrite Z.add_0_r, (wrap_in_int _ Hb). simpl. exact IH.
Qed.

Lemma defaultStep_0 b e s0 : defaultStep b e s0 = 0 <-> s0 = 0 /\ b = e.
Proof.
  unfold defaultStep.
  destruct (Z.eqb_spec s0 0) as [-> | Hne]; [| split; [done | by intros [? _]]].
  destruct (Z.ltb_spec b e), (Z.gtb_spec b e); split; try done; try lia;
    intros [_ ?]; lia.
Qed.

(** X5. The resolved step of a sweep is 0 exactly when no step is given and
    [begin = end]; the sequence is then [begin] repeated. *)
Theorem parseSweep_constant sweep count placeholder begin end_ step0 :
  parseSweepFields sweep = Some (placeholder, begin, end_, step0) ->
  (defaultStep begin end_ step0 = 0 <-> step0 = 0 /\ begin = end_) /\
  (defaultStep begin end_ step0 = 0 ->
   (parseSweep sweep count).2 = replicate count begin).
Proof.
  intros Hparse. split; [apply defaultStep_0 |].
  intros Hstep. rewrite (parseSweep_terms _ _ _ _ _ _ Hparse), Hstep.
  apply sweepTerms_constant. by eapply parseSweepFields_in_int.
Qed.

Lemma sweepTerms_progression_up b e s count :
  0 < s ->
  forall j,
    0 <= j -> Go.MinInt64 <= b ->
    ((0 < count)%nat ->
     b + s * (j + Z.of_nat count - 1) <= e /\
     b + s * (j + Z.of_nat count - 1) <= Go.MaxInt64) ->
    sweepTerms b e s (b + s * j) count
    = (fun i => b + s * (j + Z.of_nat i)) <$> seq 0 count.
Proof.
  intros Hs. induction count as [|count IH]; intros j Hj Hb Hlast; [done |].
  simpl. f_equal; [f_equal; lia |].
  destruct count as [|count]; [done |].
  destruct (Hlast ltac:(lia)) as [He Hmax].
  assert (Hnext : nextTerm b e s (b + s * j) = b + s * (j + 1)).
  { unfold nextTerm. rewrite wrap_in_int by (apply in_int_bounds; nia).
    rewrite (ltb_false s 0) by lia.
    rewrite (gtb_false (b + s * j + s) e) by nia.
    rewrite andb_false_r. simpl. lia. }
  rewrite Hnext, IH by (try split; nia).
  rewrite <- fmap_S_seq, <- list_fmap_compose.
  apply list_fmap_ext. intros _ i _. simpl. f_equal. lia.
Qed.

Lemma sweepTerms_progression_down b e s count :
  s < 0 ->
  forall j,
    0 <= j -> b <= Go.MaxInt64 ->
    ((0 < count)%nat ->
     e <= b + s * (j + Z.of_nat count - 1) /\
     Go.MinInt64 <= b + s * (j + Z.of_nat count - 1)) ->
    sweepTerms b e s (b + s * j) count
    = (fun i => b + s * (j + Z.of_nat i)) <$> seq 0 count.
Proof.
  intros Hs. induction count as [|count IH]; intros j Hj Hb Hlast; [done |].
  simpl. f_equal; [f_equal; lia |].
  destruct count as [|count]; [done |].
  destruct (Hlast ltac:(lia)) as [He Hmin].
  assert (Hnext : nextTerm b e s (b + s * j) = b + s * (j + 1)).
  { unfold nextTerm. rewrite wrap_in_int by (apply in_int_bounds; nia).
    rewrite (gtb_false s 0) by lia.
    rewrite (ltb_false (b + s * j + s) e) by nia.
    rewrite andb_false_r. simpl. lia. }
  rewrite Hnext, IH by (try split; nia).
  rewrite <- fmap_S_seq, <- list_fmap_compose.
  apply list_fmap_ext. intros _ i _. simpl. f_equal. lia.
Qed.

(** X6. As long as the last of the [count] terms has not passed [end] nor
    left the range of [int], the sequence is the arithmetic progression
    [begin], [begin + step], ..., [begin + (count - 1) * step]; this holds
    in particular for a sweep with an open end. *)
Theorem parseSweep_progression sweep count placeholder begin end_ step0 :
  parseSweepFields sweep = Some (placeholder, begin, end_, step0) ->
  let step := defaultStep begin end_ step0 in
  let last := begin + step * (Z.of_nat count - 1) in
  (0 < step /\ last <= end_ /\ last <= Go.MaxInt64) \/
  (step < 0 /\ end_ <= last /\ Go.MinInt64 <= last) ->
  (parseSweep sweep count).2 = (fun i => begin + step * Z.of_nat i) <$> seq 0 count.
Proof.
  intros Hparse step last Hcases.
  rewrite (parseSweep_terms _ _ _ _ _ _ Hparse). fold step.
  pose proof (parseSweepFields_in_int _ _ _ _ _ Hparse) as Hb.
  apply in_int_bounds in Hb.
  replace (sweepTerms begin end_ step begin count)
    with (sweepTerms begin end_ step (begin + step * 0) count) by (f_equal; lia).
  destruct Hcases as [(Hs & He & Hmax) | (Hs & He & Hmin)].
  - rewrite sweepTerms_progression_up; try lia.
    apply list_fmap_ext. intros _ i _. cbv beta. by rewrite Z.add_0_l.
  - rewrite sweepTerms_progression_down; try lia.
    apply list_fmap_ext. intros _ i _. cbv beta. by rewrite Z.add_0_l.
Qed.

(** ** Further properties of the registry and of the validator *)

Lemma Split_no_sep s sep : Go.LastIndex s sep = None -> Go.Split s sep = [s].
Proof.
  induction s as [|c s IH]; simpl; [done |].
  destruct (Go.LastIndex s sep) as [i|]; [done |].
  destruct (Ascii.eqb c sep); [done |]. intros _. by rewrite IH.
Qed.

Lemma Split_app_sep a rest sep :
  Go.LastIndex a sep = None ->
  Go.Split (a +:+ String sep rest) sep = a :: Go.Split rest sep.
Proof.
  induction a as [|c a IH].
  - intros _. rewrite append_nil_l. simpl. by rewrite Ascii.eqb_refl.
  - intros H. simpl in H.
    destruct (Go.LastIndex a sep) as [i|]; [done |].
    destruct (Ascii.eqb c sep) eqn:Hc; [done |].
    rewrite append_cons. simpl. rewrite Hc, IH; done.
Qed.

Lemma ParseHost_plain nodename :
  Go.LastIndex nodename "(" = None ->
  ParseHost nodename = Some (nodename +:+ ":" +:+ DefaultPort).
Proof. intros H. unfold ParseHost. by rewrite (Split_no_sep _ _ H). Qed.

Lemma ParseHost_with_host nodename host :
  Go.LastIndex nodename "(" = None -> Go.LastIndex host "(" = None ->
  ParseHost (nodename +:+ "(" +:+ host +:+ ")") = Some host.
Proof.
  intros Hn Hh. unfold ParseHost.
  change ("(" +:+ host +:+ ")") with (String "(" (host +:+ ")")).
  rewrite (Split_app_sep _ _ _ Hn).
  rewrite Split_no_sep by (by rewrite LastIndex_app_other).
  simpl. unfold Go.len, Go.slice.
  rewrite append_length. simpl.
  replace (String.length host + 1 =? 0)%nat with false
    by (symmetry; apply Nat.eqb_neq; lia).
  replace (String.length host + 1 - 1 - 0)%nat with (String.length host) by lia.
  by rewrite substring_0_app.
Qed.

(** X7. [ParseHost] undoes the display name [Heartbeat] builds: when the
    upper-cased node name and the host hold no opening parenthesis, the
    display name is either the bare node name, parsed to
    [nodename:DefaultPort], or [nodename(host)], parsed back to [host]; it
    never panics on such a name. *)
Theorem Heartbeat_ParseHost now r nodename host r' display_name nodename' host' :
  Heartbeat now r nodename host = (r', None, Some (display_name, nodename', host')) ->
  Go.LastIndex nodename' "(" = None ->
  Go.LastIndex host' "(" = None ->
  (display_name = nodename' /\
   ParseHost display_name = Some (nodename' +:+ ":" +:+ DefaultPort)) \/
  (display_name = nodename' +:+ "(" +:+ host' +:+ ")" /\
   ParseHost display_name = Some host').
Proof.
  unfold Heartbeat. intros H Hn Hh.
  destruct (ContainsParen nodename); [done |].
  destruct (ParseHostAddress host) as [[[hostname port] h]|]; [| done].
  destruct (String.eqb hostname (ToUpper nodename) && String.eqb port DefaultPort);
    simplify_eq/=.
  - left. split; [done |]. by apply ParseHost_plain.
  - right. split; [done |]. by apply ParseHost_with_host.
Qed.

Lemma validateDelay_small number :
  1 <= number <= 5 -> validateDelay number = 2 ^ number.
Proof.
  intros H.
  assert (number = 1 \/ number = 2 \/ number = 3 \/ number = 4 \/ number = 5)
    as [-> | [-> | [-> | [-> | ->]]]] by lia; reflexivity.
Qed.

Lemma validateDelay_large number : 6 <= number -> validateDelay number = 60.
Proof.
  intros H. unfold validateDelay.
  assert (2 ^ 6 <= 2 ^ number) by (apply Z.pow_le_mono_r; lia).
  rewrite gtb_true; [done |]. change (2 ^ 6) with 64 in *. lia.
Qed.

(** X8. A retry of a validation that failed [number >= 1] times in a row
    waits [2 ^ number] seconds for up to five failures and 60 seconds from
    the sixth on: between 2 and 60 seconds, never less than the wait before. *)
Theorem validateDelay_backoff display_name (vn : gmap string Z) number :
  vn !! display_name = Some number ->
  1 <= number ->
  ValidateBegin display_name vn
  = (<[display_name := 0]> vn, Some (number, Some (validateDelay number))) /\
  2 <= validateDelay number <= 60 /\
  (number <= 5 -> validateDelay number = 2 ^ number) /\
  (6 <= number -> validateDelay number = 60) /\
  validateDelay number <= validateDelay (number + 1).
Proof.
  intros Hn Hpos. split.
  { unfold ValidateBegin. rewrite Hn. simpl. by rewrite gtb_true by lia. }
  assert (Hcases : number = 1 \/ number = 2 \/ number = 3 \/ number = 4 \/ number = 5
                   \/ 6 <= number) by lia.
  destruct Hcases as [-> | [-> | [-> | [-> | [-> | Hbig]]]]];
    try (repeat split; intros; try lia; vm_compute; congruence).
  rewrite !validateDelay_large by lia. repeat split; try lia.
Qed.

(** An outcome that counts as a failed validation attempt. *)
Definition attemptFailed (outcome : ValidateOutcome) : bool :=
  match outcome with Replied _ => false | _ => true end.

Lemma Validate_failed display_name nodename host outcome (vn : gmap string Z) :
  attemptFailed outcome = true ->
  (vn !! display_name = None ->
   Validate display_name nodename host outcome vn !! display_name = Some 1) /\
  (forall v, vn !! display_name = Some v -> 0 < v < Go.MaxInt64 ->
             Validate display_name nodename host outcome vn !! display_name
             = Some (v + 1)).
Proof.
  intros Hfail. unfold Validate, ValidateBegin, ValidateEnd. split.
  - intros ->. simpl. destruct outcome; try done; by rewrite lookup_insert_eq.
  - intros v -> Hv. simpl. rewrite gtb_true by lia.
    rewrite wrap_in_int
      by (apply in_int_bounds; unfold Go.MinInt64, Go.MaxInt64 in *; lia).
    destruct outcome; try done; by rewrite lookup_insert_eq.
Qed.

Lemma Validate_failures display_name nodename host (outcomes : list ValidateOutcome) :
  forall (vn : gmap string Z) v,
    vn !! display_name = Some v -> 0 < v ->
    v + Z.of_nat (List.length outcomes) <= Go.MaxInt64 ->
    Forall (fun outcome => attemptFailed outcome = true) outcomes ->
    fold_left (fun vn outcome => Validate display_name nodename host outcome vn) outcomes vn
      !! display_name
    = Some (v + Z.of_nat (List.length outcomes)).
Proof.
  induction outcomes as [|outcome outcomes IH]; intros vn v Hv Hpos Hmax Hall.
  - simpl. rewrite Hv. f_equal. lia.
  - apply Forall_cons in Hall as [Hfail Hall]. simpl in *.
    rewrite (IH _ (v + 1)); try done; try lia.
    + f_equal. lia.
    + apply (proj2 (Validate_failed _ _ _ _ _ Hfail)); [done | lia].
Qed.

(** X9. Validation failures are counted: starting from a node without
    validation entry, [k >= 1] runs of [Validate] that each fail to dial or
    to call leave the state [k], and a run that then gets a reply with the
    expected name stores -1. *)
Theorem Validate_counts_failures display_name nodename host
    (outcomes : list ValidateOutcome) (vn : gmap string Z) reply :
  vn !! display_name = None ->
  outcomes <> [] ->
  Z.of_nat (List.length outcomes) <= Go.MaxInt64 ->
  Forall (fun outcome => attemptFailed outcome = true) outcomes ->
  ToUpper reply = nodename ->
  let vn' :=
    fold_left (fun vn outcome => Validate display_name nodename host outcome vn)
              outcomes vn in
  vn' !! display_name = Some (Z.of_nat (List.length outcomes)) /\
  Validate display_name nodename host (Replied reply) vn' !! display_name = Some (-1).
Proof.
  intros Hnone Hne Hmax Hall Hreply vn'.
  assert (Hcount : vn' !! display_name = Some (Z.of_nat (List.length outcomes))).
  { subst vn'. destruct outcomes as [|outcome outcomes]; [done |].
    apply Forall_cons in Hall as [Hfail Hall]. simpl in *.
    rewrite (Validate_failures _ _ _ _ _ 1); try done; try lia.
    - f_equal. lia.
    - by apply (proj1 (Validate_failed _ _ _ _ _ Hfail)). }
  split; [done |].
  unfold Validate, ValidateBegin, ValidateEnd. rewrite Hcount. simpl.
  rewrite gtb_true by (destruct outcomes; [done | simpl; lia]).
  rewrite Hreply, String.eqb_refl. simpl. by rewrite lookup_insert_eq.
Qed.

Lemma Heartbeat_accepted now r nodename host r' display_name nodename' host' :
  Heartbeat now r nodename host = (r', None, Some (display_name, nodename', host')) ->
  reportedTime r' = <[display_name := now]> (reportedTime r) /\
  validateNumber r' =
    match reportedTime r !! display_name with
    | None => validateNumber r
    | Some last_report =>
        if HeartbeatTimeout now last_report
        then delete display_name (validateNumber r)
        else validateNumber r
    end.
Proof.
  unfold Heartbeat. intros H.
  destruct (ContainsParen nodename); [done |].
  destruct (ParseHostAddress host) as [[[hostname port] h]|]; [| done].
  by simplify_eq/=.
Qed.

(** X10. A heartbeat from a [Ready] node that has not timed out keeps it
    [Ready]: the validation state is untouched, the run of [Validate] the
    heartbeat starts changes nothing whatever the worker would answer, and
    the node is reported [Ready] at the time of the heartbeat. *)
Theorem Heartbeat_keeps_ready now r nodename host r' display_name nodename' host'
    last_report outcome :
  Heartbeat now r nodename host = (r', None, Some (display_name, nodename', host')) ->
  reportedTime r !! display_name = Some last_report ->
  HeartbeatTimeout now last_report = false ->
  validateNumber r !! display_name = Some (-1) ->
  0 <= HeartbeatTimeoutDuration ->
  let vn := Validate display_name nodename' host' outcome (validateNumber r') in
  vn = validateNumber r /\
  nodeState now {| reportedTime := reportedTime r'; validateNumber := vn |} display_name now
  = NodeState_Ready.
Proof.
  intros H Hlast Halive Hready Hto vn.
  apply Heartbeat_accepted in H as [Htime Hvn].
  rewrite Hlast, Halive in Hvn.
  assert (Hsame : vn = validateNumber r).
  { subst vn. rewrite Hvn. unfold Validate, ValidateBegin. by rewrite Hready. }
  split; [done |].
  unfold nodeState. simpl. rewrite Hsame, Hready.
  replace (HeartbeatTimeout now now) with false; [done |].
  symmetry. apply HeartbeatTimeout_false. unfold Since, Go.MinInt64, Go.MaxInt64. lia.
Qed.


(** X12. A heartbeat with a parenthesis in the node name, or with a host
    that does not parse, is refused: the registry is unchanged and no
    validation is started.  An accepted heartbeat changes the registry only
    at its own display name. *)
Theorem Heartbeat_frame now r nodename host :
  (ContainsParen nodename = true ->
   Heartbeat now r nodename host = (r, Some (InvalidNodename nodename), None)) /\
  (ContainsParen nodename = false -> ParseHostAddress host = None ->
   Heartbeat now r nodename host = (r, Some (InvalidHost host), None)) /\
  (forall r' err started,
      Heartbeat now r nodename host = (r', err, started) ->
      (err <> None -> r' = r /\ started = None) /\
      (forall display_name nodename' host' other,
          started = Some (display_name, nodename', host') ->
          other <> display_name ->
          reportedTime r' !! other = reportedTime r !! other /\
          validateNumber r' !! other = validateNumber r !! other)).
Proof.
  unfold Heartbeat. split; [by intros -> |]. split; [by intros -> -> |].
  intros r' err started H.
  destruct (ContainsParen nodename); [by simplify_eq/= |].
  destruct (ParseHostAddress host) as [[[hostname port] h]|]; [| by simplify_eq/=].
  simplify_eq/=. split; [done |].
  intros display_name nodename' host' other [= <- <- <-] Hother.
  rewrite lookup_insert_ne by done. split; [done |].
  destruct (reportedTime r !! _) as [last|]; [| done].
  destruct (HeartbeatTimeout now last); [| done].
  by rewrite lookup_delete_ne.
Qed.

(** ** Further properties of [GetNodes] and of node selection *)

Lemma reported_Name now r pattern state entry node :
  reported now r pattern state entry = Some node -> Name node = entry.1.
Proof.
  unfold reported. destruct (MatchString pattern entry.1).1; [| done].
  destruct (_ || _); [| done]. by intros [= <-].
Qed.

Lemma reported_names_sublist now r pattern state (l : list (string * Z)) :
  Name <$> omap (reported now r pattern state) l `sublist_of` l.*1.
Proof.
  induction l as [|entry l IH]; simpl; [done |].
  destruct (reported now r pattern state entry) as [node|] eqn:Hrep; simpl.
  - rewrite (reported_Name _ _ _ _ _ _ Hrep). by apply sublist_skip.
  - by apply sublist_cons.
Qed.

Lemma nodeState_known now r nodename last_report :
  nodeState now r nodename last_report <> NodeState_Unknown.
Proof.
  unfold nodeState. destruct (HeartbeatTimeout now last_report); [done |].
  destruct (validateNumber r !! nodename) as [number|]; [| done].
  by destruct (number <? 0).
Qed.

Lemma reported_filter now r pattern state entry :
  state <> NodeState_Unknown ->
  reported now r pattern state entry
  = reported now r pattern NodeState_Unknown entry ≫= fun node =>
      if bool_decide (State node = state) then Some node else None.
Proof.
  intros Hstate. unfold reported.
  destruct (MatchString pattern entry.1).1; [| done].
  rewrite (bool_decide_eq_false_2 (state = NodeState_Unknown)) by done.
  rewrite (bool_decide_eq_true_2 (NodeState_Unknown = NodeState_Unknown)) by done.
  simpl.
  destruct (decide (state = nodeState now r entry.1 entry.2)) as [Heq | Hne].
  - rewrite (bool_decide_eq_true_2 _ Heq).
    by rewrite (bool_decide_eq_true_2 (nodeState now r entry.1 entry.2 = state)).
  - rewrite (bool_decide_eq_false_2 _ Hne).
    rewrite (bool_decide_eq_false_2 (nodeState now r entry.1 entry.2 = state));
      [done | congruence].
Qed.

Lemma GetNodes_names_NoDup now r pattern state :
  NoDup (Name <$> (GetNodes now r pattern state).1).
Proof using Range_spec.
  rewrite GetNodes_reported.
  eapply sublist_NoDup; [apply Range_NoDup | apply reported_names_sublist].
Qed.

Lemma reported_filter_omap now r pattern state (l : list (string * Z)) :
  state <> NodeState_Unknown ->
  omap (reported now r pattern state) l
  = List.filter (fun node => bool_decide (State node = state))
                (omap (reported now r pattern NodeState_Unknown) l).
Proof.
  intros Hstate.
  induction l as [|entry l IH]; [done |].
  simpl. rewrite (reported_filter _ _ _ _ _ Hstate).
  destruct (reported now r pattern NodeState_Unknown entry) as [node|]; simpl;
    [| exact IH].
  destruct (bool_decide (State node = state)); [| exact IH].
  f_equal. exact IH.
Qed.

(** The nodes the first loop of [GetValidNodes] collects are those
    [GetNodes] reports [Ready]. *)
Lemma readyNodes_valid now r pattern (l : list (string * Z)) :
  forall acc res,
    fold_left (fun acc entry => acc ≫= fun acc => readyStep now r pattern acc entry)
              l (Some acc) = Some res ->
    res.2 = acc.2 ++ (Name <$> omap (reported now r pattern NodeState_Ready) l).
Proof.
  induction l as [|[node last_report] l IH]; intros [ready valid] res; simpl.
  - intros [= <-]. by rewrite app_nil_r.
  - unfold reported at 1. simpl. unfold nodeState.
    destruct (validateNumber r !! node) as [number|].
    + destruct (number <? 0); simpl.
      * destruct (HeartbeatTimeout now last_report); simpl.
        -- destruct (MatchString pattern node).1; simpl; apply IH.
        -- destruct (MatchString pattern node).1; simpl; [| apply IH].
           destruct (ParseHost node) as [host|]; simpl.
           ++ intros H. apply IH in H. simpl in H. by rewrite H, <- app_assoc.
           ++ by rewrite readyNodes_panic.
      * destruct (HeartbeatTimeout now last_report);
          destruct (MatchString pattern node).1; simpl; apply IH.
    + destruct (HeartbeatTimeout now last_report);
        destruct (MatchString pattern node).1; simpl; apply IH.
Qed.

(** Every value of the index of ready nodes is one of the nodes collected. *)
Lemma readyNodes_index now r pattern (l : list (string * Z)) :
  forall acc res,
    fold_left (fun acc entry => acc ≫= fun acc => readyStep now r pattern acc entry)
              l (Some acc) = Some res ->
    (forall k v, acc.1 !! k = Some v -> v ∈ acc.2) ->
    forall k v, res.1 !! k = Some v -> v ∈ res.2.
Proof.
  induction l as [|[node last_report] l IH]; intros [ready valid] res; simpl.
  - by intros [= <-].
  - destruct (validateNumber r !! node) as [number|]; [| apply IH].
    destruct ((number <? 0) && negb (HeartbeatTimeout now last_report)); [| apply IH].
    destruct (negb (MatchString pattern node).1); [apply IH |].
    destruct (ParseHost node) as [host|]; simpl; [| by rewrite readyNodes_panic].
    intros H Hacc. apply (IH _ _ H). simpl.
    intros k v. rewrite elem_of_app, list_elem_of_singleton.
    intros [[_ <-] | [_ [[_ <-] | [_ Hk]]%lookup_insert_Some]]%lookup_insert_Some;
      [by right | by right |].
    left. by eapply Hacc.
Qed.

Lemma pickStep_valid ready_nodes nodes :
  forall valid added invalid v,
    v ∈ (fold_left (pickStep ready_nodes) nodes (valid, added, invalid)).1.1 ->
    v ∈ valid \/ exists node, node ∈ nodes /\ ready_nodes !! ToUpper node = Some v.
Proof.
  induction nodes as [|node nodes IH]; intros valid added invalid v; simpl; [by left |].
  assert (Hlater :
    (v ∈ valid \/ exists n, n ∈ nodes /\ ready_nodes !! ToUpper n = Some v) ->
    v ∈ valid \/ exists n, n ∈ node :: nodes /\ ready_nodes !! ToUpper n = Some v).
  { intros [? | (n & ? & ?)]; [by left | right]. exists n. split; [by right | done]. }
  destruct (ready_nodes !! ToUpper node) as [valid_node|] eqn:Hready;
    [| intros H; by apply Hlater, (IH _ _ _ _ H)].
  destruct (added !! valid_node) as [b|];
    [intros H; by apply Hlater, (IH _ _ _ _ H) |].
  intros H. apply IH in H as [[H | ->%list_elem_of_singleton]%elem_of_app | H].
  - by left.
  - right. exists node. split; [by left | done].
  - by apply Hlater; right.
Qed.



Lemma nodeState_Ready now r nodename last_report :
  nodeState now r nodename last_report = NodeState_Ready <->
  HeartbeatTimeout now last_report = false /\
  exists number, validateNumber r !! nodename = Some number /\ number < 0.
Proof.
  unfold nodeState. destruct (HeartbeatTimeout now last_report).
  { split; [done | by intros [? _]]. }
  destruct (validateNumber r !! nodename) as [number|].
  - destruct (Z.ltb_spec number 0); split; try done.
    + intros _. split; [done |]. by exists number.
    + intros [_ (n & [= <-] & ?)]. lia.
  - split; [done |]. by intros [_ (n & ? & _)].
Qed.

Lemma ready_names now r pattern v :
  v ∈ Name <$> omap (reported now r pattern NodeState_Ready) (Range (reportedTime r)) <->
  exists last_report number,
    reportedTime r !! v = Some last_report /\
    HeartbeatTimeout now last_report = false /\
    validateNumber r !! v = Some number /\ number < 0 /\
    (MatchString pattern v).1 = true.
Proof using Range_spec.
  rewrite list_elem_of_fmap. split.
  - intros (node & -> & Hin).
    apply list_elem_of_omap in Hin as ([n t] & Hentry & Hrep).
    apply Range_lookup in Hentry. unfold reported in Hrep. simpl in Hrep.
    destruct (MatchString pattern n).1 eqn:Hmatch; [| done].
    destruct (bool_decide (NodeState_Ready = nodeState now r n t)) eqn:Hst; [| done].
    apply bool_decide_eq_true_1 in Hst. symmetry in Hst.
    apply nodeState_Ready in Hst as (Halive & number & Hnum & Hneg).
    simpl in Hrep. injection Hrep as <-. simpl. by exists t, number.
  - intros (t & number & Hreg & Halive & Hnum & Hneg & Hmatch).
    assert (Hst : nodeState now r v t = NodeState_Ready).
    { apply nodeState_Ready. split; [done |]. by exists number. }
    exists {| Name := v; State := NodeState_Ready |}. split; [done |].
    apply list_elem_of_omap. exists (v, t). split; [by apply Range_lookup |].
    unfold reported. simpl. rewrite Hmatch, Hst. done.
Qed.

(** Without requested names the valid nodes are the ready nodes of the
    traversal, in its order. *)
Lemma GetValidNodes_ready now r pattern valid invalid :
  GetValidNodes now r [] pattern = Some (valid, invalid) ->
  invalid = [] /\
  valid = Name <$> omap (reported now r pattern NodeState_Ready) (Range (reportedTime r)).
Proof.
  unfold GetValidNodes, readyNodes.
  destruct (fold_left _ _ _) as [[ready_nodes valid_nodes]|] eqn:Hready; [| done].
  simpl. intros [= <- <-]. split; [done |].
  by apply readyNodes_valid in Hready.
Qed.

(** X15. Every node that node resolution returns as valid, from the pattern
    or from a requested name, is registered, has not timed out, has a
    negative validation state and matches the pattern. *)
Theorem GetValidNodes_sound now r nodes pattern valid invalid v :
  GetValidNodes now r nodes pattern = Some (valid, invalid) ->
  v ∈ valid ->
  exists last_report number,
    reportedTime r !! v = Some last_report /\
    HeartbeatTimeout now last_report = false /\
    validateNumber r !! v = Some number /\ number < 0 /\
    (MatchString pattern v).1 = true.
Proof using Range_spec.
  unfold GetValidNodes, readyNodes. intros H Hin. apply ready_names.
  destruct (fold_left _ _ _) as [[ready_nodes valid_nodes]|] eqn:Hready; [| done].
  pose proof (readyNodes_valid _ _ _ _ _ _ Hready) as Hpool. simpl in Hpool, H.
  rewrite <- Hpool.
  destruct (0 <? List.length nodes)%nat; [| by simplify_eq].
  pose proof (pickStep_valid ready_nodes nodes [] ∅ [] v) as Hpick.
  destruct (fold_left (pickStep ready_nodes) nodes ([], ∅, [])) as [[v' a] inv].
  simplify_eq/=. destruct (Hpick Hin) as [?%elem_of_nil | (node & _ & Hnode)]; [done |].
  eapply (readyNodes_index _ _ _ _ _ _ Hready); [| exact Hnode].
  intros k x. simpl. by rewrite lookup_empty.
Qed.


(** ** Further properties of the dispatcher *)

(** The record a handler leaves for its node; [None] when it returns before
    its first store. *)
Definition recorded (save_output : bool) (run : NodeRun) : option jobOnNode :=
  if save_output && negb (files_created run) then None
  else if negb (connected run) then
    Some {| state := JobState_Dispatching; exitCode := 0 |}
  else if negb (started run) then
    Some {| state := JobState_Failed; exitCode := 0 |}
  else if recv_failed run then
    Some {| state := JobState_Running; exitCode := 0 |}
  else if lastExitCode (outputs run) =? 0 then
    Some {| state := JobState_Finished; exitCode := 0 |}
  else Some {| state := JobState_Failed; exitCode := lastExitCode (outputs run) |}.

Lemma StartJobOnNode_recorded id command node job_on_nodes save_output run :
  (StartJobOnNode id command node job_on_nodes save_output run).1 !! node
  = match recorded save_output run with
    | Some j => Some j
    | None => job_on_nodes !! node
    end.
Proof.
  unfold StartJobOnNode, recorded. rewrite <- (receive_exit_code node).
  destruct (save_output && negb (files_created run)); [done |].
  destruct (negb (connected run)); simpl; [by rewrite lookup_insert_eq |].
  destruct (negb (started run)); simpl; [by rewrite lookup_insert_eq |].
  destruct (receive node (outputs run)) as [exit_code sent]. simpl.
  destruct (recv_failed run); simpl; [by rewrite lookup_insert_eq |].
  destruct (exit_code =? 0); simpl; by rewrite lookup_insert_eq.
Qed.

Lemma dispatchSteps_lookup env id command sweep placeholder sweepSequence
    (l : list (nat * string)) node :
  forall acc,
    NoDup l.*2 ->
    (fold_left (dispatchStep env id command sweep placeholder sweepSequence) l acc).1 !! node
    = if decide (node ∈ l.*2)
      then match recorded (store_output env) (runs env node) with
           | Some j => Some j
           | None => acc.1 !! node
           end
      else acc.1 !! node.
Proof.
  induction l as [|[i other] l IH]; intros acc Hnd.
  - case_decide as Hin; [by apply elem_of_nil in Hin | done].
  - change (((i, other) :: l).*2) with (other :: l.*2) in *.
    apply NoDup_cons in Hnd as [Hnotin Hnd].
    change (fold_left ?f ((i, other) :: l) acc) with (fold_left f l (f acc (i, other))).
    destruct (decide (node = other)) as [-> | Hne].
    + rewrite dispatchSteps_other by done.
      rewrite decide_True by (by left).
      unfold dispatchStep. simpl. apply StartJobOnNode_recorded.
    + rewrite IH by done.
      assert (Hsame :
        (dispatchStep env id command sweep placeholder sweepSequence acc (i, other)).1
          !! node = acc.1 !! node).
      { unfold dispatchStep. simpl. by apply StartJobOnNode_other. }
      rewrite Hsame.
      destruct (decide (node ∈ l.*2)) as [Hin | Hout].
      * rewrite decide_True; [done | by right].
      * rewrite decide_False; [done |]. by intros [? | ?]%elem_of_cons.
Qed.

Lemma dispatch_lookup env id command sweep placeholder sweepSequence nodes node :
  NoDup nodes ->
  (dispatch env id command sweep placeholder sweepSequence nodes).1 !! node
  = if decide (node ∈ nodes) then recorded (store_output env) (runs env node) else None.
Proof.
  intros Hnd. rewrite dispatch_steps, dispatchSteps_lookup.
  - rewrite snd_zip by (rewrite length_seq; lia). simpl. rewrite lookup_empty.
    destruct (decide (node ∈ nodes)); [| done].
    by destruct (recorded _ _).
  - rewrite snd_zip by (rewrite length_seq; lia). done.
Qed.

Lemma jobOnNodes_lookup now r env id command sweep nodes pattern valid invalid node :
  GetValidNodes now r nodes pattern = Some (valid, invalid) ->
  jobOnNodes env id command sweep valid !! node
  = if decide (node ∈ valid) then recorded (store_output env) (runs env node) else None.
Proof using Range_spec.
  intros Hvalid. unfold jobOnNodes.
  rewrite dispatch_lookup
    by (rewrite SortStrings_perm; by eapply GetValidNodes_NoDup).
  destruct (decide (node ∈ valid)) as [Hin | Hout].
  - rewrite decide_True; [done | by rewrite SortStrings_perm].
  - rewrite decide_False; [done | by rewrite SortStrings_perm].
Qed.

(** X17. The handlers leave records only for the nodes of the job, and a
    handler that returns early leaves these: no record at all when the
    output files cannot be created; [Dispatching] when the dial fails;
    [Failed] with exit code 0 when [StartJob] fails at once, and the node is
    then among the failed nodes with exit code 0. *)
Theorem StartJobOnNode_early_exits now r env id command sweep nodes pattern valid invalid
    node :
  GetValidNodes now r nodes pattern = Some (valid, invalid) ->
  let job_on_nodes := jobOnNodes env id command sweep valid in
  let run := runs env node in
  let files_ok := negb (store_output env) || files_created run in
  (node ∉ valid -> job_on_nodes !! node = None) /\
  (node ∈ valid ->
   (files_ok = false -> job_on_nodes !! node = None) /\
   (files_ok = true -> connected run = false ->
    job_on_nodes !! node = Some {| state := JobState_Dispatching; exitCode := 0 |} /\
    failedNodesOf job_on_nodes !! node = None) /\
   (files_ok = true -> connected run = true -> started run = false ->
    job_on_nodes !! node = Some {| state := JobState_Failed; exitCode := 0 |} /\
    failedNodesOf job_on_nodes !! node = Some 0)).
Proof using Range_spec.
  intros Hvalid job_on_nodes run files_ok.
  assert (Hlookup := jobOnNodes_lookup _ _ env id command sweep _ _ _ _ node Hvalid).
  fold job_on_nodes in Hlookup. unfold failedNodesOf. rewrite lookup_omap, Hlookup.
  split.
  - intros Hout. by rewrite decide_False.
  - intros Hin. rewrite decide_True by done.
    subst files_ok run. unfold recorded.
    destruct (store_output env), (files_created (runs env node)),
      (connected (runs env node)), (started (runs env node)); simpl;
      repeat split; intros; done.
Qed.


(** A reply about [node]: output or exit code, not the header. *)
Definition isReplyOf (node : string) (e : Effect) : bool :=
  match e with
  | Send reply => bool_decide (Node reply = node) && bool_decide (Nodes reply = [])
  | _ => false
  end.

(** The reply that ends the stream of a node. *)
Definition terminalReply (node : string) (exit_code : Z) : StartClusJobReply :=
  {| JobId := 0; Nodes := []; Node := node; Stdout := ""; Stderr := "";
     ExitCode := exit_code |}.

(** The handler got a stream from the worker. *)
Definition streamed (save_output : bool) (run : NodeRun) : bool :=
  (negb save_output || files_created run) && connected run && started run.

(** The replies a handler sends: the outputs forwarded in the order
    received, then the exit code if the stream ended with EOF. *)
Definition repliesOf (node : string) (save_output : bool) (run : NodeRun) : list Effect :=
  if streamed save_output run then
    flat_map (redirect node) (outputs run)
    ++ (if recv_failed run then []
        else [Send (terminalReply node (lastExitCode (outputs run)))])
  else [].

Lemma receive_flat_map node outputs :
  (receive node outputs).2 = flat_map (redirect node) outputs.
Proof.
  unfold receive.
  induction outputs as [|output outputs IH] using rev_ind; [done |].
  rewrite fold_left_app, flat_map_app. simpl.
  destruct (fold_left _ outputs _) as [exit_code sent]. simpl in *.
  by rewrite IH, app_nil_r.
Qed.

Lemma redirect_replies node node' output :
  List.filter (isReplyOf node) (redirect node' output)
  = if decide (node' = node) then redirect node' output else [].
Proof.
  unfold redirect.
  destruct (decide (node' = node)) as [-> | Hne].
  - destruct (negb _), (negb _); simpl;
      rewrite ?bool_decide_eq_true_2 by done; done.
  - destruct (negb _), (negb _); simpl;
      rewrite ?(bool_decide_eq_false_2 (node' = node)) by done; done.
Qed.

Lemma flat_map_redirect_replies node node' outputs :
  List.filter (isReplyOf node) (flat_map (redirect node') outputs)
  = if decide (node' = node) then flat_map (redirect node') outputs else [].
Proof.
  induction outputs as [|output outputs IH]; simpl; [by case_decide |].
  rewrite List.filter_app, IH, redirect_replies. by case_decide.
Qed.

Lemma StartJobOnNode_replies id command node' job_on_nodes save_output run node :
  List.filter (isReplyOf node)
              (StartJobOnNode id command node' job_on_nodes save_output run).2
  = if decide (node' = node) then repliesOf node' save_output run else [].
Proof.
  unfold StartJobOnNode, repliesOf, streamed.
  rewrite <- (receive_exit_code node'), <- (receive_flat_map node').
  destruct (save_output && negb (files_created run)) eqn:Hfiles.
  { apply andb_true_iff in Hfiles as [-> ->%negb_true_iff]. simpl. by case_decide. }
  assert (negb save_output || files_created run = true) as ->
    by (destruct save_output, (files_created run); done).
  destruct (connected run); simpl; [| by case_decide].
  destruct (started run); simpl; [| by case_decide].
  pose proof (flat_map_redirect_replies node node' (outputs run)) as Hout.
  rewrite <- receive_flat_map in Hout.
  destruct (receive node' (outputs run)) as [exit_code sent]. simpl in *.
  destruct (recv_failed run); simpl.
  { rewrite Hout, app_nil_r. by case_decide. }
  assert (Hterm :
    List.filter (isReplyOf node) [Send (terminalReply node' exit_code)]
    = if decide (node' = node) then [Send (terminalReply node' exit_code)] else []).
  { simpl. case_decide as Heq.
    - by rewrite bool_decide_eq_true_2.
    - by rewrite (bool_decide_eq_false_2 (node' = node)). }
  destruct (exit_code =? 0); simpl;
    rewrite List.filter_app, Hout; fold (terminalReply node' exit_code);
    rewrite Hterm; by case_decide.
Qed.

Lemma dispatchSteps_replies env id command sweep placeholder sweepSequence
    (l : list (nat * string)) node :
  forall acc,
    NoDup l.*2 ->
    List.filter (isReplyOf node)
      (fold_left (dispatchStep env id command sweep placeholder sweepSequence) l acc).2
    = List.filter (isReplyOf node) acc.2
      ++ (if decide (node ∈ l.*2)
          then repliesOf node (store_output env) (runs env node) else []).
Proof.
  induction l as [|[i other] l IH]; intros acc Hnd.
  - simpl. rewrite app_nil_r. done.
  - change (((i, other) :: l).*2) with (other :: l.*2) in *.
    apply NoDup_cons in Hnd as [Hnotin Hnd].
    change (fold_left ?f ((i, other) :: l) acc) with (fold_left f l (f acc (i, other))).
    rewrite IH by done. unfold dispatchStep at 1. simpl.
    rewrite List.filter_app, StartJobOnNode_replies, <- app_assoc. f_equal.
    destruct (decide (other = node)) as [-> | Hne].
    + rewrite decide_False by done. rewrite decide_True by (by left).
      by rewrite app_nil_r.
    + simpl. destruct (decide (node ∈ l.*2)) as [Hin | Hout].
      * rewrite decide_True; [done | by right].
      * rewrite decide_False; [done |]. intros [? | ?]%elem_of_cons; congruence.
Qed.

Lemma dispatch_replies env id command sweep placeholder sweepSequence nodes node :
  NoDup nodes ->
  List.filter (isReplyOf node)
              (dispatch env id command sweep placeholder sweepSequence nodes).2
  = if decide (node ∈ nodes) then repliesOf node (store_output env) (runs env node)
    else [].
Proof.
  intros Hnd. rewrite dispatch_steps, dispatchSteps_replies.
  - by rewrite snd_zip by (rewrite length_seq; lia).
  - by rewrite snd_zip by (rewrite length_seq; lia).
Qed.

(** The calls of an accepted job, in full. *)
Lemma StartClusJob_effects now r env command nodes pattern sweep valid id :
  GetValidNodes now r nodes pattern = Some (valid, []) ->
  valid <> [] ->
  Go.Contains command (parseSweep sweep (List.length valid)).1 = true ->
  created env = inl id ->
  header_sent env = None ->
  StartClusJob now r env command nodes pattern sweep
  = (Returned None,
     [CreateNewJob command sweep (SortStrings valid);
      Send (headerReply id (SortStrings valid));
      UpdateJobState id JobState_Created JobState_Dispatching;
      UpdateJobState id JobState_Dispatching JobState_Running]
     ++ (dispatch env id command sweep (parseSweep sweep (List.length valid)).1
                  (parseSweep sweep (List.length valid)).2 (SortStrings valid)).2
     ++ [updateJob id (failedNodesOf (jobOnNodes env id command sweep valid))]).
Proof.
  intros Hvalid Hne Hcontains Hcreated Hsent.
  unfold StartClusJob, jobOnNodes. rewrite Hvalid. simpl.
  destruct (SortStrings valid) as [|n sorted] eqn:Hsorted;
    [destruct Hne; by apply SortStrings_nil |].
  rewrite <- Hsorted, SortStrings_length.
  replace (List.length valid =? 0)%nat with false
    by (destruct valid; [by destruct Hne | done]).
  destruct (parseSweep sweep (List.length valid)) as [placeholder sweepSequence].
  simpl in Hcontains |- *. rewrite Hcontains, Hcreated, Hsent. simpl.
  by destruct (dispatch env id command sweep placeholder sweepSequence (SortStrings valid)).
Qed.

(** X19. In an accepted job the replies sent about a node are, in this
    order: for each message received from its worker the non-empty standard
    output, then the non-empty standard error; and last, only when the
    stream ended with EOF, one reply with the last exit code.  A node whose
    worker gave no stream gets no reply. *)
Theorem StartClusJob_node_replies now r env command nodes pattern sweep valid id node :
  GetValidNodes now r nodes pattern = Some (valid, []) ->
  Go.Contains command (parseSweep sweep (List.length valid)).1 = true ->
  created env = inl id ->
  header_sent env = None ->
  node ∈ valid ->
  let run := runs env node in
  List.filter (isReplyOf node) (StartClusJob now r env command nodes pattern sweep).2
  = if streamed (store_output env) run then
      flat_map (redirect node) (outputs run)
      ++ (if recv_failed run then []
          else [Send (terminalReply node (lastExitCode (outputs run)))])
    else [].
Proof using Range_spec.
  intros Hvalid Hcontains Hcreated Hsent Hin run.
  assert (Hne : valid <> []) by (intros ->; by apply elem_of_nil in Hin).
  rewrite (StartClusJob_effects _ _ _ _ _ _ _ _ _ Hvalid Hne Hcontains Hcreated Hsent).
  cbn [snd]. rewrite !List.filter_app.
  rewrite dispatch_replies by (rewrite SortStrings_perm; by eapply GetValidNodes_NoDup).
  rewrite decide_True by (by rewrite SortStrings_perm).
  assert (Hhead : List.filter (isReplyOf node)
            [CreateNewJob command sweep (SortStrings valid);
             Send (headerReply id (SortStrings valid));
             UpdateJobState id JobState_Created JobState_Dispatching;
             UpdateJobState id JobState_Dispatching JobState_Running] = []).
  { simpl. rewrite (bool_decide_eq_false_2 (SortStrings valid = [])).
    - by rewrite andb_false_r.
    - by rewrite SortStrings_nil. }
  rewrite Hhead. simpl.
  replace (isReplyOf node (updateJob id _)) with false
    by (rewrite updateJob_cases; by case_decide).
  by rewrite app_nil_r.
Qed.

Lemma filter_andb {A} (p q : A -> bool) (l : list A) :
  List.filter (fun x => p x && q x) l = List.filter q (List.filter p l).
Proof.
  induction l as [|x l IH]; simpl; [done |].
  destruct (p x); simpl; [| exact IH]. destruct (q x); by rewrite IH.
Qed.

(** The reply that opens the stream: the only one that lists nodes. *)
Definition isHeader (e : Effect) : bool :=
  match e with
  | Send reply => negb (bool_decide (Nodes reply = []))
  | _ => false
  end.

(** A reply without output text. *)
Definition isBare (e : Effect) : bool :=
  match e with
  | Send reply => bool_decide (Stdout reply = ""%string) && bool_decide (Stderr reply = ""%string)
  | _ => false
  end.

Lemma StartJobOnNode_no_header id command node job_on_nodes save_output run :
  List.filter isHeader (StartJobOnNode id command node job_on_nodes save_output run).2 = [].
Proof.
  unfold StartJobOnNode.
  assert (Hout : forall received,
             List.filter isHeader (flat_map (redirect node) received) = []).
  { intros received. induction received as [|output received IH]; [done |].
    simpl. rewrite List.filter_app, IH, app_nil_r.
    unfold redirect. destruct (negb _), (negb _); reflexivity. }
  specialize (Hout (outputs run)). rewrite <- receive_flat_map in Hout.
  destruct (save_output && negb (files_created run)); [done |].
  destruct (negb (connected run)); [done |].
  destruct (negb (started run)); [done |].
  destruct (receive node (outputs run)) as [exit_code sent]. simpl in Hout.
  destruct (recv_failed run); simpl; [done |].
  destruct (exit_code =? 0); simpl; by rewrite List.filter_app, Hout.
Qed.

Lemma dispatch_no_header env id command sweep placeholder sweepSequence nodes :
  List.filter isHeader
              (dispatch env id command sweep placeholder sweepSequence nodes).2 = [].
Proof.
  rewrite dispatch_steps.
  generalize (zip (seq 0 (List.length nodes)) nodes) as l.
  assert (H : forall (l : list (nat * string)) acc,
             List.filter isHeader acc.2 = [] ->
             List.filter isHeader
               (fold_left (dispatchStep env id command sweep placeholder sweepSequence)
                          l acc).2 = []).
  { induction l as [|item l IH]; intros acc Hacc; [done |].
    apply IH. unfold dispatchStep. simpl.
    by rewrite List.filter_app, Hacc, StartJobOnNode_no_header. }
  intros l. by apply H.
Qed.

Lemma redirect_not_bare node (received : list StartJobReply) :
  List.filter isBare (flat_map (redirect node) received) = [].
Proof.
  induction received as [|output received IH]; [done |].
  simpl. rewrite List.filter_app, IH, app_nil_r. unfold redirect.
  destruct (String.eqb_spec (out_stdout output) "") as [Ho | Ho],
           (String.eqb_spec (out_stderr output) "") as [He | He];
    cbn [negb app List.filter isBare Stdout Stderr];
    rewrite ?(bool_decide_eq_false_2 _ Ho), ?(bool_decide_eq_false_2 _ He),
      ?andb_false_r; reflexivity.
Qed.

Lemma repliesOf_terminal node save_output run :
  List.filter isBare (repliesOf node save_output run)
  = if streamed save_output run && negb (recv_failed run)
    then [Send (terminalReply node (lastExitCode (outputs run)))] else [].
Proof.
  unfold repliesOf. destruct (streamed save_output run); [| done].
  rewrite List.filter_app, redirect_not_bare.
  by destruct (recv_failed run).
Qed.

(** X20. An accepted job sends exactly one header reply, right after the
    job is created and before every other reply, and about each of its nodes
    at most one reply without output text: the exit code, sent exactly when
    the stream of the node ended with EOF. *)
Theorem StartClusJob_header_and_exit_codes now r env command nodes pattern sweep valid id :
  GetValidNodes now r nodes pattern = Some (valid, []) ->
  valid <> [] ->
  Go.Contains command (parseSweep sweep (List.length valid)).1 = true ->
  created env = inl id ->
  header_sent env = None ->
  let effects := (StartClusJob now r env command nodes pattern sweep).2 in
  (exists rest,
      effects = CreateNewJob command sweep (SortStrings valid)
                :: Send (headerReply id (SortStrings valid)) :: rest) /\
  List.filter isHeader effects = [Send (headerReply id (SortStrings valid))] /\
  (forall node,
      node ∈ valid ->
      List.filter (fun e => isReplyOf node e && isBare e) effects
      = if streamed (store_output env) (runs env node)
           && negb (recv_failed (runs env node))
        then [Send (terminalReply node (lastExitCode (outputs (runs env node))))]
        else []).
Proof using Range_spec.
  intros Hvalid Hne Hcontains Hcreated Hsent effects. subst effects.
  rewrite (StartClusJob_effects _ _ _ _ _ _ _ _ _ Hvalid Hne Hcontains Hcreated Hsent).
  cbn [snd].
  assert (Hsorted : SortStrings valid <> []) by (by rewrite SortStrings_nil).
  split; [by eexists |]. split.
  - rewrite !List.filter_app, dispatch_no_header. simpl.
    rewrite (bool_decide_eq_false_2 _ Hsorted). simpl.
    rewrite updateJob_cases. by case_decide.
  - intros node Hin. rewrite filter_andb, !List.filter_app.
    rewrite dispatch_replies by (rewrite SortStrings_perm; by eapply GetValidNodes_NoDup).
    rewrite decide_True by (by rewrite SortStrings_perm).
    simpl. rewrite (bool_decide_eq_false_2 _ Hsorted), andb_false_r.
    replace (isReplyOf node (updateJob id _)) with false
      by (rewrite updateJob_cases; by case_decide).
    rewrite app_nil_r. simpl. apply repliesOf_terminal.
Qed.

(** X21. When the job store cannot create the job, the RPC returns its
    error after that one call; when the header cannot be sent, the job has
    been created but the RPC returns the error of the stream without calling
    any worker and without any update of the job, which stays as created. *)
Theorem StartClusJob_store_or_stream_fails now r env command nodes pattern sweep valid :
  GetValidNodes now r nodes pattern = Some (valid, []) ->
  valid <> [] ->
  Go.Contains command (parseSweep sweep (List.length valid)).1 = true ->
  (forall err,
      created env = inr err ->
      StartClusJob now r env command nodes pattern sweep
      = (Returned (Some (CreateFailed err)),
         [CreateNewJob command sweep (SortStrings valid)])) /\
  (forall id err,
      created env = inl id -> header_sent env = Some err ->
      StartClusJob now r env command nodes pattern sweep
      = (Returned (Some (SendFailed err)),
         [CreateNewJob command sweep (SortStrings valid);
          Send (headerReply id (SortStrings valid))])).
Proof.
  intros Hvalid Hne Hcontains.
  unfold StartClusJob. rewrite Hvalid. simpl.
  destruct (SortStrings valid) as [|n sorted] eqn:Hsorted;
    [destruct Hne; by apply SortStrings_nil |].
  rewrite <- Hsorted, SortStrings_length.
  replace (List.length valid =? 0)%nat with false
    by (destruct valid; [by destruct Hne | done]).
  destruct (parseSweep sweep (List.length valid)) as [placeholder sweepSequence].
  simpl in Hcontains |- *. rewrite Hcontains. simpl.
  split.
  - intros err ->. done.
  - intros id err -> ->. done.
Qed.

(** The handler reaches the call of [StartJob] on the worker. *)
Definition calledWorker (save_output : bool) (run : NodeRun) : bool :=
  (negb save_output || files_created run) && connected run.

Lemma StartJobOnNode_calls id command node job_on_nodes save_output run n i c :
  StartJob n i c ∈ (StartJobOnNode id command node job_on_nodes save_output run).2 <->
  n = node /\ i = int32 id /\ c = command /\ calledWorker save_output run = true.
Proof.
  unfold StartJobOnNode, calledWorker.
  assert (Hsent : forall sent, Forall isSend sent -> StartJob n i c ∉ sent).
  { intros sent Hall Hin. rewrite Forall_forall in Hall. by apply Hall in Hin. }
  destruct (save_output && negb (files_created run)) eqn:Hfiles.
  { apply andb_true_iff in Hfiles as [-> ->%negb_true_iff]. simpl.
    split; [by intros ?%elem_of_nil | by intros (_ & _ & _ & ?)]. }
  assert (negb save_output || files_created run = true) as ->
    by (destruct save_output, (files_created run); done).
  destruct (connected run); simpl;
    [| split; [by intros ?%elem_of_nil | by intros (_ & _ & _ & ?)]].
  assert (Hhead : forall sent,
             Forall isSend sent ->
             StartJob n i c ∈ StartJob node (int32 id) command :: sent <->
             n = node /\ i = int32 id /\ c = command /\ true = true).
  { intros sent Hall. rewrite elem_of_cons. split.
    - intros [[= -> -> ->] | Hin]; [done |]. by apply Hsent in Hin.
    - intros (-> & -> & -> & _). by left. }
  destruct (negb (started run)); simpl; [by apply Hhead, Forall_nil |].
  pose proof (receive_sends node (outputs run)) as Hall.
  destruct (receive node (outputs run)) as [exit_code sent]. simpl in Hall.
  destruct (recv_failed run); simpl; [by apply Hhead |].
  destruct (exit_code =? 0); simpl; apply Hhead;
    (apply Forall_app; split; [done | by apply Forall_singleton]).
Qed.

Lemma dispatchSteps_calls_iff env id command sweep placeholder sweepSequence
    (l : list (nat * string)) n i c :
  forall acc,
    StartJob n i c
      ∈ (fold_left (dispatchStep env id command sweep placeholder sweepSequence) l acc).2
    <->
    StartJob n i c ∈ acc.2 \/
    exists k, (k, n) ∈ l /\ i = int32 id /\
              c = nodeCommand command sweep placeholder sweepSequence k /\
              calledWorker (store_output env) (runs env n) = true.
Proof.
  induction l as [|[k node] l IH]; intros acc.
  - simpl. split; [by left |]. intros [? | (k & ?%elem_of_nil & _)]; done.
  - change (fold_left ?f ((k, node) :: l) acc) with (fold_left f l (f acc (k, node))).
    rewrite IH. unfold dispatchStep at 1. simpl.
    rewrite elem_of_app, StartJobOnNode_calls. split.
    + intros [[Hacc | (-> & -> & -> & Hcalled)] | (k' & Hin & Hrest)].
      * by left.
      * right. exists k. split; [by left | done].
      * right. exists k'. split; [by right | done].
    + intros [Hacc | (k' & [[= -> ->] | Hin]%elem_of_cons & Hi & Hc & Hcalled)].
      * by left; left.
      * left. by right.
      * right. by exists k'.
Qed.

Lemma elem_of_zip_seq (nodes : list string) k n :
  (k, n) ∈ zip (seq 0 (List.length nodes)) nodes <-> nodes !! k = Some n.
Proof.
  rewrite list_elem_of_lookup. split.
  - intros (j & Hj). rewrite lookup_zip_with in Hj.
    destruct (seq 0 (List.length nodes) !! j) as [x|] eqn:Hx; [| done].
    destruct (nodes !! j) as [y|] eqn:Hy; [| done].
    simpl in Hj. injection Hj as <- <-.
    apply lookup_seq in Hx as [-> _]. done.
  - intros Hk. exists k. rewrite lookup_zip_with, Hk.
    rewrite lookup_seq_lt by (by eapply lookup_lt_Some). done.
Qed.

Lemma parseSweep_sequence_length sweep count :
  List.length (parseSweep sweep count).2 = count.
Proof.
  unfold parseSweep.
  destruct (parseSweepFields sweep) as [[[[placeholder b] e] s]|]; simpl.
  - by rewrite sweepLoop_terms, sweepTerms_length, indices_length.
  - apply indices_length.
Qed.

(** X22. In an accepted job the workers called are the nodes of the job
    whose output files could be opened and whose dial succeeded, each exactly
    as the node at its position [k] of the sorted node list; with a non-empty
    sweep the command sent is the job's command with the placeholder replaced
    by term [k] of the sweep sequence, which exists, and with the empty sweep
    the command itself. *)
Theorem StartClusJob_worker_calls now r env command nodes pattern sweep valid id n i c :
  GetValidNodes now r nodes pattern = Some (valid, []) ->
  valid <> [] ->
  Go.Contains command (parseSweep sweep (List.length valid)).1 = true ->
  created env = inl id ->
  header_sent env = None ->
  let placeholder := (parseSweep sweep (List.length valid)).1 in
  let sweepSequence := (parseSweep sweep (List.length valid)).2 in
  StartJob n i c ∈ (StartClusJob now r env command nodes pattern sweep).2 <->
  exists k value,
    SortStrings valid !! k = Some n /\
    sweepSequence !! k = Some value /\
    i = int32 id /\
    c = (if (0 <? Go.len sweep)%nat
         then ReplaceAll command placeholder (Go.Itoa value) else command) /\
    calledWorker (store_output env) (runs env n) = true.
Proof.
  intros Hvalid Hne Hcontains Hcreated Hsent placeholder sweepSequence.
  rewrite (StartClusJob_effects _ _ _ _ _ _ _ _ _ Hvalid Hne Hcontains Hcreated Hsent).
  cbn [snd]. fold placeholder sweepSequence.
  rewrite elem_of_app, !elem_of_cons, elem_of_app, list_elem_of_singleton.
  rewrite dispatch_steps, dispatchSteps_calls_iff. simpl.
  split.
  - intros [[[=] | [[=] | [[=] | [[=] | ?%elem_of_nil]]]]
           | [[?%elem_of_nil | (k & Hk & -> & -> & Hcalled)] | Hup]];
      [done | done | | rewrite updateJob_cases in Hup; by case_decide].
    apply elem_of_zip_seq in Hk.
    assert (Hlt : (k < List.length sweepSequence)%nat).
    { subst sweepSequence. rewrite parseSweep_sequence_length.
      apply lookup_lt_Some in Hk. by rewrite SortStrings_length in Hk. }
    destruct (lookup_lt_is_Some_2 _ _ Hlt) as [value Hvalue].
    exists k, value. repeat split; try done.
    unfold nodeCommand. by rewrite (nth_lookup_Some _ _ _ _ Hvalue).
  - intros (k & value & Hk & Hvalue & -> & -> & Hcalled).
    right. left. right. exists k.
    split; [by apply elem_of_zip_seq |]. repeat split; try done.
    unfold nodeCommand. by rewrite (nth_lookup_Some _ _ _ _ Hvalue).
Qed.

(** Increasing byte order of a list of strings. *)
Fixpoint sortedStrings (l : list string) : bool :=
  match l with
  | x :: (y :: _) as rest => String.leb x y && sortedStrings rest
  | _ => true
  end.

Lemma insertString_sorted x l :
  sortedStrings l = true -> sortedStrings (insertString x l) = true.
Proof.
  induction l as [|y l IH]; [done |]. intros Hl. simpl.
  destruct (String.leb x y) eqn:Hxy.
  - simpl. by rewrite Hxy.
  - assert (Hyx : String.leb y x = true)
      by (destruct (String.leb_total x y) as [H | H]; congruence).
    assert (Htail : sortedStrings l = true).
    { destruct l as [|z l]; [done |]. simpl in Hl. by apply andb_true_iff in Hl as [_ ?]. }
    specialize (IH Htail).
    destruct l as [|z l]; simpl in *; [by rewrite Hyx |].
    apply andb_true_iff in Hl as [Hyz _].
    destruct (String.leb x z); simpl; simpl in IH; rewrite ?Hyx, ?Hyz; done.
Qed.

Lemma SortStrings_sorted l : sortedStrings (SortStrings l) = true.
Proof.
  induction l as [|x l IH]; [done |]. by apply insertString_sorted.
Qed.

(** X23. The node list an accepted job passes to the job store and sends in
    its header is one list: the nodes that node resolution returned, without
    duplicates, in increasing byte order.  The invalid names a rejected
    request reports are the invalid names of node resolution in increasing
    byte order. *)
Theorem StartClusJob_sorted_nodes now r env command nodes pattern sweep valid invalid :
  GetValidNodes now r nodes pattern = Some (valid, invalid) ->
  exists sorted sorted_invalid,
    sorted ≡ₚ valid /\ NoDup sorted /\ sortedStrings sorted = true /\
    sorted_invalid ≡ₚ invalid /\ sortedStrings sorted_invalid = true /\
    (invalid <> [] ->
     StartClusJob now r env command nodes pattern sweep
     = (Returned (Some (InvalidNodes sorted_invalid)), [])) /\
    (invalid = [] -> valid <> [] ->
     Go.Contains command (parseSweep sweep (List.length valid)).1 = true ->
     (exists rest,
         (StartClusJob now r env command nodes pattern sweep).2
         = CreateNewJob command sweep sorted :: rest) /\
     (forall id,
         created env = inl id ->
         exists header rest,
           (StartClusJob now r env command nodes pattern sweep).2
           = CreateNewJob command sweep sorted :: Send header :: rest /\
           JobId header = int32 id /\ Nodes header = sorted)).
Proof using Range_spec.
  intros Hvalid. exists (SortStrings valid), (SortStrings invalid).
  split; [apply SortStrings_perm |].
  split; [rewrite SortStrings_perm; by eapply GetValidNodes_NoDup |].
  split; [apply SortStrings_sorted |].
  split; [apply SortStrings_perm |].
  split; [apply SortStrings_sorted |].
  split.
  - intros Hne. unfold StartClusJob. rewrite Hvalid.
    destruct (SortStrings invalid) eqn:Hinv; [destruct Hne; by apply SortStrings_nil |].
    done.
  - intros -> Hne Hcontains. unfold StartClusJob. rewrite Hvalid. simpl.
    assert (Hnz : (List.length valid =? 0)%nat = false) by by destruct valid.
    rewrite SortStrings_length, Hnz.
    destruct (parseSweep sweep (List.length valid)) as [placeholder sweepSequence].
    simpl in Hcontains. rewrite Hcontains. simpl.
    destruct (created env) as [id | err] eqn:Hcreated.
    + destruct (header_sent env) as [err|].
      * split; [by eexists |]. intros ? [= <-]. by eexists _, _.
      * destruct (dispatch _ _ _ _ _ _ _) as [job_on_nodes effects].
        split; [by eexists |]. intros ? [= <-]. by eexists _, _.
    + split; [by eexists |]. intros ? [=].
Qed.

(** ** [CancelJob] and [CancelJobOnNode] *)

(** The calls a cancellation makes on the workers and on the job store. *)
Inductive CancelEffect :=
| CancelJobCall (node : string) (id : Z)
| UpdateCancelledJob (id : Z) (cancel_failed_nodes : list string).

(** What one worker does when asked to cancel: whether the dial succeeded
    and whether its [CancelJob] returned without error. *)
Record CancelRun := { cancel_connected : bool; cancel_accepted : bool }.

(** [sync.Map.Range] on the map of results. *)
Variable RangeResult : gmap string bool -> list (string * bool).
Hypothesis RangeResult_spec : forall m, RangeResult m ≡ₚ map_to_list m.

Definition CancelJobOnNode (id : Z) (node : string) (result : gmap string bool)
    (run : CancelRun) : gmap string bool * list CancelEffect :=
  if negb (cancel_connected run) then (result, [])
  else if negb (cancel_accepted run) then (result, [CancelJobCall node id])
  else (<[node := true]> result, [CancelJobCall node id]).

(** [CancelJob]: the stores of the loop, the handlers one after the other
    (each writes only under its own node), then the collection of the nodes
    not cancelled. *)
Definition CancelJob (id : Z) (nodes : list string) (runs : string -> CancelRun)
  : list CancelEffect :=
  let result := fold_left (fun result node => <[node := false]> result) nodes ∅ in
  let '(result, calls) :=
    fold_left
      (fun '(result, calls) node =>
         let '(result, effects) := CancelJobOnNode id node result (runs node) in
         (result, calls ++ effects))
      nodes (result, []) in
  let cancel_failed_nodes :=
    fold_left
      (fun cancel_failed_nodes '(node, canceled) =>
         if negb canceled then cancel_failed_nodes ++ [node] else cancel_failed_nodes)
      (RangeResult result) [] in
  calls ++ [UpdateCancelledJob id cancel_failed_nodes].

(** The worker cancelled the job. *)
Definition cancelled (run : CancelRun) : bool := cancel_connected run && cancel_accepted run.

Lemma cancel_stores (nodes : list string) :
  forall (result : gmap string bool) node,
    fold_left (fun result node => <[node := false]> result) nodes result !! node
    = if decide (node ∈ nodes) then Some false else result !! node.
Proof.
  induction nodes as [|n nodes IH]; intros result node; cbn [fold_left].
  - case_decide as Hin; [by apply elem_of_nil in Hin | done].
  - rewrite IH. destruct (decide (node ∈ nodes)) as [Hin | Hout].
    + rewrite decide_True; [done | by right].
    + destruct (decide (node = n)) as [-> | Hne].
      * rewrite decide_True by (by left). by rewrite lookup_insert_eq.
      * rewrite decide_False by (by intros [? | ?]%elem_of_cons).
        by rewrite lookup_insert_ne.
Qed.

Definition cancelStep (id : Z) (runs : string -> CancelRun)
    (acc : gmap string bool * list CancelEffect) (node : string)
  : gmap string bool * list CancelEffect :=
  ((CancelJobOnNode id node acc.1 (runs node)).1,
   acc.2 ++ (CancelJobOnNode id node acc.1 (runs node)).2).

Lemma cancel_handlers_steps id runs (nodes : list string) acc :
  fold_left
    (fun '(result, calls) node =>
       let '(result, effects) := CancelJobOnNode id node result (runs node) in
       (result, calls ++ effects))
    nodes acc
  = fold_left (cancelStep id runs) nodes acc.
Proof.
  revert acc. induction nodes as [|node nodes IH]; intros [result calls]; simpl; [done |].
  unfold cancelStep at 2. simpl.
  destruct (CancelJobOnNode id node result (runs node)) as [result' effects]. apply IH.
Qed.

Lemma cancel_handlers_result id runs (nodes : list string) :
  forall acc node,
    (forall n, n ∈ nodes -> is_Some (acc.1 !! n)) ->
    (fold_left (cancelStep id runs) nodes acc).1 !! node
    = if decide (node ∈ nodes)
      then (if cancelled (runs node) then Some true else acc.1 !! node)
      else acc.1 !! node.
Proof.
  induction nodes as [|n nodes IH]; intros acc node Hdom; cbn [fold_left].
  - case_decide as Hin; [by apply elem_of_nil in Hin | done].
  - assert (Hstep : forall x,
      (cancelStep id runs acc n).1 !! x
      = if decide (x = n) then (if cancelled (runs n) then Some true else acc.1 !! x)
        else acc.1 !! x).
    { intros x. unfold cancelStep, CancelJobOnNode, cancelled. simpl.
      destruct (cancel_connected (runs n)), (cancel_accepted (runs n)); simpl;
        case_decide; subst; rewrite ?lookup_insert_eq, ?lookup_insert_ne by done; done. }
    rewrite IH.
    2:{ intros x Hx. rewrite Hstep.
        assert (Hx' : is_Some (acc.1 !! x)).
        { apply Hdom. apply elem_of_cons. by right. }
        case_decide; [| done]. by destruct (cancelled (runs n)). }
    rewrite Hstep.
    destruct (decide (node ∈ nodes)) as [Hin | Hout].
    + rewrite (decide_True (P := node ∈ n :: nodes)) by (by right).
      destruct (cancelled (runs node)) eqn:Hc; [done |].
      case_decide as Heq; [| done]. subst. by rewrite Hc.
    + destruct (decide (node = n)) as [-> | Hne].
      * by rewrite (decide_True (P := n ∈ n :: nodes)) by (by left).
      * by rewrite (decide_False (P := node ∈ n :: nodes))
          by (by intros [? | ?]%elem_of_cons).
Qed.

Lemma cancel_handlers_calls id runs (nodes : list string) n i :
  forall acc,
    CancelJobCall n i ∈ (fold_left (cancelStep id runs) nodes acc).2 <->
    CancelJobCall n i ∈ acc.2 \/
    (n ∈ nodes /\ i = id /\ cancel_connected (runs n) = true).
Proof.
  induction nodes as [|node nodes IH]; intros acc; simpl.
  - split; [by left |]. intros [? | [?%elem_of_nil _]]; done.
  - rewrite IH. unfold cancelStep at 1. simpl. rewrite elem_of_app.
    assert (Hcall :
      CancelJobCall n i ∈ (CancelJobOnNode id node acc.1 (runs node)).2 <->
      n = node /\ i = id /\ cancel_connected (runs n) = true).
    { unfold CancelJobOnNode.
      destruct (cancel_connected (runs node)) eqn:Hc; simpl.
      - assert (CancelJobCall n i ∈ [CancelJobCall node id] <->
                n = node /\ i = id /\ cancel_connected (runs n) = true).
        { rewrite list_elem_of_singleton. split.
          - by intros [= -> ->].
          - by intros (-> & -> & _). }
        by destruct (cancel_accepted (runs node)).
      - split; [by intros ?%elem_of_nil |]. intros (-> & _ & H). congruence. }
    rewrite Hcall, elem_of_cons. split.
    + intros [[? | H] | (Hin & ? & ?)]; [by left | | right; split; [by right | done]].
      destruct H as (-> & -> & ?). right. split; [by left | done].
    + intros [? | ([-> | Hin] & -> & ?)]; [by left; left | by left; right | by right].
Qed.

Lemma cancel_handlers_no_update id runs (nodes : list string) n other :
  forall acc,
    UpdateCancelledJob n other ∈ (fold_left (cancelStep id runs) nodes acc).2 ->
    UpdateCancelledJob n other ∈ acc.2.
Proof.
  induction nodes as [|x nodes IH]; intros acc; simpl; [done |].
  intros H. apply IH in H. unfold cancelStep in H. simpl in H.
  apply elem_of_app in H as [? | H]; [done |].
  unfold CancelJobOnNode in H.
  destruct (negb (cancel_connected (runs x))); simpl in H;
    [by apply elem_of_nil in H |].
  destruct (negb (cancel_accepted (runs x))); simpl in H;
    apply list_elem_of_singleton in H; done.
Qed.

Lemma cancel_failed_fold (l : list (string * bool)) :
  forall failed,
    fold_left
      (fun cancel_failed_nodes '(node, canceled) =>
         if negb canceled then cancel_failed_nodes ++ [node] else cancel_failed_nodes)
      l failed
    = failed ++ omap (fun entry => if negb entry.2 then Some entry.1 else None) l.
Proof.
  induction l as [|[node canceled] l IH]; intros failed; simpl.
  - by rewrite app_nil_r.
  - rewrite IH. destruct canceled; simpl; [done |]. by rewrite <- app_assoc.
Qed.

Lemma cancel_failed_sublist (l : list (string * bool)) :
  omap (fun entry => if negb entry.2 then Some entry.1 else None) l `sublist_of` l.*1.
Proof.
  induction l as [|[node canceled] l IH]; simpl; [done |].
  destruct canceled; simpl; [by apply sublist_cons | by apply sublist_skip].
Qed.

(** X24. [CancelJob] calls [CancelJob] on exactly the nodes it can dial, and
    then reports to the job store, each once, exactly the nodes of the job
    that did not cancel: those it could not dial and those whose call
    returned an error. *)
Theorem CancelJob_failed_nodes id nodes runs :
  exists calls cancel_failed_nodes,
    CancelJob id nodes runs = calls ++ [UpdateCancelledJob id cancel_failed_nodes] /\
    (forall n i, CancelJobCall n i ∈ calls <->
                 n ∈ nodes /\ i = id /\ cancel_connected (runs n) = true) /\
    (forall n other, UpdateCancelledJob n other ∉ calls) /\
    NoDup cancel_failed_nodes /\
    (forall node, node ∈ cancel_failed_nodes <->
                  node ∈ nodes /\ cancelled (runs node) = false).
Proof using RangeResult_spec.
  unfold CancelJob. rewrite cancel_handlers_steps.
  set (stored := fold_left (fun result node => <[node := false]> result) nodes ∅).
  pose proof (cancel_handlers_calls id runs nodes) as Hcalls.
  pose proof (cancel_handlers_result id runs nodes (stored, [])) as Hresult.
  destruct (fold_left (cancelStep id runs) nodes (stored, [])) as [result calls] eqn:Hfold.
  rewrite cancel_failed_fold. simpl.
  eexists _, _. split; [done |].
  assert (Hlookup : forall node,
             result !! node
             = if decide (node ∈ nodes) then Some (cancelled (runs node)) else None).
  { intros node. specialize (Hresult node). simpl in Hresult. rewrite Hresult.
    - subst stored. rewrite cancel_stores, lookup_empty.
      case_decide; [| done]. by destruct (cancelled (runs node)).
    - intros n Hn. subst stored. rewrite cancel_stores, decide_True by done. by eexists. }
  split; [| split; [| split]].
  - intros n i. specialize (Hcalls n i (stored, [])). rewrite Hfold in Hcalls.
    simpl in Hcalls. rewrite Hcalls. split; [| by right].
    by intros [?%elem_of_nil | ?].
  - intros n other Hin.
    pose proof (cancel_handlers_no_update id runs nodes n other (stored, [])) as Hall.
    rewrite Hfold in Hall. by apply Hall, elem_of_nil in Hin.
  - eapply sublist_NoDup; [| apply cancel_failed_sublist].
    rewrite (RangeResult_spec result). apply NoDup_fst_map_to_list.
  - intros node. rewrite list_elem_of_omap. split.
    + intros ([n canceled] & Hentry & Hfailed). simpl in Hfailed.
      destruct canceled; simpl in Hfailed; [done |]. injection Hfailed as ->.
      rewrite (RangeResult_spec result) in Hentry.
      apply elem_of_map_to_list in Hentry. rewrite Hlookup in Hentry.
      case_decide; [| done]. by injection Hentry as ->.
    + intros [Hin Hfailed]. exists (node, false). split; [| done].
      rewrite (RangeResult_spec result). apply elem_of_map_to_list.
      rewrite Hlookup, decide_True by done. by rewrite Hfailed.
Qed.

End Headnode.

(** ** Two traversals of the registry *)

(** [List.filter] keeps permutations. *)
Lemma filter_Permutation {A} (f : A -> bool) (l k : list A) :
  l ≡ₚ k -> List.filter f l ≡ₚ List.filter f k.
Proof.
  induction 1 as [| x l k _ IH | x y l | l k m _ IH1 _ IH2]; simpl.
  - done.
  - destruct (f x); [by constructor | done].
  - destruct (f x), (f y); try done. apply perm_swap.
  - by etransitivity.
Qed.

(** Two calls traverse the registry each in an order of its own: what one
    call returns is related to what another returns only up to the order of
    the entries. *)
Section Traversals.

Variable HeartbeatTimeoutSecond : Z.
Variable DefaultPort : string.
Variable ToUpper : string -> string.
Variable Regexp : Type.
Variable Compile : string -> Regexp + string.
Variable Match : Regexp -> string -> bool.

(** The traversal of the first call and the traversal of the second. *)
Variables Range1 Range2 : gmap string Z -> list (string * Z).
Hypothesis Range1_spec : forall m, Range1 m ≡ₚ map_to_list m.
Hypothesis Range2_spec : forall m, Range2 m ≡ₚ map_to_list m.

(** X13. [GetNodes] lists every node at most once, and a call with a state
    filter other than the wildcard returns exactly the entries that a call
    without filter, on the same registry at the same time, returns with that
    state; the two calls may list them in different orders. *)
Theorem GetNodes_filter now r pattern state :
  NoDup (Name <$> (GetNodes HeartbeatTimeoutSecond Regexp Compile Match Range1
                            now r pattern state).1) /\
  (state <> NodeState_Unknown ->
   (GetNodes HeartbeatTimeoutSecond Regexp Compile Match Range1 now r pattern state).1
   ≡ₚ List.filter (fun node => bool_decide (State node = state))
        (GetNodes HeartbeatTimeoutSecond Regexp Compile Match Range2
                  now r pattern NodeState_Unknown).1).
Proof using Range1_spec Range2_spec.
  split; [by apply GetNodes_names_NoDup |].
  intros Hstate. rewrite !GetNodes_reported.
  rewrite reported_filter_omap by done.
  apply filter_Permutation, omap_Permutation.
  by rewrite Range1_spec, Range2_spec.
Qed.

(** X14. Without requested names, node resolution returns no invalid name
    and exactly the nodes that [GetNodes], on the same registry at the same
    time, reports [Ready] for the pattern, up to the order of the two
    traversals. *)
Theorem GetValidNodes_pattern_only now r pattern valid invalid :
  GetValidNodes HeartbeatTimeoutSecond DefaultPort ToUpper Regexp Compile Match Range1
                now r [] pattern = Some (valid, invalid) ->
  invalid = [] /\
  valid ≡ₚ Name <$> (GetNodes HeartbeatTimeoutSecond Regexp Compile Match Range2
                               now r pattern NodeState_Ready).1.
Proof using Range1_spec Range2_spec.
  intros [-> ->]%GetValidNodes_ready. split; [done |].
  rewrite GetNodes_reported.
  apply fmap_Permutation, omap_Permutation.
  by rewrite Range1_spec, Range2_spec.
Qed.

End Traversals.

(** ** A small cluster

    The collaborators are instantiated by simple stand-ins: upper-casing of
    ASCII letters, patterns that are literal texts (an opening parenthesis
    does not compile), replacement of a non-empty text, and the enumeration
    of a map by [map_to_list]. *)

Definition upperByte (c : ascii) : ascii :=
  let n := nat_of_ascii c in
  if ((97 <=? n) && (n <=? 122))%nat then ascii_of_nat (n - 32) else c.

Fixpoint asciiUpper (s : string) : string :=
  match s with
  | EmptyString => EmptyString
  | String c s' => String (upperByte c) (asciiUpper s')
  end.

Definition literalCompile (pattern : string) : string + string :=
  if Go.Contains pattern "(" then inr "missing closing )"%string else inl pattern.

Definition literalMatch (re s : string) : bool := Go.Contains s re.

Fixpoint dropBytes (n : nat) (s : string) : string :=
  match n, s with
  | S n, String _ s' => dropBytes n s'
  | _, _ => s
  end.

Fixpoint replaceFuel (fuel : nat) (s old new : string) : string :=
  match fuel, s with
  | S fuel, String c s' =>
      if Go.HasPrefix s old then new +:+ replaceFuel fuel (dropBytes (Go.len old) s) old new
      else String c (replaceFuel fuel s' old new)
  | _, _ => s
  end.

Definition replaceAll (s old new : string) : string :=
  match old with
  | EmptyString => s
  | String _ _ => replaceFuel (Go.len s) s old new
  end.

Lemma map_to_list_Range (m : gmap string Z) : map_to_list m ≡ₚ map_to_list m.
Proof. reflexivity. Qed.

Definition timeoutSeconds : Z := 30.

(** Two validated nodes that reported at time 0, seen five seconds later. *)
Definition cluster : Registry :=
  {| reportedTime := <["A"%string := 0]> {["B"%string := 0]};
     validateNumber := <["A"%string := -1]> {["B"%string := -1]} |}.

Definition clock : Z := 5 * Second.

Abbreviation getValidNodes :=
  (GetValidNodes timeoutSeconds "50505" asciiUpper string literalCompile literalMatch
                 map_to_list clock cluster).

(** A stand-in for the address parser: [name] or [name:port], upper-cased. *)
Definition hostAddress (host : string) : option (string * string * string) :=
  match Go.Split (asciiUpper host) ":" with
  | [hostname] => Some (hostname, "50505"%string, hostname +:+ ":50505")
  | [hostname; port] => Some (hostname, port, hostname +:+ ":" +:+ port)
  | _ => None
  end.

Abbreviation heartbeat := (Heartbeat timeoutSeconds "50505" hostAddress asciiUpper).

Abbreviation getNodes :=
  (GetNodes timeoutSeconds string literalCompile literalMatch map_to_list clock cluster).

(** A traversal in the opposite order. *)
Definition reverseRange (m : gmap string Z) : list (string * Z) := reverse (map_to_list m).

Lemma reverseRange_Range (m : gmap string Z) : reverseRange m ≡ₚ map_to_list m.
Proof. apply reverse_Permutation. Qed.

Abbreviation startClusJob :=
  (StartClusJob Go.MaxInt64 Go.MinInt64 timeoutSeconds "50505" asciiUpper replaceAll
                string literalCompile literalMatch map_to_list clock cluster).

Definition says (text : string) (code : Z) : StartJobReply :=
  {| out_stdout := text; out_stderr := ""; out_exit_code := code |}.

Definition finishes (code : Z) : NodeRun :=
  {| files_created := true; connected := true; started := true;
     outputs := [says "done" code]; recv_failed := false |}.

Definition breaks : NodeRun :=
  {| files_created := true; connected := true; started := true;
     outputs := [says "half" 0]; recv_failed := true |}.

(** Node A exits with 0, node B with 7. *)
Definition partialFailure : JobEnv :=
  {| created := inl 1; header_sent := None; store_output := false;
     runs := fun node => if String.eqb node "B" then finishes 7 else finishes 0 |}.

(** Node A exits with 0, the stream of node B breaks. *)
Definition brokenStream : JobEnv :=
  {| created := inl 1; header_sent := None; store_output := false;
     runs := fun node => if String.eqb node "B" then breaks else finishes 0 |}.

Example resolve_all : getValidNodes [] "" = Some (["A"; "B"]%string, []).
Proof. vm_compute. reflexivity. Qed.

Example resolve_names :
  getValidNodes ["b"; "a:50505"; "c"; "B"]%string "" = Some (["B"; "A"]%string, ["c"%string]).
Proof. vm_compute. reflexivity. Qed.

Example happy_path_commands :
  List.filter (fun e => match e with StartJob _ _ _ => true | _ => false end)
         (startClusJob partialFailure "echo {i}" [] "" "{i}{0-1}").2
  = [StartJob "A" 1 "echo 0"; StartJob "B" 1 "echo 1"].
Proof. vm_compute. reflexivity. Qed.

Example invalid_node :
  startClusJob partialFailure "echo" ["A"; "C"]%string "" ""
  = (Returned (Some (InvalidNodes ["C"%string])), []).
Proof. vm_compute. reflexivity. Qed.

Example sweep_mismatch :
  startClusJob partialFailure "echo hi" [] "" "{i}{0-3}"
  = (Returned (Some (PlaceholderNotInCommand "{i}" "echo hi")), []).
Proof. vm_compute. reflexivity. Qed.

(** Sweeps at the edges of the format. *)
Example parseSweep_open_range :
  parseSweep Go.MaxInt64 Go.MinInt64 "x{-3,2}" 4 = ("x"%string, [-3; -1; 1; 3]).
Proof. vm_compute. reflexivity. Qed.

Example parseSweep_step_against_range :
  parseSweep Go.MaxInt64 Go.MinInt64 "x{1-3,-1}" 3 = ("x"%string, [1; 1; 1]).
Proof. vm_compute. reflexivity. Qed.

Example parseSweep_four_pieces :
  parseSweep Go.MaxInt64 Go.MinInt64 "x{a-4--5}" 4 = ("x"%string, [-4; -5; -4; -5]).
Proof. vm_compute. reflexivity. Qed.

Example parseSweep_no_braces :
  parseSweep Go.MaxInt64 Go.MinInt64 "x" 2 = ("x"%string, [0; 1]).
Proof. vm_compute. reflexivity. Qed.

Example parseSweep_no_placeholder :
  parseSweep Go.MaxInt64 Go.MinInt64 "{1-3}" 2 = ("{1-3}"%string, [0; 1]).
Proof. vm_compute. reflexivity. Qed.

(** ** The properties at concrete inputs *)






(** The words of the specification for the sequence of a sweep: the terms
    [begin], [begin + step], ... over the integers, back to [begin] when the
    next term is strictly beyond [end]. *)
Fixpoint specSequence (begin end_ step n : Z) (count : nat) : list Z :=
  match count with
  | O => []
  | S count =>
      let next := n + step in
      n :: specSequence begin end_ step
             (if (step >? 0) && (next >? end_) || (step <? 0) && (next <? end_)
              then begin else next)
             count
  end.

(** At the largest [int] the next term is not [begin]: the addition wraps
    around to the smallest [int], which is not beyond [end]. *)
Lemma parseSweep_sequence_overflow :
  let sweep := "x{9223372036854775807,1}"%string in
  parseSweepFields Go.MaxInt64 Go.MinInt64 sweep
  = Some ("x"%string, 9223372036854775807, Go.MaxInt64, 1) /\
  defaultStep 9223372036854775807 Go.MaxInt64 1 = 1 /\
  (parseSweep Go.MaxInt64 Go.MinInt64 sweep 2).2
  = [9223372036854775807; -9223372036854775808] /\
  specSequence 9223372036854775807 Go.MaxInt64 1 9223372036854775807 2
  = [9223372036854775807; 9223372036854775807] /\
  (parseSweep Go.MaxInt64 Go.MinInt64 sweep 2).2
  <> specSequence 9223372036854775807 Go.MaxInt64 1 9223372036854775807 2.
Proof.
  cbv zeta. repeat split; try (vm_compute; reflexivity).
  vm_compute. discriminate.
Qed.

Lemma parseSweep_sequence_witness :
  parseSweepFields Go.MaxInt64 Go.MinInt64 "v{-3-5,4}" = Some ("v"%string, -3, 5, 4) /\
  defaultStep (-3) 5 4 <> 0 /\
  (parseSweep Go.MaxInt64 Go.MinInt64 "v{-3-5,4}" 4).2 !! 3%nat = Some (-3).
Proof.
  split; [vm_compute; reflexivity |].
  split; [vm_compute; discriminate |].
  exact (proj1 (proj2 (proj2 (proj2
           (parseSweep_sequence Go.MaxInt64 Go.MinInt64 "v{-3-5,4}" 4 "v" (-3) 5 4
              ltac:(vm_compute; reflexivity) ltac:(vm_compute; discriminate)))))
           2%nat 5 ltac:(vm_compute; reflexivity) ltac:(lia)
           ltac:(vm_compute; reflexivity)).
Defined.

Lemma parseSweep_failure_witness :
  sweepFailure "x{1-3,0}" /\
  parseSweep Go.MaxInt64 Go.MinInt64 "x{1-3,0}" 3 = ("x{1-3,0}"%string, [0; 1; 2]).
Proof.
  assert (H : sweepFailure "x{1-3,0}")
    by (apply (step_zero "x{1-3,0}" 1 "1-3" "0"); vm_compute; reflexivity).
  split; [exact H |].
  exact (parseSweep_failure Go.MaxInt64 Go.MinInt64 "x{1-3,0}" 3 H).
Defined.

(** A job with the empty sweep is not rejected: the check of the placeholder
    passes, the job is created and runs with the command as given. *)
Lemma empty_sweep_accepted :
  parseSweep Go.MaxInt64 Go.MinInt64 "" 2 = (""%string, [0; 1]) /\
  Go.Contains "echo hi" "" = true /\
  (startClusJob partialFailure "echo hi" ["a"%string] "" "").1 = Returned None /\
  List.filter (fun e => match e with Send _ => false | _ => true end)
              (startClusJob partialFailure "echo hi" ["a"%string] "" "").2
  = [CreateNewJob "echo hi" "" ["A"%string];
     UpdateJobState 1 JobState_Created JobState_Dispatching;
     UpdateJobState 1 JobState_Dispatching JobState_Running;
     StartJob "A" 1 "echo hi";
     UpdateFinishedJob 1].
Proof. repeat split; vm_compute; reflexivity. Qed.

Lemma empty_sweep_witness :
  getValidNodes ["a"%string] "" = Some (["A"%string], []) /\
  exists effects,
    (startClusJob partialFailure "echo hi" ["a"%string] "" "").2
    = CreateNewJob "echo hi" "" (SortStrings ["A"%string]) :: effects.
Proof.
  assert (Hvalid : getValidNodes ["a"%string] "" = Some (["A"%string], []))
    by (vm_compute; reflexivity).
  assert (Hne : ["A"%string] <> []) by discriminate.
  split; [exact Hvalid |].
  pose proof (empty_sweep Go.MaxInt64 Go.MinInt64 timeoutSeconds "50505" asciiUpper
                replaceAll string literalCompile literalMatch map_to_list)
    as (_ & _ & _ & Hcreated & _).
  exact (Hcreated clock cluster partialFailure "echo hi"%string ["a"%string] ""%string
           ["A"%string] Hvalid Hne).
Defined.

Lemma StartClusJob_rejected_witness :
  getValidNodes ["A"; "C"]%string "" = Some (["A"%string], ["C"%string]) /\
  exists err,
    startClusJob partialFailure "echo" ["A"; "C"]%string "" "" = (Returned (Some err), []).
Proof.
  assert (Hvalid : getValidNodes ["A"; "C"]%string "" = Some (["A"%string], ["C"%string]))
    by (vm_compute; reflexivity).
  split; [exact Hvalid |].
  apply (StartClusJob_rejected Go.MaxInt64 Go.MinInt64 timeoutSeconds "50505" asciiUpper
           replaceAll string literalCompile literalMatch map_to_list
           clock cluster partialFailure "echo"%string ["A"; "C"]%string ""%string ""%string
           ["A"%string] ["C"%string] Hvalid).
  left. discriminate.
Defined.

Lemma StartClusJob_aggregate_witness :
  getValidNodes [] "" = Some (["A"; "B"]%string, []) /\
  reachedEOF (store_output partialFailure) (runs partialFailure "B") = true /\
  jobOnNodes Go.MaxInt64 Go.MinInt64 replaceAll partialFailure 1 "echo" "" ["A"; "B"]%string
    !! "B"%string
  = Some {| state := JobState_Failed; exitCode := 7 |}.
Proof.
  assert (Hvalid : getValidNodes [] "" = Some (["A"; "B"]%string, []))
    by (vm_compute; reflexivity).
  assert (Hne : ["A"; "B"]%string <> []) by discriminate.
  assert (Hcontains :
            Go.Contains "echo"
              (parseSweep Go.MaxInt64 Go.MinInt64 "" (List.length ["A"; "B"]%string)).1 = true)
    by (vm_compute; reflexivity).
  assert (Heof : reachedEOF (store_output partialFailure) (runs partialFailure "B") = true)
    by (vm_compute; reflexivity).
  assert (Hin : "B"%string ∈ ["A"; "B"]%string) by set_solver.
  split; [exact Hvalid |]. split; [exact Heof |].
  pose proof (StartClusJob_aggregate Go.MaxInt64 Go.MinInt64 timeoutSeconds "50505"
                asciiUpper replaceAll string literalCompile literalMatch map_to_list
                map_to_list_Range clock cluster partialFailure "echo"%string [] ""%string
                ""%string ["A"; "B"]%string 1 Hvalid Hne Hcontains eq_refl eq_refl)
    as (Hrecorded & _ & _).
  exact (Hrecorded "B"%string Hin Heof).
Defined.

(** A timeout of 9223372037 seconds is more than 2^63 nanoseconds: the
    product wraps around to a negative duration, and the two nodes, which
    reported five seconds ago, are reported [Lost]. *)
Lemma GetNodes_timeout_overflow :
  let timeout := 9223372037 in
  clock - 0 <= timeout * 1000000000 /\
  reportedTime cluster !! "A"%string = Some 0 /\
  reportedTime cluster !! "B"%string = Some 0 /\
  HeartbeatTimeoutDuration timeout = -9223372036709551616 /\
  (GetNodes timeout string literalCompile literalMatch map_to_list clock cluster
            "" NodeState_Unknown).1
  = [{| Name := "A"; State := NodeState_Lost |};
     {| Name := "B"; State := NodeState_Lost |}].
Proof.
  cbv zeta. split; [vm_compute; congruence |].
  repeat split; vm_compute; reflexivity.
Qed.

Lemma GetNodes_state_witness :
  Go.MinInt64 <= timeoutSeconds * 1000000000 <= Go.MaxInt64 /\
  {| Name := "B"; State := NodeState_Ready |} ∈ (getNodes "" NodeState_Unknown).1 /\
  exists last_report,
    reportedTime cluster !! "B"%string = Some last_report /\
    (NodeState_Ready = NodeState_Lost <->
     clock - last_report > timeoutSeconds * 1000000000) /\
    (NodeState_Ready = NodeState_Ready <->
     clock - last_report <= timeoutSeconds * 1000000000 /\
     exists v, validateNumber cluster !! "B"%string = Some v /\ v < 0) /\
    (NodeState_Ready = NodeState_Error <->
     clock - last_report <= timeoutSeconds * 1000000000 /\
     forall v, validateNumber cluster !! "B"%string = Some v -> 0 <= v).
Proof.
  assert (Hrange : Go.MinInt64 <= timeoutSeconds * 1000000000 <= Go.MaxInt64)
    by (split; vm_compute; congruence).
  assert (Hnodes : (getNodes "" NodeState_Unknown).1
                   = [{| Name := "A"; State := NodeState_Ready |};
                      {| Name := "B"; State := NodeState_Ready |}])
    by (vm_compute; reflexivity).
  assert (Hin : {| Name := "B"; State := NodeState_Ready |}
                ∈ (getNodes "" NodeState_Unknown).1).
  { rewrite Hnodes. apply elem_of_cons. right. by apply list_elem_of_singleton. }
  split; [exact Hrange |]. split; [exact Hin |].
  pose proof GetNodes_state as H.
  specialize H with (Compile := literalCompile) (Match := literalMatch)
                    (now := clock) (r := cluster)
                    (pattern := ""%string) (state := NodeState_Unknown)
                    (1 := map_to_list_Range) (2 := Hrange).
  destruct H as (H & _ & _).
  exact (H {| Name := "B"; State := NodeState_Ready |} Hin).
Defined.

Lemma StartClusJob_broken_stream_witness :
  getValidNodes [] "" = Some (["A"; "B"]%string, []) /\
  brokeOff (store_output brokenStream) (runs brokenStream "B") = true /\
  jobOnNodes Go.MaxInt64 Go.MinInt64 replaceAll brokenStream 1 "echo" "" ["A"; "B"]%string
    !! "B"%string
  = Some {| state := JobState_Running; exitCode := 0 |}.
Proof.
  assert (Hvalid : getValidNodes [] "" = Some (["A"; "B"]%string, []))
    by (vm_compute; reflexivity).
  assert (Hcontains :
            Go.Contains "echo"
              (parseSweep Go.MaxInt64 Go.MinInt64 "" (List.length ["A"; "B"]%string)).1 = true)
    by (vm_compute; reflexivity).
  assert (Hbroke : brokeOff (store_output brokenStream) (runs brokenStream "B") = true)
    by (vm_compute; reflexivity).
  assert (Hin : "B"%string ∈ ["A"; "B"]%string) by set_solver.
  split; [exact Hvalid |]. split; [exact Hbroke |].
  pose proof (StartClusJob_broken_stream Go.MaxInt64 Go.MinInt64 timeoutSeconds "50505"
                asciiUpper replaceAll string literalCompile literalMatch map_to_list
                map_to_list_Range clock cluster brokenStream "echo"%string [] ""%string
                ""%string ["A"; "B"]%string 1 "B"%string
                Hvalid Hcontains eq_refl eq_refl Hin Hbroke)
    as (Hrecorded & _ & _).
  exact Hrecorded.
Defined.

Lemma invalid_pattern_witness :
  literalCompile "node(" = inr "missing closing )"%string /\
  GetNodes timeoutSeconds string literalCompile literalMatch map_to_list
           clock cluster "node(" NodeState_Unknown = ([], None) /\
  startClusJob partialFailure "echo" [] "node(" "" = (Returned (Some NoValidNodes), []).
Proof.
  assert (Hc : literalCompile "node(" = inr "missing closing )"%string)
    by (vm_compute; reflexivity).
  split; [exact Hc |].
  pose proof (invalid_pattern Go.MaxInt64 Go.MinInt64 timeoutSeconds "50505" asciiUpper
                replaceAll string literalCompile literalMatch map_to_list
                clock cluster partialFailure "echo"%string [] "node("%string ""%string
                NodeState_Unknown "missing closing )"%string Hc)
    as (Hnodes & _ & _ & Hjob).
  split; [exact Hnodes | exact Hjob].
Defined.

(** ** The further properties at concrete inputs *)

(** The cluster after node B reported again at the time of [clock]. *)
Definition clusterB : Registry :=
  {| reportedTime := <["B"%string := clock]> (reportedTime cluster);
     validateNumber := validateNumber cluster |}.

(** Node B, registered on port 9, reports 100 seconds after its last
    heartbeat. *)
Definition stale : Registry :=
  {| reportedTime := {["B(B:9)"%string := 0]};
     validateNumber := {["B(B:9)"%string := -1]} |}.

Definition staleB : Registry :=
  {| reportedTime := {["B(B:9)"%string := 100 * Second]}; validateNumber := ∅ |}.

Lemma parseSweep_shape_witness :
  parseSweepFields Go.MaxInt64 Go.MinInt64 "job{1-3}" = Some ("job"%string, 1, 3, 0) /\
  (parseSweep Go.MaxInt64 Go.MinInt64 "job{1-3}" 2).1 = "job"%string /\
  "job"%string <> ""%string.
Proof.
  assert (Hparse : parseSweepFields Go.MaxInt64 Go.MinInt64 "job{1-3}"
                   = Some ("job"%string, 1, 3, 0)) by (vm_compute; reflexivity).
  split; [exact Hparse |].
  pose proof parseSweep_shape as H.
  specialize H with (count := 2%nat) (1 := Hparse).
  destruct H as (Hph & Hne & _). split; [exact Hph | exact Hne].
Defined.

Lemma parseSweep_cycle_witness :
  parseSweepFields Go.MaxInt64 Go.MinInt64 "v{-3-5,4}" = Some ("v"%string, -3, 5, 4) /\
  (parseSweep Go.MaxInt64 Go.MinInt64 "v{-3-5,4}" 5).2 = [-3; 1; 5; -3; 1].
Proof.
  assert (Hparse : parseSweepFields Go.MaxInt64 Go.MinInt64 "v{-3-5,4}"
                   = Some ("v"%string, -3, 5, 4)) by (vm_compute; reflexivity).
  split; [exact Hparse |].
  pose proof parseSweep_cycle as H.
  specialize H with (count := 5%nat) (1 := Hparse).
  cbv zeta in H. destruct H as [H _].
  rewrite H; [reflexivity | | | |]; vm_compute; congruence.
Defined.

Lemma parseSweep_within_range_witness :
  parseSweepFields Go.MaxInt64 Go.MinInt64 "v{9-2,-3}" = Some ("v"%string, 9, 2, -3) /\
  3 ∈ (parseSweep Go.MaxInt64 Go.MinInt64 "v{9-2,-3}" 4).2 /\
  2 <= 3 <= 9.
Proof.
  assert (Hparse : parseSweepFields Go.MaxInt64 Go.MinInt64 "v{9-2,-3}"
                   = Some ("v"%string, 9, 2, -3)) by (vm_compute; reflexivity).
  assert (Hin : 3 ∈ (parseSweep Go.MaxInt64 Go.MinInt64 "v{9-2,-3}" 4).2).
  { replace (parseSweep Go.MaxInt64 Go.MinInt64 "v{9-2,-3}" 4).2 with [9; 6; 3; 9]
      by (vm_compute; reflexivity).
    set_solver. }
  split; [exact Hparse |]. split; [exact Hin |].
  pose proof parseSweep_within_range as H.
  specialize H with (1 := Hparse) (2 := Hin).
  cbv zeta in H. destruct H as [_ H].
  apply H; vm_compute; congruence.
Defined.

Lemma parseSweep_constant_witness :
  parseSweepFields Go.MaxInt64 Go.MinInt64 "v{7-7}" = Some ("v"%string, 7, 7, 0) /\
  defaultStep 7 7 0 = 0 /\
  (parseSweep Go.MaxInt64 Go.MinInt64 "v{7-7}" 3).2 = replicate 3 7.
Proof.
  assert (Hparse : parseSweepFields Go.MaxInt64 Go.MinInt64 "v{7-7}"
                   = Some ("v"%string, 7, 7, 0)) by (vm_compute; reflexivity).
  assert (Hstep : defaultStep 7 7 0 = 0) by reflexivity.
  split; [exact Hparse |]. split; [exact Hstep |].
  pose proof parseSweep_constant as H.
  specialize H with (count := 3%nat) (1 := Hparse).
  destruct H as [_ H]. exact (H Hstep).
Defined.

Lemma parseSweep_progression_witness :
  parseSweepFields Go.MaxInt64 Go.MinInt64 "v{7}" = Some ("v"%string, 7, Go.MaxInt64, 0) /\
  (parseSweep Go.MaxInt64 Go.MinInt64 "v{7}" 3).2 = [7; 8; 9].
Proof.
  assert (Hparse : parseSweepFields Go.MaxInt64 Go.MinInt64 "v{7}"
                   = Some ("v"%string, 7, Go.MaxInt64, 0)) by (vm_compute; reflexivity).
  split; [exact Hparse |].
  pose proof parseSweep_progression as H.
  specialize H with (count := 3%nat) (1 := Hparse).
  cbv zeta in H. rewrite H; [reflexivity |].
  left. repeat split; vm_compute; congruence.
Defined.

Lemma Heartbeat_ParseHost_witness :
  heartbeat (100 * Second) stale "b" "b:9" = (staleB, None, Some ("B(B:9)", "B", "B:9")%string) /\
  ParseHost "50505" "B(B:9)" = Some "B:9"%string.
Proof.
  assert (Hbeat : heartbeat (100 * Second) stale "b" "b:9"
                  = (staleB, None, Some ("B(B:9)", "B", "B:9")%string))
    by (vm_compute; reflexivity).
  split; [exact Hbeat |].
  pose proof Heartbeat_ParseHost as H.
  specialize H with (1 := Hbeat) (2 := eq_refl) (3 := eq_refl).
  destruct H as [[Hname _] | [_ Hhost]]; [discriminate Hname | exact Hhost].
Defined.

(** The validation entries of a node that failed three times. *)
Definition failing : gmap string Z := {["A"%string := 3]}.

Lemma validateDelay_backoff_witness :
  failing !! "A"%string = Some 3 /\ 1 <= 3 /\ validateDelay 3 = 2 ^ 3.
Proof.
  assert (Hn : failing !! "A"%string = Some 3) by (vm_compute; reflexivity).
  assert (Hpos : 1 <= 3) by (vm_compute; congruence).
  split; [exact Hn |]. split; [exact Hpos |].
  pose proof validateDelay_backoff as H.
  specialize H with (1 := Hn) (2 := Hpos).
  destruct H as (_ & _ & H & _). apply H. vm_compute. congruence.
Defined.

Definition unknown : gmap string Z := ∅.

Lemma Validate_counts_failures_witness :
  unknown !! "A"%string = None /\
  fold_left (fun vn outcome => Validate asciiUpper "A" "A" "A:50505" outcome vn)
            [DialFailed; CallFailed; DialFailed] unknown !! "A"%string
  = Some (Z.of_nat (List.length [DialFailed; CallFailed; DialFailed])).
Proof.
  assert (Hnone : unknown !! "A"%string = None) by (vm_compute; reflexivity).
  split; [exact Hnone |].
  pose proof Validate_counts_failures as H.
  specialize H with (ToUpper := asciiUpper) (nodename := "A"%string)
                    (host := "A:50505"%string)
                    (outcomes := [DialFailed; CallFailed; DialFailed])
                    (reply := "a"%string) (1 := Hnone).
  cbv zeta in H. apply H.
  - discriminate.
  - vm_compute. congruence.
  - repeat constructor.
  - reflexivity.
Defined.

Lemma Heartbeat_keeps_ready_witness :
  heartbeat clock cluster "b" "b" = (clusterB, None, Some ("B", "B", "B:50505")%string) /\
  reportedTime cluster !! "B"%string = Some 0 /\
  Validate asciiUpper "B" "B" "B:50505" (Replied "other") (validateNumber clusterB)
  = validateNumber cluster.
Proof.
  assert (Hbeat : heartbeat clock cluster "b" "b"
                  = (clusterB, None, Some ("B", "B", "B:50505")%string))
    by (vm_compute; reflexivity).
  assert (Hlast : reportedTime cluster !! "B"%string = Some 0) by (vm_compute; reflexivity).
  assert (Halive : HeartbeatTimeout timeoutSeconds clock 0 = false)
    by (vm_compute; reflexivity).
  assert (Hready : validateNumber cluster !! "B"%string = Some (-1))
    by (vm_compute; reflexivity).
  assert (Hto : 0 <= HeartbeatTimeoutDuration timeoutSeconds) by (vm_compute; congruence).
  split; [exact Hbeat |]. split; [exact Hlast |].
  pose proof Heartbeat_keeps_ready as H.
  specialize H with (outcome := Replied "other") (1 := Hbeat) (2 := Hlast) (3 := Halive)
                    (4 := Hready) (5 := Hto).
  cbv zeta in H. exact (proj1 H).
Defined.


Lemma GetNodes_filter_witness :
  NoDup (Name <$> (getNodes "" NodeState_Ready).1) /\
  (getNodes "" NodeState_Ready).1
  ≡ₚ List.filter (fun node => bool_decide (State node = NodeState_Ready))
       (GetNodes timeoutSeconds string literalCompile literalMatch reverseRange
                 clock cluster "" NodeState_Unknown).1.
Proof.
  pose proof GetNodes_filter as H.
  specialize H with (HeartbeatTimeoutSecond := timeoutSeconds) (Compile := literalCompile)
                    (Match := literalMatch) (now := clock) (r := cluster)
                    (pattern := ""%string) (state := NodeState_Ready)
                    (1 := map_to_list_Range) (2 := reverseRange_Range).
  destruct H as [Hnodup Hfilter].
  split; [exact Hnodup |]. apply Hfilter. discriminate.
Defined.

Lemma GetValidNodes_pattern_only_witness :
  getValidNodes [] "" = Some (["A"; "B"]%string, []) /\
  ["A"; "B"]%string
  ≡ₚ Name <$> (GetNodes timeoutSeconds string literalCompile literalMatch reverseRange
                         clock cluster "" NodeState_Ready).1.
Proof.
  assert (Hvalid : getValidNodes [] "" = Some (["A"; "B"]%string, []))
    by (vm_compute; reflexivity).
  split; [exact Hvalid |].
  pose proof GetValidNodes_pattern_only as H.
  specialize H with (Range2 := reverseRange) (1 := map_to_list_Range)
                    (2 := reverseRange_Range) (3 := Hvalid).
  exact (proj2 H).
Defined.

Lemma GetValidNodes_sound_witness :
  getValidNodes ["b"; "a:50505"; "c"; "B"]%string ""
  = Some (["B"; "A"]%string, ["c"%string]) /\
  exists last_report number,
    reportedTime cluster !! "A"%string = Some last_report /\
    HeartbeatTimeout timeoutSeconds clock last_report = false /\
    validateNumber cluster !! "A"%string = Some number /\ number < 0 /\
    (MatchString string literalCompile literalMatch "" "A").1 = true.
Proof.
  assert (Hvalid : getValidNodes ["b"; "a:50505"; "c"; "B"]%string ""
                   = Some (["B"; "A"]%string, ["c"%string])) by (vm_compute; reflexivity).
  assert (Hin : "A"%string ∈ ["B"; "A"]%string) by set_solver.
  split; [exact Hvalid |].
  pose proof GetValidNodes_sound as H.
  specialize H with (1 := map_to_list_Range) (2 := Hvalid) (3 := Hin).
  exact H.
Defined.


(** Node A exits with 0, node B cannot be dialled. *)
Definition unreachable : JobEnv :=
  {| created := inl 1; header_sent := None; store_output := false;
     runs := fun node =>
       if String.eqb node "B"
       then {| files_created := true; connected := false; started := false;
               outputs := []; recv_failed := false |}
       else finishes 0 |}.

Abbreviation jobRecords := (jobOnNodes Go.MaxInt64 Go.MinInt64 replaceAll).

Lemma StartJobOnNode_early_exits_witness :
  getValidNodes [] "" = Some (["A"; "B"]%string, []) /\
  jobRecords unreachable 1 "echo" "" ["A"; "B"]%string !! "B"%string
  = Some {| state := JobState_Dispatching; exitCode := 0 |} /\
  failedNodesOf (jobRecords unreachable 1 "echo" "" ["A"; "B"]%string) !! "B"%string = None.
Proof.
  assert (Hvalid : getValidNodes [] "" = Some (["A"; "B"]%string, []))
    by (vm_compute; reflexivity).
  assert (Hin : "B"%string ∈ ["A"; "B"]%string) by set_solver.
  split; [exact Hvalid |].
  pose proof StartJobOnNode_early_exits as H.
  specialize H with (Max_Int := Go.MaxInt64) (Min_Int := Go.MinInt64)
                    (ReplaceAll := replaceAll) (env := unreachable) (id := 1)
                    (command := "echo"%string) (sweep := ""%string) (node := "B"%string)
                    (1 := map_to_list_Range) (2 := Hvalid).
  cbv zeta in H. destruct H as [_ H]. specialize (H Hin).
  destruct H as (_ & H & _). apply H; reflexivity.
Defined.


Lemma StartClusJob_node_replies_witness :
  getValidNodes [] "" = Some (["A"; "B"]%string, []) /\
  List.filter (isReplyOf "B") (startClusJob brokenStream "echo" [] "" "").2
  = if streamed (store_output brokenStream) (runs brokenStream "B") then
      flat_map (redirect "B") (outputs (runs brokenStream "B"))
      ++ (if recv_failed (runs brokenStream "B") then []
          else [Send (terminalReply "B" (lastExitCode (outputs (runs brokenStream "B"))))])
    else [].
Proof.
  assert (Hvalid : getValidNodes [] "" = Some (["A"; "B"]%string, []))
    by (vm_compute; reflexivity).
  assert (Hcontains : Go.Contains "echo" (parseSweep Go.MaxInt64 Go.MinInt64 ""
                                            (List.length ["A"; "B"]%string)).1 = true)
    by (vm_compute; reflexivity).
  assert (Hin : "B"%string ∈ ["A"; "B"]%string) by set_solver.
  split; [exact Hvalid |].
  pose proof StartClusJob_node_replies as H.
  specialize H with (ReplaceAll := replaceAll) (env := brokenStream) (id := 1)
                    (1 := map_to_list_Range) (2 := Hvalid) (3 := Hcontains)
                    (4 := eq_refl) (5 := eq_refl) (6 := Hin).
  exact H.
Defined.

Lemma StartClusJob_header_and_exit_codes_witness :
  getValidNodes [] "" = Some (["A"; "B"]%string, []) /\
  List.filter isHeader (startClusJob partialFailure "echo" [] "" "").2
  = [Send (headerReply 1 (SortStrings ["A"; "B"]%string))].
Proof.
  assert (Hvalid : getValidNodes [] "" = Some (["A"; "B"]%string, []))
    by (vm_compute; reflexivity).
  assert (Hne : ["A"; "B"]%string <> []) by discriminate.
  assert (Hcontains : Go.Contains "echo" (parseSweep Go.MaxInt64 Go.MinInt64 ""
                                            (List.length ["A"; "B"]%string)).1 = true)
    by (vm_compute; reflexivity).
  split; [exact Hvalid |].
  pose proof StartClusJob_header_and_exit_codes as H.
  specialize H with (ReplaceAll := replaceAll) (env := partialFailure) (id := 1)
                    (1 := map_to_list_Range) (2 := Hvalid) (3 := Hne) (4 := Hcontains)
                    (5 := eq_refl) (6 := eq_refl).
  cbv zeta in H. destruct H as (_ & H & _). exact H.
Defined.

(** The job store refuses to create the job. *)
Definition storeDown : JobEnv :=
  {| created := inr "down"%string; header_sent := None; store_output := false;
     runs := fun _ => finishes 0 |}.

Lemma StartClusJob_store_or_stream_fails_witness :
  getValidNodes [] "" = Some (["A"; "B"]%string, []) /\
  startClusJob storeDown "echo" [] "" ""
  = (Returned (Some (CreateFailed "down")),
     [CreateNewJob "echo" "" (SortStrings ["A"; "B"]%string)]).
Proof.
  assert (Hvalid : getValidNodes [] "" = Some (["A"; "B"]%string, []))
    by (vm_compute; reflexivity).
  assert (Hne : ["A"; "B"]%string <> []) by discriminate.
  assert (Hcontains : Go.Contains "echo" (parseSweep Go.MaxInt64 Go.MinInt64 ""
                                            (List.length ["A"; "B"]%string)).1 = true)
    by (vm_compute; reflexivity).
  split; [exact Hvalid |].
  pose proof StartClusJob_store_or_stream_fails as H.
  specialize H with (ReplaceAll := replaceAll) (env := storeDown)
                    (1 := Hvalid) (2 := Hne) (3 := Hcontains).
  destruct H as [H _]. exact (H "down"%string eq_refl).
Defined.

Lemma StartClusJob_worker_calls_witness :
  getValidNodes [] "" = Some (["A"; "B"]%string, []) /\
  StartJob "B" 1 "echo 1" ∈ (startClusJob partialFailure "echo {i}" [] "" "{i}{0-1}").2.
Proof.
  assert (Hvalid : getValidNodes [] "" = Some (["A"; "B"]%string, []))
    by (vm_compute; reflexivity).
  assert (Hne : ["A"; "B"]%string <> []) by discriminate.
  assert (Hcontains : Go.Contains "echo {i}" (parseSweep Go.MaxInt64 Go.MinInt64 "{i}{0-1}"
                                                (List.length ["A"; "B"]%string)).1 = true)
    by (vm_compute; reflexivity).
  split; [exact Hvalid |].
  pose proof StartClusJob_worker_calls as H.
  specialize H with (ReplaceAll := replaceAll) (env := partialFailure) (id := 1)
                    (n := "B"%string) (i := 1) (c := "echo 1"%string)
                    (1 := Hvalid) (2 := Hne) (3 := Hcontains) (4 := eq_refl) (5 := eq_refl).
  cbv zeta in H. apply H.
  exists 1%nat, 1.
  split; [vm_compute; reflexivity |].
  split; [vm_compute; reflexivity |].
  split; [vm_compute; reflexivity |].
  split; vm_compute; reflexivity.
Defined.

Lemma StartClusJob_sorted_nodes_witness :
  getValidNodes ["b"; "a"]%string "" = Some (["B"; "A"]%string, []) /\
  exists sorted sorted_invalid,
    sorted ≡ₚ ["B"; "A"]%string /\ NoDup sorted /\ sortedStrings sorted = true /\
    sorted_invalid ≡ₚ [] /\ sortedStrings sorted_invalid = true /\
    (@nil string <> [] ->
     startClusJob partialFailure "echo" ["b"; "a"]%string "" ""
     = (Returned (Some (InvalidNodes sorted_invalid)), [])) /\
    (@nil string = [] -> ["B"; "A"]%string <> [] ->
     Go.Contains "echo" (parseSweep Go.MaxInt64 Go.MinInt64 ""
                           (List.length ["B"; "A"]%string)).1 = true ->
     (exists rest,
         (startClusJob partialFailure "echo" ["b"; "a"]%string "" "").2
         = CreateNewJob "echo" "" sorted :: rest) /\
     (forall id,
         created partialFailure = inl id ->
         exists header rest,
           (startClusJob partialFailure "echo" ["b"; "a"]%string "" "").2
           = CreateNewJob "echo" "" sorted :: Send header :: rest /\
           JobId header = int32 id /\ Nodes header = sorted)).
Proof.
  assert (Hvalid : getValidNodes ["b"; "a"]%string "" = Some (["B"; "A"]%string, []))
    by (vm_compute; reflexivity).
  split; [exact Hvalid |].
  pose proof StartClusJob_sorted_nodes as H.
  specialize H with (Max_Int := Go.MaxInt64) (Min_Int := Go.MinInt64)
                    (ReplaceAll := replaceAll) (env := partialFailure)
                    (command := "echo"%string) (sweep := ""%string)
                    (1 := map_to_list_Range) (2 := Hvalid).
  exact H.
Defined.

Lemma map_to_list_RangeResult (m : gmap string bool) : map_to_list m ≡ₚ map_to_list m.
Proof. reflexivity. Qed.

(** Node A cancels, the call to node B returns an error, node C cannot be
    dialled. *)
Definition cancelRuns (node : string) : CancelRun :=
  if String.eqb node "A" then {| cancel_connected := true; cancel_accepted := true |}
  else if String.eqb node "B" then {| cancel_connected := true; cancel_accepted := false |}
  else {| cancel_connected := false; cancel_accepted := false |}.

Lemma CancelJob_failed_nodes_witness :
  exists calls cancel_failed_nodes,
    CancelJob map_to_list 4 ["A"; "B"; "C"]%string cancelRuns
    = calls ++ [UpdateCancelledJob 4 cancel_failed_nodes] /\
    (forall n i, CancelJobCall n i ∈ calls <->
                 n ∈ ["A"; "B"; "C"]%string /\ i = 4 /\
                 cancel_connected (cancelRuns n) = true) /\
    (forall n other, UpdateCancelledJob n other ∉ calls) /\
    NoDup cancel_failed_nodes /\
    (forall node, node ∈ cancel_failed_nodes <->
                  node ∈ ["A"; "B"; "C"]%string /\ cancelled (cancelRuns node) = false).
Proof.
  pose proof CancelJob_failed_nodes as H.
  specialize H with (id := 4) (nodes := ["A"; "B"; "C"]%string) (runs := cancelRuns)
                    (1 := map_to_list_RangeResult).
  exact H.
Defined.
